(** * socs agents: SupRsync run loop, PysmurfMonitor ingestion, HWP PCU actions

    A shallow embedding of three agents of the socs repository:

    - [agents/suprsync/suprsync.py]: the [SupRsync.run] polling loop and its
      [_stop] entry point;
    - [agents/pysmurf_monitor/pysmurf_monitor.py]: the UDP ingestion path
      [PysmurfMonitor.datagramReceived];
    - [socs/agents/hwp_pcu/agent.py]: [process_action] and the
      [HWPPCUAgent.main] process.

    Python code with effects is written in a state-and-exception monad; every
    call that leaves the agent (store, subprocess, sleep, logger, driver) is
    recorded in a trace of events, and the answers of the outside world are
    parameters of the model. *)

From Stdlib Require Import QArith Lqa.
From stdpp Require Import base option list strings gmap.

Open Scope string_scope.
Open Scope list_scope.

(** ** Python exceptions and outcomes *)

(** The exception classes that the modelled code raises, catches or lets
    through. *)
Inductive exn : Type :=
  | TimeoutExpired                  (* subprocess.TimeoutExpired *)
  | CalledProcessError              (* subprocess.CalledProcessError *)
  | OperationalError                (* sqlalchemy / mysql: store unavailable *)
  | ValueError
  | OverflowError
  | KeyError (key : string)
  | TypeError
  | AttributeError
  | OSError
  | Exception (msg : string).       (* Exception("...") *)

#[global] Instance exn_eq_dec : EqDecision exn.
Proof. solve_decision. Defined.

Inductive outcome (A : Type) : Type :=
  | Ok (a : A)
  | Raise (e : exn).
Arguments Ok {A} a.
Arguments Raise {A} e.

Definition is_ok {A} (r : outcome A) : bool :=
  match r with Ok _ => true | Raise _ => false end.

(** ** The effect monad: state passing with exceptions *)

Definition M (St A : Type) : Type := St -> outcome A * St.

Definition ret {St A} (a : A) : M St A := fun st => (Ok a, st).

Definition bind {St A B} (m : M St A) (k : A -> M St B) : M St B :=
  fun st =>
    match m st with
    | (Ok a, st') => k a st'
    | (Raise e, st') => (Raise e, st')
    end.

Definition raise {St A} (e : exn) : M St A := fun st => (Raise e, st).

(** [try: m except h]: [h e] answers [Some handler] for the exceptions the
    except clauses match, [None] for those that pass through. *)
Definition try_except {St A} (m : M St A) (h : exn -> option (M St A)) : M St A :=
  fun st =>
    match m st with
    | (Ok a, st') => (Ok a, st')
    | (Raise e, st') =>
        match h e with
        | Some handler => handler st'
        | None => (Raise e, st')
        end
    end.

#[global] Instance M_ret {St} : MRet (M St) := fun A => @ret St A.
#[global] Instance M_bind {St} : MBind (M St) := fun A B k m => @bind St A B m k.

(** ** SupRsync: [agents/suprsync/suprsync.py] *)

Module SupRsync.

(** Modelled from the spec: the [SupRsyncFile] row class of [socs.db.suprsync],
    which is not among the sources; the fields are those of the FileRecord of
    the data model, [copied] being its tri-state. *)
Inductive copy_status : Type :=
  | Unattempted
  | Verified
  | PermanentlyFailed.

Record SupRsyncFile : Type := mkFile {
  id : nat;
  archive_name : string;
  local_path : string;
  local_md5sum : string;
  remote_path : string;
  timestamp : Q;
  copied : copy_status;
  failed_copy_attempts : nat;
  removed : bool
}.

(** The handle bound by [with srfm.Session.begin() as session]. *)
Definition session : Type := nat.

(** The two [time.sleep] calls of [run]. *)
Inductive sleep_site : Type :=
  | Cooldown      (* time.sleep(self.timeout_wait), in the except clause *)
  | Tick.         (* time.sleep(3) *)

(** What [run] and [_stop] do that is visible outside the agent object, in
    the order it happens.  Calls carry their arguments and their answer. *)
Inductive event : Type :=
  | OpenManager (r : outcome unit)   (* SupRsyncFilesManager(db_path, create_all=True) *)
  | SetStatus (s : string)           (* session.set_status(s) on the OCS session *)
  | MakeHandler (r : outcome unit)   (* SupRsyncFileHandler(srfm, ...) *)
  | TestRunning (b : bool)           (* the loop condition [self.running] *)
  | Begin (s : session)              (* the with block is entered *)
  | GetNextFile (s : session) (r : outcome (option SupRsyncFile))
  | HandleFile (f : SupRsyncFile) (s : session) (r : outcome unit)
  | LogError (path : string)         (* self.log.error("Timed out ...", path) *)
  | Sleep (site : sleep_site) (d : Q)
  | Commit (s : session) (r : outcome unit)  (* the with block is left normally *)
  | Rollback (s : session)           (* the with block is left by an exception *)
  | StopCalled                       (* _stop is entered, on the reactor thread *)
  | StopReturned.                    (* _stop returns *)

(** A Python float as [time.sleep] can be given one: a finite value, taken
    as a rational, an infinity or nan (argparse's [float] accepts 'inf' and
    'nan' for --timeout-wait). *)
Inductive pyfloat : Type :=
  | Finite (q : Q)
  | Infinite (negative : bool)
  | NaN.

(** The longest sleep, in seconds: [time.sleep] converts its argument to a
    whole number of nanoseconds in 64 bits. *)
Definition max_sleep : Q := 9223372036854775807 # 1000000000.

(** What [time.sleep(d)] makes of its argument before it sleeps (CPython 3):
    nan is refused with ValueError; a length that does not fit the 64 bits,
    of either sign and the infinities included, with OverflowError; a
    negative length that fits with ValueError; any other length is slept. *)
Definition sleep_length (d : pyfloat) : outcome Q :=
  match d with
  | NaN => Raise ValueError
  | Infinite _ => Raise OverflowError
  | Finite q =>
      if Qle_bool (- max_sleep) q && Qle_bool q max_sleep
      then if Qle_bool 0 q then Ok q else Raise ValueError
      else Raise OverflowError
  end.

(** The parsed command line, [args], as far as [run] reads it.  The
    retention window, a float in the source, is a rational here. *)
Record args : Type := mkArgs {
  arg_archive_name : string;
  arg_db_path : string;
  arg_remote_basedir : string;
  arg_delete_after : option Q;
  arg_max_copy_attempts : option nat;
  arg_timeout_wait : pyfloat
}.

(** The world outside the agent: the sqlite store, the file system and the
    remote host.  [socs.db.suprsync] is not among the sources, so its entry
    points form an interface; each is a function of the world that answers
    with a value or an exception. *)
Class World (W : Type) : Type := {
  (* SupRsyncFilesManager(db_path, create_all=True) *)
  open_manager : string -> W -> outcome unit * W;
  (* SupRsyncFileHandler(srfm, remote_basedir, delete_after=..., ...) *)
  make_handler : string -> option Q -> W -> outcome unit * W;
  (* srfm.Session.begin(): __enter__, and the two ways __exit__ ends *)
  session_begin : W -> session * W;
  session_commit : session -> W -> outcome unit * W;
  session_rollback : session -> W -> W;
  (* srfm.get_next_file(archive_name, session=, delete_after=, max_copy_attempts=) *)
  get_next_file :
    string -> session -> option Q -> option nat -> W ->
    outcome (option SupRsyncFile) * W;
  (* handler.handle_file(file, session) *)
  handle_file : SupRsyncFile -> session -> W -> outcome unit * W
}.

(** The agent object's [running] attribute, the status of the OCS session,
    the trace, and the outside world. *)
Record state (W : Type) : Type := mkState {
  running : bool;
  status : string;
  trace : list event;
  world : W
}.
Arguments mkState {W} _ _ _ _.
Arguments running {W} _.
Arguments status {W} _.
Arguments trace {W} _.
Arguments world {W} _.

Section Loop.

Context `{World W}.

(** OCS runs [run] on a worker thread and calls [_stop] from the reactor
    thread, so [_stop] can execute between any two steps of the loop.  The
    schedule says, from what has happened so far, whether it does. *)
Variable stop_requested : list event -> bool.

Variable a : args.

Definition emit (e : event) : M (state W) unit :=
  fun st => (Ok tt, mkState (running st) (status st) (trace st ++ [e]) (world st)).

Definition set_running (b : bool) : M (state W) unit :=
  fun st => (Ok tt, mkState b (status st) (trace st) (world st)).

Definition set_status (s : string) : M (state W) unit :=
  fun st => (Ok tt, mkState (running st) s (trace st ++ [SetStatus s]) (world st)).

(** [_stop(self, session, params=None)] *)
Definition _stop : M (state W) unit :=
  emit StopCalled ;;
  set_running false ;;
  set_status "stopping" ;;
  emit StopReturned.

(** The reactor thread's turn before a step of the loop.  A call of [_stop]
    is taken whole, between two steps of the loop; on its own thread its
    statements could also fall on either side of such a step. *)
Definition yield : M (state W) unit :=
  fun st => if stop_requested (trace st) then _stop st else (Ok tt, st).

(** A call into the outside world: the answer is recorded and, when it is an
    exception, raised. *)
Definition extern {A} (f : W -> outcome A * W) (ev : outcome A -> event) : M (state W) A :=
  fun st =>
    let '(r, w) := f (world st) in
    (r, mkState (running st) (status st) (trace st ++ [ev r]) w).

Definition call {A} (f : W -> outcome A * W) (ev : outcome A -> event) : M (state W) A :=
  yield ;; extern f ev.

Definition read_running : M (state W) bool :=
  fun st => (Ok (running st), mkState (running st) (status st)
                                (trace st ++ [TestRunning (running st)]) (world st)).

Definition test_running : M (state W) bool :=
  yield ;; read_running.

(** [time.sleep(d)]: the length is slept, or the call raises. *)
Definition sleep (site : sleep_site) (d : pyfloat) : M (state W) unit :=
  yield ;;
  match sleep_length d with
  | Ok q => emit (Sleep site q)
  | Raise e => raise e
  end.

Definition log_error (path : string) : M (state W) unit :=
  yield ;; emit (LogError path).

(** [with srfm.Session.begin() as session: body]: the transaction is
    committed when the body returns; when the body or the commit raises, it
    is rolled back and the exception is raised again. *)
Definition enter_begin : M (state W) session :=
  fun st =>
    let '(s, w) := session_begin (world st) in
    (Ok s, mkState (running st) (status st) (trace st ++ [Begin s]) w).

Definition exit_rollback (s : session) : M (state W) unit :=
  fun st => (Ok tt, mkState (running st) (status st) (trace st ++ [Rollback s])
                      (session_rollback s (world st))).

Definition with_begin {A} (body : session -> M (state W) A) : M (state W) A :=
  yield ;;
  s ← enter_begin;
  try_except
    (x ← body s; call (session_commit s) (Commit s) ;; mret x)
    (fun e => Some (exit_rollback s ;; raise e)).

(** The body of [while self.running:]. *)
Definition iteration : M (state W) unit :=
  with_begin (fun session =>
    file ← call (get_next_file (arg_archive_name a) session
                   (arg_delete_after a) (arg_max_copy_attempts a))
                (GetNextFile session);
    match file with
    | Some f =>
        try_except
          (call (handle_file f session) (HandleFile f session))
          (fun e => match e with
                    | TimeoutExpired =>
                        Some (log_error (local_path f) ;;
                              sleep Cooldown (arg_timeout_wait a))
                    | _ => None
                    end)
    | None => mret tt
    end ;;
    sleep Tick (Finite 3)).

(** [while self.running: ...], unrolled at most [fuel] times; [None] when the
    loop is still running after that many iterations. *)
Fixpoint run_loop (fuel : nat) : M (state W) (option unit) :=
  match fuel with
  | O => mret None
  | S n =>
      b ← test_running;
      if b : bool then iteration ;; run_loop n else mret (Some tt)
  end.

(** [run(self, session, params=None)] *)
Definition run (fuel : nat) : M (state W) (option unit) :=
  call (open_manager (arg_db_path a)) OpenManager ;;
  yield ;; set_running true ;;
  yield ;; set_status "running" ;;
  call (make_handler (arg_remote_basedir a) (arg_delete_after a)) MakeHandler ;;
  run_loop fuel.

End Loop.

(** *** A scripted world

    For running the loop on concrete inputs: the answers of the store and of
    the handler are read off lists, one per call; when a list is used up the
    store has no file to offer and every call succeeds. *)
Record script : Type := mkScript {
  next_session : session;
  selects : list (outcome (option SupRsyncFile));
  handles : list (outcome unit);
  commits : list (outcome unit)
}.

Definition s_open (_ : string) (w : script) : outcome unit * script := (Ok tt, w).
Definition s_handler (_ : string) (_ : option Q) (w : script) : outcome unit * script :=
  (Ok tt, w).
Definition s_begin (w : script) : session * script :=
  (next_session w, mkScript (S (next_session w)) (selects w) (handles w) (commits w)).
Definition s_commit (_ : session) (w : script) : outcome unit * script :=
  match commits w with
  | [] => (Ok tt, w)
  | r :: rs => (r, mkScript (next_session w) (selects w) (handles w) rs)
  end.
Definition s_rollback (_ : session) (w : script) : script := w.
Definition s_select (_ : string) (_ : session) (_ : option Q) (_ : option nat)
    (w : script) : outcome (option SupRsyncFile) * script :=
  match selects w with
  | [] => (Ok None, w)
  | r :: rs => (r, mkScript (next_session w) rs (handles w) (commits w))
  end.
Definition s_handle (_ : SupRsyncFile) (_ : session) (w : script) : outcome unit * script :=
  match handles w with
  | [] => (Ok tt, w)
  | r :: rs => (r, mkScript (next_session w) (selects w) rs (commits w))
  end.

#[global] Instance script_world : World script := {
  open_manager := s_open;
  make_handler := s_handler;
  session_begin := s_begin;
  session_commit := s_commit;
  session_rollback := s_rollback;
  get_next_file := s_select;
  handle_file := s_handle
}.

Definition never : list event -> bool := fun _ => false.

(** The reactor thread calls [_stop] once, while the handler is at work on
    the first file: right after the selection has answered. *)
Definition stop_after_selection (tr : list event) : bool :=
  match tr with
  | [TestRunning true; Begin _; GetNextFile _ _] => true
  | _ => false
  end.

Definition args0 : args :=
  mkArgs "smurf" "/data/so/dbs/suprsync.db" "/data/archive" (Some 3600%Q) (Some 3%nat)
    (Finite 20).

Definition file0 : SupRsyncFile :=
  mkFile 1 "smurf" "/data/smurf/1.dat" "d41d8cd9" "smurf/1.dat" 100%Q Unattempted 0 false.

Definition start (w : script) : state script := mkState true "running" [] w.

(** A store that is down: the first selection raises OperationalError. *)
Definition store_down : state script :=
  mkState false "starting" [] (mkScript 0 [Raise OperationalError] [] []).

(** A store with one file to copy. *)
Definition one_file : state script :=
  mkState true "running" [] (mkScript 0 [Ok (Some file0)] [] []).

(** *** Reading traces *)

(** The events of the loop's own thread: everything except what [_stop]
    leaves in the trace ([run] itself only ever sets the status "running"). *)
Definition of_loop (e : event) : bool :=
  match e with
  | StopCalled | StopReturned => false
  | SetStatus s => negb (String.eqb s "stopping")
  | _ => true
  end.

Definition loop_events (tr : list event) : list event := List.filter of_loop tr.

(** Two states that the loop cannot tell apart within one iteration: the
    same world and the same events of its own. *)
Definition same {W} (st1 st2 : state W) : Prop :=
  world st1 = world st2 /\ loop_events (trace st1) = loop_events (trace st2).

Definition sim {W A} (m1 m2 : M (state W) A) : Prop :=
  forall st1 st2, same st1 st2 ->
    (m1 st1).1 = (m2 st2).1 /\ same (m1 st1).2 (m2 st2).2.

(** From [st] to [st']: the trace has only grown; [self.running] is what it
    was unless [_stop] was called in between, in which case it is False (this
    is how the flag moves once [run] has set it); and every call of [_stop]
    in between has returned, two events later. *)
Definition is_stop_call (e : event) : bool :=
  match e with StopCalled => true | _ => false end.

Definition returns_at_once (evs : list event) : Prop :=
  forall i, evs !! i = Some StopCalled -> evs !! (i + 2)%nat = Some StopReturned.

Definition advance {W} (st st' : state W) : Prop :=
  exists evs, trace st' = trace st ++ evs /\
    running st' = (if existsb is_stop_call evs then false else running st) /\
    returns_at_once evs.

Definition advances {W A} (m : M (state W) A) : Prop :=
  forall st, advance st (m st).2.

(** The ways through the body of the loop, read off [iteration]: the answer
    of the iteration, the events of the loop thread in order, and the world
    it leaves.  Lemma [iteration_path] shows that [iteration] takes exactly
    these ways. *)
Definition commit_events (s : session) (rc : outcome unit) : list event :=
  match rc with
  | Ok _ => [Commit s rc]
  | Raise _ => [Commit s rc; Rollback s]
  end.

Definition after_commit `{World W} (s : session) (rc : outcome unit) (w : W) : W :=
  match rc with
  | Ok _ => w
  | Raise _ => session_rollback s w
  end.

Definition select `{World W} (a : args) (s : session) (w : W) :
    outcome (option SupRsyncFile) * W :=
  get_next_file (arg_archive_name a) s (arg_delete_after a) (arg_max_copy_attempts a) w.

Inductive path `{World W} (a : args) (w : W) : outcome unit -> list event -> W -> Prop :=
  | path_select_raises s w1 e w2 :
      session_begin w = (s, w1) ->
      select a s w1 = (Raise e, w2) ->
      path a w (Raise e)
        [Begin s; GetNextFile s (Raise e); Rollback s]
        (session_rollback s w2)
  | path_idle s w1 w2 rc w3 :
      session_begin w = (s, w1) ->
      select a s w1 = (Ok None, w2) ->
      session_commit s w2 = (rc, w3) ->
      path a w rc
        ([Begin s; GetNextFile s (Ok None); Sleep Tick 3] ++ commit_events s rc)
        (after_commit s rc w3)
  | path_handled s w1 f w2 w3 rc w4 :
      session_begin w = (s, w1) ->
      select a s w1 = (Ok (Some f), w2) ->
      handle_file f s w2 = (Ok tt, w3) ->
      session_commit s w3 = (rc, w4) ->
      path a w rc
        ([Begin s; GetNextFile s (Ok (Some f)); HandleFile f s (Ok tt); Sleep Tick 3]
           ++ commit_events s rc)
        (after_commit s rc w4)
  | path_timeout s w1 f w2 w3 d rc w4 :
      session_begin w = (s, w1) ->
      select a s w1 = (Ok (Some f), w2) ->
      handle_file f s w2 = (Raise TimeoutExpired, w3) ->
      sleep_length (arg_timeout_wait a) = Ok d ->
      session_commit s w3 = (rc, w4) ->
      path a w rc
        ([Begin s; GetNextFile s (Ok (Some f)); HandleFile f s (Raise TimeoutExpired);
          LogError (local_path f); Sleep Cooldown d; Sleep Tick 3]
           ++ commit_events s rc)
        (after_commit s rc w4)
  | path_timeout_bad_wait s w1 f w2 w3 e :
      session_begin w = (s, w1) ->
      select a s w1 = (Ok (Some f), w2) ->
      handle_file f s w2 = (Raise TimeoutExpired, w3) ->
      sleep_length (arg_timeout_wait a) = Raise e ->
      path a w (Raise e)
        [Begin s; GetNextFile s (Ok (Some f)); HandleFile f s (Raise TimeoutExpired);
         LogError (local_path f); Rollback s]
        (session_rollback s w3)
  | path_handle_raises s w1 f w2 e w3 :
      session_begin w = (s, w1) ->
      select a s w1 = (Ok (Some f), w2) ->
      handle_file f s w2 = (Raise e, w3) ->
      e <> TimeoutExpired ->
      path a w (Raise e)
        [Begin s; GetNextFile s (Ok (Some f)); HandleFile f s (Raise e); Rollback s]
        (session_rollback s w3).

(** The events of the loop thread over a run of the loop: one segment per
    iteration, each after a test of [self.running] that found it True; the
    run ends with the test that finds it False, or breaks off (an exception
    left the loop, or the unrolling stopped). *)
Inductive iterations (P : list event -> Prop) : list event -> Prop :=
  | its_break : iterations P []
  | its_exit : iterations P [TestRunning false]
  | its_step evs rest :
      P evs -> iterations P rest -> iterations P (TestRunning true :: evs ++ rest).

(** One transaction: it is begun, the selection is made on it, what follows
    is done on it, and the last event, and only the last, closes it. *)
Definition on_session (s : session) (e : event) : bool :=
  match e with
  | GetNextFile s' _ | HandleFile _ s' _ => Nat.eqb s' s
  | Commit s' (Raise _) => Nat.eqb s' s
  | LogError _ | Sleep _ _ => true
  | _ => false
  end.

Definition closes (s : session) (e : event) : bool :=
  match e with
  | Commit s' (Ok _) | Rollback s' => Nat.eqb s' s
  | _ => false
  end.

Inductive transaction (s : session) : list event -> Prop :=
  | transaction_intro r body c :
      forallb (on_session s) body = true ->
      closes s c = true ->
      transaction s (Begin s :: GetNextFile s r :: body ++ [c]).

(** What the trace of an iteration would look like if the transaction were
    released before the fixed sleep: some event that closes a transaction
    lies before every [time.sleep(3)]. *)
Definition released_before_fixed_sleep (evs : list event) : Prop :=
  forall i d, evs !! i = Some (Sleep Tick d) ->
    exists j e s, j < i /\ evs !! j = Some e /\ closes s e = true.

(** What a run would look like if store errors were caught: after a
    selection that raised OperationalError the error is logged and [run] has
    not ended with an exception. *)
Definition store_errors_survived (r : outcome (option unit)) (evs : list event) : Prop :=
  forall i s, evs !! i = Some (GetNextFile s (Raise OperationalError)) ->
    is_ok r = true /\ exists j p, i < j /\ evs !! j = Some (LogError p).

(** What a trace would look like if [_stop] waited for the iteration in
    flight: an iteration is in flight from the test of the flag that found
    it True to the event that closes its transaction, and a call of [_stop]
    made meanwhile returns only after that event. *)
Definition in_flight (tr : list event) : bool :=
  fold_left (fun b e =>
               match e with
               | TestRunning true => true
               | Commit _ (Ok _) | Rollback _ => false
               | _ => b
               end) tr false.

Definition stop_waits_for_iteration (tr : list event) : Prop :=
  forall c r, tr !! c = Some StopCalled -> tr !! r = Some StopReturned -> c < r ->
    in_flight (take c tr) = true ->
    exists k e s, c < k < r /\ tr !! k = Some e /\ closes s e = true.

Definition tests_flag (e : event) : bool :=
  match e with TestRunning _ => true | _ => false end.

End SupRsync.

(** ** The record store behind SupRsync, from the design *)

Module SupRsyncStore.
Import SupRsync.

(** How the copy command of the Transfer Executor ends: it exceeds its
    timeout, exits non-zero, or exits zero leaving a remote artifact with the
    given checksum. *)
Inductive copy_end : Type :=
  | CopyTimeout
  | CopyFails
  | Copies (remote_md5sum : string).

(** Modelled from the spec: the Record Store of [socs.db.suprsync], which is
    not among the sources.  One row per file; a transaction works on its own
    view of the rows, which commit makes durable and rollback discards.
    [run] gives the configured ceiling, [max_copy_attempts], to
    [get_next_file] and not to the handler, so within a transaction the
    ceiling is the one the selection was made with: [ceiling] holds it.  The
    clock and the way copy and delete commands end belong to the world. *)
Record store : Type := mkStore {
  committed : list SupRsyncFile;
  pending : list SupRsyncFile;
  sessions : nat;
  ceiling : option nat;
  now : Q;
  copy_ends : SupRsyncFile -> copy_end;
  delete_ok : SupRsyncFile -> bool
}.

Definition with_pending (rows : list SupRsyncFile) (w : store) : store :=
  mkStore (committed w) rows (sessions w) (ceiling w) (now w) (copy_ends w) (delete_ok w).

Definition store_begin (w : store) : session * store :=
  (sessions w,
   mkStore (committed w) (committed w) (S (sessions w)) (ceiling w) (now w)
     (copy_ends w) (delete_ok w)).

Definition store_commit (_ : session) (w : store) : outcome unit * store :=
  (Ok tt,
   mkStore (pending w) (pending w) (sessions w) (ceiling w) (now w)
     (copy_ends w) (delete_ok w)).

Definition store_rollback (_ : session) (w : store) : store :=
  with_pending (committed w) w.

(** [update(record)]: the row with the record's id is replaced. *)
Definition put (f : SupRsyncFile) (rows : list SupRsyncFile) : list SupRsyncFile :=
  List.map (fun r => if Nat.eqb (id r) (id f) then f else r) rows.

(** Modelled from the spec: the Candidate Selector (section 4.2).  Copy work
    first, oldest first; when there is none and a retention window is set,
    verified copies past the window, oldest first. *)
Definition at_ceiling (c : option nat) (r : SupRsyncFile) : bool :=
  match c with
  | Some n => Nat.leb n (failed_copy_attempts r)
  | None => false
  end.

Definition needs_copy (archive : string) (c : option nat) (r : SupRsyncFile) : bool :=
  String.eqb (archive_name r) archive &&
  match copied r with Unattempted => negb (at_ceiling c r) | _ => false end.

Definition past_retention (archive : string) (window clock : Q) (r : SupRsyncFile) : bool :=
  String.eqb (archive_name r) archive &&
  match copied r with Verified => true | _ => false end &&
  negb (removed r) &&
  negb (Qle_bool (clock - window)%Q (timestamp r)).

Definition older (best : option SupRsyncFile) (r : SupRsyncFile) : option SupRsyncFile :=
  match best with
  | None => Some r
  | Some b => if Qle_bool (timestamp b) (timestamp r) then Some b else Some r
  end.

Definition oldest (rows : list SupRsyncFile) : option SupRsyncFile :=
  fold_left older rows None.

Definition next_file (archive : string) (delete_after : option Q) (c : option nat)
    (clock : Q) (rows : list SupRsyncFile) : option SupRsyncFile :=
  match oldest (List.filter (needs_copy archive c) rows) with
  | Some f => Some f
  | None =>
      match delete_after with
      | Some window => oldest (List.filter (past_retention archive window clock) rows)
      | None => None
      end
  end.

Definition store_get_next_file (archive : string) (_ : session) (delete_after : option Q)
    (c : option nat) (w : store) : outcome (option SupRsyncFile) * store :=
  (Ok (next_file archive delete_after c (now w) (pending w)),
   mkStore (committed w) (pending w) (sessions w) c (now w) (copy_ends w) (delete_ok w)).

(** Modelled from the spec: the bookkeeping of a failed attempt (sections 3
    and 4.3): the counter goes up by one, and the record is marked
    permanently failed once the counter has reached the ceiling. *)
Definition record_failure (c : option nat) (f : SupRsyncFile) : SupRsyncFile :=
  let n := S (failed_copy_attempts f) in
  mkFile (id f) (archive_name f) (local_path f) (local_md5sum f) (remote_path f)
    (timestamp f)
    (match c with
     | Some ceil => if Nat.leb ceil n then PermanentlyFailed else copied f
     | None => copied f
     end)
    n (removed f).

Definition mark_verified (f : SupRsyncFile) : SupRsyncFile :=
  mkFile (id f) (archive_name f) (local_path f) (local_md5sum f) (remote_path f)
    (timestamp f) Verified (failed_copy_attempts f) (removed f).

Definition mark_removed (f : SupRsyncFile) : SupRsyncFile :=
  mkFile (id f) (archive_name f) (local_path f) (local_md5sum f) (remote_path f)
    (timestamp f) (copied f) (failed_copy_attempts f) true.

(** Modelled from the spec: [SupRsyncFileHandler.handle_file], the Transfer
    Executor with the Verifier (sections 4.3, 4.4) and the Retention Reaper
    (section 4.5).  A copy that exceeds its timeout is counted as a failed
    attempt and raises subprocess.TimeoutExpired, which is what [run]
    catches; a non-zero exit and a checksum mismatch are counted the same
    way and return. *)
Definition store_handle_file (f : SupRsyncFile) (_ : session) (w : store) :
    outcome unit * store :=
  match copied f with
  | Unattempted =>
      match copy_ends w f with
      | CopyTimeout =>
          (Raise TimeoutExpired, with_pending (put (record_failure (ceiling w) f) (pending w)) w)
      | CopyFails =>
          (Ok tt, with_pending (put (record_failure (ceiling w) f) (pending w)) w)
      | Copies md5 =>
          if String.eqb md5 (local_md5sum f)
          then (Ok tt, with_pending (put (mark_verified f) (pending w)) w)
          else (Ok tt, with_pending (put (record_failure (ceiling w) f) (pending w)) w)
      end
  | Verified =>
      if negb (removed f) && delete_ok w f
      then (Ok tt, with_pending (put (mark_removed f) (pending w)) w)
      else (Ok tt, w)
  | PermanentlyFailed => (Ok tt, w)
  end.

#[global] Instance store_world : World store := {
  open_manager := fun _ w => (Ok tt, w);
  make_handler := fun _ _ w => (Ok tt, w);
  session_begin := store_begin;
  session_commit := store_commit;
  session_rollback := store_rollback;
  get_next_file := store_get_next_file;
  handle_file := store_handle_file
}.

(** The time the loop has spent in [time.sleep] over a stretch of events. *)
Definition slept (evs : list event) : Q :=
  fold_right (fun e t => match e with Sleep _ d => (d + t)%Q | _ => t end) 0%Q evs.

(** A store with one file waiting to be copied to a host that does not
    answer. *)
Definition unreachable : store :=
  mkStore [file0] [] 0 None 200%Q (fun _ => CopyTimeout) (fun _ => true).

(** The row of a file in a list of rows, by its id. *)
Definition row_of (f : SupRsyncFile) (rows : list SupRsyncFile) : option SupRsyncFile :=
  List.find (fun r => Nat.eqb (id r) (id f)) rows.

(** The ceiling [c] is reached by a counter of [n]. *)
Definition reached (c : option nat) (n : nat) : Prop :=
  exists ceil, c = Some ceil /\ ceil <= n.

(** What the trace and the store of an iteration would have to show if every
    timed-out copy were counted and followed by the cooldown: for each call
    of [handle_file] that raised subprocess.TimeoutExpired, the committed row
    of the file has one failed attempt more than the file that was handled,
    and the time slept is at least a finite [timeout_wait]. *)
Definition timeouts_counted_and_cooled (a : args) (evs : list event) (w' : store) : Prop :=
  forall f s, In (HandleFile f s (Raise TimeoutExpired)) evs ->
    (exists r, row_of f (committed w') = Some r /\
               failed_copy_attempts r = S (failed_copy_attempts f)) /\
    (forall q, arg_timeout_wait a = Finite q -> (q <= slept evs)%Q).

End SupRsyncStore.

(** ** Two engine instances on one store

    Each instance is a process of its own that runs [SupRsync.run]; the two
    meet only in the store.  What their loop threads do is one sequence of
    events, each marked with the instance it belongs to. *)

Module SupRsyncInstances.
Import SupRsync.

Definition instance : Type := bool.

Definition of_instance (i : instance) (m : list (instance * event)) : list event :=
  map snd (List.filter (fun ie => Bool.eqb (fst ie) i) m).

(** Whether a transaction is open after the events of one loop: it is from
    [Session.begin()] until the commit has returned or the with block has
    rolled back. *)
Definition tx_step (b : bool) (e : event) : bool :=
  match e with
  | Begin _ => true
  | Commit _ (Ok _) | Rollback _ => false
  | _ => b
  end.

Definition tx_from (b : bool) (evs : list event) : bool := fold_left tx_step evs b.

Definition in_transaction (evs : list event) : bool := tx_from false evs.

Definition is_begin (e : event) : bool :=
  match e with Begin _ => true | _ => false end.

Definition is_close (e : event) : bool :=
  match e with Commit _ (Ok _) | Rollback _ => true | _ => false end.

(** The calls that act on a record: its selection and its handling. *)
Definition acts (e : event) : bool :=
  match e with GetNextFile _ _ | HandleFile _ _ _ => true | _ => false end.

(** Modelled from the spec: the store's transaction is "a transactional lock
    that spans selection and state mutation as one unit" (section 3), so
    [Session.begin()] returns to an instance only while the other instance
    has no transaction open.  [exclusive pre m] checks this along [m], which
    follows [pre]. *)
Fixpoint exclusive (pre m : list (instance * event)) : bool :=
  match m with
  | [] => true
  | (i, e) :: m' =>
      (if is_begin e then negb (in_transaction (of_instance (negb i) pre)) else true)
      && exclusive (pre ++ [(i, e)]) m'
  end.

Definition lock_granted (m : list (instance * event)) : bool := exclusive [] m.

(** Two instances that each make one pass over a store with one file, the
    second after the first. *)
Definition one_after_the_other : list (instance * event) :=
  map (pair true)
    [TestRunning true; Begin 0; GetNextFile 0 (Ok (Some file0)); HandleFile file0 0 (Ok tt);
     Sleep Tick 3; Commit 0 (Ok tt)] ++
  map (pair false)
    [TestRunning true; Begin 0; GetNextFile 0 (Ok (Some file0)); HandleFile file0 0 (Ok tt);
     Sleep Tick 3; Commit 0 (Ok tt)].

End SupRsyncInstances.

(** ** PysmurfMonitor: [agents/pysmurf_monitor/pysmurf_monitor.py] *)

Module Pysmurf.

(** Python values, as far as JSON and the ingestion path produce them. *)
#[warnings="-register-all"]
Inductive pyval : Type :=
  | PNone
  | PBool (b : bool)
  | PInt (n : Z)
  | PFloat (q : Q)
  | PStr (s : string)
  | PDatetime (t : Q)                 (* a datetime.datetime, by its POSIX timestamp *)
  | PList (l : list pyval)
  | PDict (d : gmap string pyval).

(** [v[key]] for a string key: KeyError on a dict without the key, TypeError
    on anything that is not a dict. *)
Definition getitem (v : pyval) (key : string) : outcome pyval :=
  match v with
  | PDict d =>
      match d !! key with
      | Some x => Ok x
      | None => Raise (KeyError key)
      end
  | _ => Raise TypeError
  end.

(** [d[key]] on the dict [d] under construction. *)
Definition lookup_key (d : gmap string pyval) (key : string) : outcome pyval :=
  match d !! key with
  | Some x => Ok x
  | None => Raise (KeyError key)
  end.

(** [v.copy()] followed by the first subscript with a string: a dict gives
    its copy, a list has [copy] but no string subscripts, anything else has
    no [copy]. *)
Definition copy_dict (v : pyval) : outcome (gmap string pyval) :=
  match v with
  | PDict d => Ok d
  | PList _ => Raise TypeError
  | _ => Raise AttributeError
  end.

(** [data['type'] in ['data_file']] *)
Definition is_data_file (ty : pyval) : bool :=
  match ty with
  | PStr s => String.eqb s "data_file"
  | _ => false
  end.

(** The three log lines of the class, by their format and argument. *)
Inductive message : Type :=
  | NewFile (fname : pyval)           (* "New file: {fname}" *)
  | Added (path : pyval)              (* "Added {} to pysmurf_files" *)
  | NotAdded (path : pyval).          (* "ERROR!!! {} was not added to the database" *)

Inductive event : Type :=
  | LogInfo (m : message)
  | LogError (m : message)
  | GetMd5sum (path : pyval) (r : outcome string)   (* get_md5sum(d['path']) *)
  | RunInteraction (d : gmap string pyval).
      (* self.dbpool.runInteraction(pysmurf_files_manager.add_entry, d) *)

(** The library functions the ingestion path calls, and the file system
    through [socs.util.get_md5sum], which is not among the sources. *)
Class Host : Type := {
  json_loads : string -> outcome pyval;              (* json.loads *)
  utcfromtimestamp : pyval -> outcome pyval;         (* datetime.datetime.utcfromtimestamp *)
  get_md5sum : pyval -> outcome string;              (* socs.util.get_md5sum *)
  py_int : pyval -> outcome Z                        (* int *)
}.

(** [self.base_file_info], as [__init__] builds it from the two parts of the
    agent address and the version of socs. *)
Definition base_file_info (site instance version : string) : gmap string pyval :=
  <["site" := PStr site]>
    (<["instance_id" := PStr instance]>
       (<["copied" := PInt 0]>
          (<["failed_copy_attempts" := PInt 0]>
             (<["socs_version" := PStr version]> ∅)))).

Section Monitor.

Context `{Host}.

(** The attribute [self.base_file_info] of the monitor. *)
Variable info : gmap string pyval.

Definition lift {A} (r : outcome A) : M (list event) A := fun tr => (r, tr).

Definition emit (e : event) : M (list event) unit := fun tr => (Ok tt, tr ++ [e]).

Definition call_get_md5sum (path : pyval) : M (list event) string :=
  fun tr => (get_md5sum path, tr ++ [GetMd5sum path (get_md5sum path)]).

(** [_add_file_callback(self, res, d)] *)
Definition _add_file_callback (d : gmap string pyval) : M (list event) unit :=
  p ← lift (lookup_key d "path");
  emit (LogInfo (Added p)).

(** [_add_file_errback(self, failure, d)]: logs and returns the failure, so
    the deferred stays failed. *)
Definition _add_file_errback (e : exn) (d : gmap string pyval) : M (list event) unit :=
  p ← lift (lookup_key d "path");
  emit (LogError (NotAdded p)) ;;
  raise e.

(** [datagramReceived(self, _data, addr)], up to the point where the
    insertion has been handed to the connection pool; the dict handed over
    is returned, [None] when nothing is. *)
Definition datagramReceived (_data : string) : M (list event) (option (gmap string pyval)) :=
  data ← lift (json_loads _data);
  ty ← lift (getitem data "type");
  if is_data_file ty then
    payload ← lift (getitem data "payload");
    fname ← lift (getitem payload "path");
    emit (LogInfo (NewFile fname)) ;;
    d ← lift (copy_dict payload);
    ts ← lift (lookup_key d "timestamp");
    t ← lift (utcfromtimestamp ts);
    let d := <["timestamp" := t]> d in
    path ← lift (lookup_key d "path");
    m ← call_get_md5sum path;
    let d := <["md5sum" := PStr m]> d in
    plot ← lift (lookup_key d "plot");
    n ← lift (py_int plot);
    let d := <["plot" := PInt n]> d in
    let d := info ∪ d in
    emit (RunInteraction d) ;;
    mret (Some d)
  else mret None.

(** The deferred of [runInteraction] fires with the outcome of the insertion.
    The errback was added first and the callback second: on success the
    errback is skipped and the callback runs; on failure the errback runs
    and, as it returns the failure, the callback is skipped. *)
Definition fire (r : outcome unit) (d : gmap string pyval) : M (list event) unit :=
  match r with
  | Ok _ => _add_file_callback d
  | Raise e => _add_file_errback e d
  end.

(** One datagram from arrival to the end of its callbacks. *)
Definition ingest (_data : string) (inserted : outcome unit) : M (list event) unit :=
  handed ← datagramReceived _data;
  match handed with
  | Some d => fire inserted d
  | None => mret tt
  end.

End Monitor.

Definition md5_calls (tr : list event) : nat :=
  length (List.filter (fun e => match e with GetMd5sum _ _ => true | _ => false end) tr).

(** A host for running the path on concrete datagrams: one datagram is
    known, an announcement of a data file. *)
Definition payload0 : gmap string pyval :=
  <["path" := PStr "/data/smurf/1.dat"]>
    (<["timestamp" := PFloat 1600000000]>
       (<["plot" := PBool false]>
          (<["copied" := PInt 1]> ∅))).

Definition datagram0 : pyval :=
  PDict (<["type" := PStr "data_file"]> (<["payload" := PDict payload0]> ∅)).

#[global] Instance host0 : Host := {
  json_loads := fun s => if String.eqb s "datagram0" then Ok datagram0 else Raise ValueError;
  utcfromtimestamp := fun v =>
    match v with
    | PInt n => Ok (PDatetime (inject_Z n))
    | PFloat q => Ok (PDatetime q)
    | _ => Raise TypeError
    end;
  get_md5sum := fun v =>
    match v with
    | PStr _ => Ok "9e107d9d372bb6826bd81d3542a419d6"
    | _ => Raise TypeError
    end;
  py_int := fun v =>
    match v with
    | PBool b => Ok (if b then 1 else 0)%Z
    | PInt n => Ok n
    | _ => Raise TypeError
    end
}.

Definition info0 : gmap string pyval := base_file_info "observatory" "pysmurf-monitor" "0.1.0".

End Pysmurf.

(** ** HWP PCU agent: [socs/agents/hwp_pcu/agent.py] *)

Module HWPPCU.

(** [Actions.SendCommand] with its [command] and the deferred that
    [__post_init__] gives it, named by a number; [OtherAction] stands for an
    action of another class. *)
Inductive action : Type :=
  | SendCommand (command : string) (deferred : nat)
  | OtherAction (deferred : nat).

Definition deferred_of (a : action) : nat :=
  match a with
  | SendCommand _ d | OtherAction d => d
  end.

(** [dict(off_channel=off_channel, on_channel=on_channel)] *)
Record relays : Type := mkRelays {
  off_channel : list nat;
  on_channel : list nat
}.

Inductive message : Type :=
  | Connected                        (* "Connected to PCU" *)
  | CommandLine (command : string)   (* "Command: {action.command}" *)
  | OffChannels (l : list nat)       (* "  Off channels: {off_channel}" *)
  | OnChannels (l : list nat)        (* "  On channels: {on_channel}" *)
  | RunningAction (a : action)       (* "Running action {action}" *)
  | ErrorProcessing (a : action).    (* "Error processing action: {action}" *)

Inductive event : Type :=
  | Connect (port : string) (r : outcome unit)   (* pcu.PCU(port=self.port) *)
  | LogInfo (m : message)
  | LogError (m : message)
  | SetStatus (s : string)           (* session.set_status(s) *)
  | TestStatus (b : bool)            (* session.status in ['starting', 'running'] *)
  | RelayOff (i : nat) (r : outcome unit)        (* PCU.relay_off(i) *)
  | RelayOn (i : nat) (r : outcome unit)         (* PCU.relay_on(i) *)
  | GetStatus (r : outcome string)   (* PCU.get_status() *)
  | Publish (status : string) (t : Q)            (* self.agent.publish_to_feed *)
  | Close (r : outcome unit)         (* PCU.close() *)
  | Clock (t : Q)                    (* time.time() *)
  | Sleep (d : Q)                    (* time.sleep(d) *)
  | Put (a : action)                 (* self.action_queue.put(action), in send_command *)
  | Callback (a : action) (res : option relays)  (* action.deferred.callback(res) *)
  | Errback (a : action) (e : exn).  (* action.deferred.errback(e) *)

(** The PCU driver [socs.agents.hwp_pcu.drivers.hwp_pcu], which is not among
    the sources, and the clock. *)
Class Hardware (W : Type) : Type := {
  connect : string -> W -> outcome unit * W;
  relay_off : nat -> W -> outcome unit * W;
  relay_on : nat -> W -> outcome unit * W;
  get_status : W -> outcome string * W;
  close : W -> outcome unit * W;
  time : W -> Q * W
}.

(** What the reactor thread does while [main] runs on its worker thread:
    the [send_command] tasks it starts, by their command, and whether it
    calls [_stop_main]; both from what has happened so far. *)
Record reactor : Type := mkReactor {
  commands : list event -> list string;
  stop_requested : list event -> bool
}.

(** The agent: its queue, the status and data of the session of [main], the
    number of deferreds made so far, the trace and the hardware. *)
Record state (W : Type) : Type := mkState {
  action_queue : list action;
  status : string;
  data : option (string * Q);
  next_deferred : nat;
  trace : list event;
  world : W
}.
Arguments mkState {W} _ _ _ _ _ _.
Arguments action_queue {W} _.
Arguments status {W} _.
Arguments data {W} _.
Arguments next_deferred {W} _.
Arguments trace {W} _.
Arguments world {W} _.

(** The relays a command switches off and on, as the branches of
    [process_action] assign [off_channel] and [on_channel]. *)
Definition channels (command : string) : list nat * list nat :=
  if String.eqb command "off" then ([0; 1; 2; 5; 6; 7], [])
  else if String.eqb command "on_1" then ([5; 6; 7], [0; 1; 2])
  else if String.eqb command "on_2" then ([], [0; 1; 2; 5; 6; 7])
  else if String.eqb command "stop" then ([0; 6; 7], [1; 2; 5])
  else ([], []).

Section Agent.

Context `{Hardware W}.

Variable r : reactor.
Variable port : string.

Definition emit (e : event) : M (state W) unit :=
  fun st => (Ok tt, mkState (action_queue st) (status st) (data st) (next_deferred st)
                      (trace st ++ [e]) (world st)).

(** [send_command], up to [yield action.deferred]: the action is made, with
    a deferred of its own, and put on the queue. *)
Definition send_command (command : string) : M (state W) unit :=
  fun st =>
    let a := SendCommand command (next_deferred st) in
    (Ok tt, mkState (action_queue st ++ [a]) (status st) (data st)
              (S (next_deferred st)) (trace st ++ [Put a]) (world st)).

Definition set_status (s : string) : M (state W) unit :=
  fun st => (Ok tt, mkState (action_queue st) s (data st) (next_deferred st)
                      (trace st ++ [SetStatus s]) (world st)).

(** [_stop_main(self, session, params)] *)
Definition _stop_main : M (state W) unit := set_status "stopping".

Fixpoint for_each {A} (l : list A) (f : A -> M (state W) unit) : M (state W) unit :=
  match l with
  | [] => mret tt
  | x :: rest => f x ;; for_each rest f
  end.

(** The reactor thread's turn before a step of [main]. *)
Definition yield : M (state W) unit :=
  fun st =>
    (for_each (commands r (trace st)) send_command ;;
     if stop_requested r (trace st) then _stop_main else mret tt) st.

Definition extern {A} (f : W -> outcome A * W) (ev : outcome A -> event) : M (state W) A :=
  fun st =>
    let '(res, w) := f (world st) in
    (res, mkState (action_queue st) (status st) (data st) (next_deferred st)
            (trace st ++ [ev res]) w).

Definition call {A} (f : W -> outcome A * W) (ev : outcome A -> event) : M (state W) A :=
  yield ;; extern f ev.

Definition log_info (m : message) : M (state W) unit := yield ;; emit (LogInfo m).
Definition log_error (m : message) : M (state W) unit := yield ;; emit (LogError m).

(** [process_action(action, PCU)]; [None] is what Python returns for an
    action that is not a SendCommand. *)
Definition process_action (a : action) : M (state W) (option relays) :=
  match a with
  | SendCommand command _ =>
      let '(off_channel, on_channel) := channels command in
      log_info (CommandLine command) ;;
      log_info (OffChannels off_channel) ;;
      log_info (OnChannels on_channel) ;;
      for_each off_channel (fun i => call (relay_off i) (RelayOff i)) ;;
      for_each on_channel (fun i => call (relay_on i) (RelayOn i)) ;;
      mret (Some (mkRelays off_channel on_channel))
  | OtherAction _ => mret None
  end.

(** [not self.action_queue.empty()] followed by [self.action_queue.get()]:
    [main] is the only consumer, so [get] returns the head that [empty]
    saw. *)
Definition take_head : M (state W) (option action) :=
  fun st =>
    match action_queue st with
    | [] => (Ok None, st)
    | a :: rest =>
        (Ok (Some a), mkState rest (status st) (data st) (next_deferred st)
                        (trace st) (world st))
    end.

Definition pop : M (state W) (option action) := yield ;; take_head.

Definition callback (a : action) (res : option relays) : M (state W) unit :=
  yield ;; emit (Callback a res).

Definition errback (a : action) (e : exn) : M (state W) unit :=
  yield ;; emit (Errback a e).

(** [_process_actions(self, PCU)], its loop unrolled at most [fuel] times. *)
Fixpoint _process_actions (fuel : nat) : M (state W) (option unit) :=
  match fuel with
  | O => mret None
  | S n =>
      next ← pop;
      match next with
      | Some a =>
          try_except
            (log_info (RunningAction a) ;;
             res ← process_action a;
             callback a res)
            (fun e => Some (log_error (ErrorProcessing a) ;; errback a e)) ;;
          _process_actions n
      | None => mret (Some tt)
      end
  end.

Definition read_time : M (state W) Q :=
  fun st =>
    let '(t, w) := time (world st) in
    (Ok t, mkState (action_queue st) (status st) (data st) (next_deferred st)
             (trace st ++ [Clock t]) w).

Definition set_data (s : string) (t : Q) : M (state W) unit :=
  fun st => (Ok tt, mkState (action_queue st) (status st) (Some (s, t)) (next_deferred st)
                      (trace st) (world st)).

(** [_get_and_publish_data(self, PCU, session)] *)
Definition _get_and_publish_data : M (state W) unit :=
  now ← (yield ;; read_time);
  st ← call get_status GetStatus;
  yield ;; emit (Publish st now) ;;
  set_data st now.

Definition read_status : M (state W) bool :=
  fun st =>
    let b := String.eqb (status st) "starting" || String.eqb (status st) "running" in
    (Ok b, mkState (action_queue st) (status st) (data st) (next_deferred st)
             (trace st ++ [TestStatus b]) (world st)).

Definition test_status : M (state W) bool := yield ;; read_status.

(** The first loop of [main]: every queued action is cancelled. *)
Fixpoint cancel_queued (fuel : nat) : M (state W) (option unit) :=
  match fuel with
  | O => mret None
  | S n =>
      next ← pop;
      match next with
      | Some a => errback a (Exception "Action cancelled") ;; cancel_queued n
      | None => mret (Some tt)
      end
  end.

(** The polling loop of [main]; [inner] bounds the loop of
    [_process_actions]. *)
Fixpoint poll (inner fuel : nat) (last_daq : Q) : M (state W) (option unit) :=
  match fuel with
  | O => mret None
  | S n =>
      b ← test_status;
      if b : bool then
        now ← (yield ;; read_time);
        last ← (if Qle_bool (now - last_daq)%Q 5 then mret last_daq
                else _get_and_publish_data ;; mret now);
        done ← _process_actions inner;
        match done with
        | Some _ => yield ;; emit (Sleep (1 # 10)) ;; poll inner n last
        | None => mret None
        end
      else mret (Some tt)
  end.

(** [main(self, session, params)]: the lines before its first loop, then
    the two loops and the closing of the port. *)
Definition connect_and_start : M (state W) unit :=
  call (connect port) (Connect port) ;;
  log_info Connected ;;
  yield ;; set_status "running".

Definition main (inner fuel : nat) : M (state W) (option unit) :=
  connect_and_start ;;
  cancelled ← cancel_queued fuel;
  match cancelled with
  | Some _ =>
      polled ← poll inner fuel 0%Q;
      match polled with
      | Some _ => call close Close ;; mret (Some tt)
      | None => mret None
      end
  | None => mret None
  end.

End Agent.

(** A scripted PCU for running the agent on concrete inputs: every call
    succeeds, the clock advances by one second per reading. *)
Record bench : Type := mkBench { clock : Q }.

#[global] Instance bench_hardware : Hardware bench := {
  connect := fun _ w => (Ok tt, w);
  relay_off := fun _ w => (Ok tt, w);
  relay_on := fun _ w => (Ok tt, w);
  get_status := fun w => (Ok "off", w);
  close := fun w => (Ok tt, w);
  time := fun w => (clock w, mkBench (clock w + 1)%Q)
}.

(** The relay calls in a stretch of events, in order: [false] for
    [relay_off], [true] for [relay_on], with the channel. *)
Definition relay_of (e : event) : option (bool * nat) :=
  match e with
  | RelayOff i _ => Some (false, i)
  | RelayOn i _ => Some (true, i)
  | _ => None
  end.

Definition relay_calls (evs : list event) : list (bool * nat) := omap relay_of evs.

Definition expected_calls (off on : list nat) : list (bool * nat) :=
  List.map (pair false) off ++ List.map (pair true) on.

Definition known_command (command : string) : Prop :=
  command = "off" \/ command = "on_1" \/ command = "on_2" \/ command = "stop".

(** A triple for reasoning about the agent: from a state whose queue and
    deferred count satisfy [I], the computation leaves one that does, adds
    only events that satisfy [P] to the trace, and answers with a value that
    satisfies [Q]. *)
Definition hoare {W A} (I : list action -> nat -> Prop) (P : event -> Prop)
    (m : M (state W) A) (Q : A -> Prop) : Prop :=
  forall st, I (action_queue st) (next_deferred st) ->
    I (action_queue (m st).2) (next_deferred (m st).2) /\
    (exists evs, trace (m st).2 = trace st ++ evs /\ Forall P evs) /\
    (forall x, (m st).1 = Ok x -> Q x).

Definition any {A} : A -> Prop := fun _ => True.

(** The events before the polling loop: no test of the status, no action
    taken up, no relay call. *)
Definition calm (e : event) : bool :=
  match e with
  | TestStatus _ | LogInfo (RunningAction _) | RelayOff _ _ | RelayOn _ _ => false
  | _ => true
  end.

(** An action taken up has a deferred made at or after number [n]. *)
Definition runs_from (n : nat) (e : event) : Prop :=
  forall a, e = LogInfo (RunningAction a) -> n <= deferred_of a.

Definition cancelled (a : action) : event := Errback a (Exception "Action cancelled").

Definition is_calm (e : event) : Prop := calm e = true.

(** What holds of the queue and of the number of deferreds made, [n0] being
    that number when [main] starts: the number has not gone down; the queue
    is the one [main] started with, and what was put since; every action on
    the queue was put since. *)
Definition counted (n0 : nat) : list action -> nat -> Prop := fun _ n => n0 <= n.

Definition grown (n0 : nat) (q0 : list action) : list action -> nat -> Prop :=
  fun q n => n0 <= n /\ exists acts, q = q0 ++ acts.

Definition fresh (n0 : nat) : list action -> nat -> Prop :=
  fun q n => n0 <= n /\ Forall (fun a => n0 <= deferred_of a) q.

(** A computation whose relay calls are [expected], in that order: the
    calls it makes are always the first ones of [expected], and all of them
    when it returns. *)
Definition relays_as {W A} (m : M (state W) A) (expected : list (bool * nat)) : Prop :=
  forall st, exists evs,
    trace (m st).2 = trace st ++ evs /\
    relay_calls evs `prefix_of` expected /\
    (is_ok (m st).1 = true -> relay_calls evs = expected).

(** A computation that never raises. *)
Definition returns {W A} (m : M (state W) A) : Prop :=
  forall st, is_ok (m st).1 = true.

Definition quiet_reactor : reactor := mkReactor (fun _ => []) (fun _ => false).

(** The reactor thread starts one [send_command] task after the first test
    of the status, and stops [main] after the first sleep. *)
Definition busy_reactor : reactor :=
  mkReactor
    (fun tr => match last tr with Some (TestStatus true) => ["on_1"] | _ => [] end)
    (fun tr => match last tr with Some (Sleep _) => true | _ => false end).

Definition queued : state bench :=
  mkState [SendCommand "stop" 0; SendCommand "on_2" 1] "starting" None 2 []
    (mkBench 100).

End HWPPCU.

(** ** SupRsync: further readings of the trace, and two more worlds *)

Module SupRsyncExtra.
Import SupRsync.

Definition is_select (e : event) : bool :=
  match e with GetNextFile _ _ => true | _ => false end.

(** The number of calls of [get_next_file] in a stretch of events. *)
Definition selections (evs : list event) : nat := length (List.filter is_select evs).

Definition is_handle (e : event) : bool :=
  match e with HandleFile _ _ _ => true | _ => false end.

(** The number of calls of [handle_file] in a stretch of events. *)
Definition handlings (evs : list event) : nat := length (List.filter is_handle evs).

(** In the events of one iteration, [handle_file] is called at most once,
    and then right after the selection, on the file the selection returned
    and on the session of that selection. *)
Definition handles_the_selected (evs : list event) : Prop :=
  handlings evs <= 1 /\
  forall f s r, In (HandleFile f s r) evs ->
    exists rest, evs = Begin s :: GetNextFile s (Ok (Some f)) :: HandleFile f s r :: rest.

(** The time slept at the two [time.sleep] calls over a stretch of events. *)
Definition time_slept (evs : list event) : Q :=
  fold_right (fun e t => match e with Sleep _ d => (d + t)%Q | _ => t end) 0%Q evs.

(** A store that never has a file to offer and never fails. *)
#[global] Instance idle_world : World unit := {
  open_manager := fun _ w => (Ok tt, w);
  make_handler := fun _ _ w => (Ok tt, w);
  session_begin := fun w => (0%nat, w);
  session_commit := fun _ w => (Ok tt, w);
  session_rollback := fun _ w => w;
  get_next_file := fun _ _ _ _ w => (Ok None, w);
  handle_file := fun _ _ w => (Ok tt, w)
}.

(** A host on which the handler cannot be made, and the store cannot be
    opened when the world is [false]. *)
#[global] Instance broken_world : World bool := {
  open_manager := fun _ w => if w then (Ok tt, w) else (Raise OperationalError, w);
  make_handler := fun _ _ w => (Raise OSError, w);
  session_begin := fun w => (0%nat, w);
  session_commit := fun _ w => (Ok tt, w);
  session_rollback := fun _ w => w;
  get_next_file := fun _ _ _ _ w => (Ok None, w);
  handle_file := fun _ _ w => (Ok tt, w)
}.

(** A store that always has the same file to offer, to a host that never
    answers: every copy times out. *)
#[global] Instance stalled_world : World nat := {
  open_manager := fun _ w => (Ok tt, w);
  make_handler := fun _ _ w => (Ok tt, w);
  session_begin := fun w => (w, S w);
  session_commit := fun _ w => (Ok tt, w);
  session_rollback := fun _ w => w;
  get_next_file := fun _ _ _ _ w => (Ok (Some file0), w);
  handle_file := fun _ _ w => (Raise TimeoutExpired, w)
}.

(** The reactor thread calls [_stop] once, before [run] has done anything. *)
Definition stop_at_start (tr : list event) : bool :=
  match tr with
  | [] => true
  | _ => false
  end.

(** The reactor thread calls [_stop] once, when the manager has been opened
    and [run] has not yet set [self.running]. *)
Definition stop_after_open (tr : list event) : bool :=
  match tr with
  | [OpenManager _] => true
  | _ => false
  end.

(** What one call of [_stop] leaves in the trace. *)
Definition stop_events : list event := [StopCalled; SetStatus "stopping"; StopReturned].

(** A configuration with a negative [--timeout-wait]. *)
Definition args_negative_wait : args :=
  mkArgs "smurf" "/data/so/dbs/suprsync.db" "/data/archive" None (Some 3%nat) (Finite (-1)).

(** A store with one file whose copy times out. *)
Definition one_timeout : state script :=
  mkState true "running" [] (mkScript 0 [Ok (Some file0)] [Raise TimeoutExpired] []).

End SupRsyncExtra.

(** ** PysmurfMonitor: the constructor and the [init] task *)

Module PysmurfAgent.
Import Pysmurf.

(** The truth value of a Python value, as [bool(v)] and [if v:] take it. *)
Definition truthy (v : pyval) : bool :=
  match v with
  | PNone => false
  | PBool b => b
  | PInt n => negb (Z.eqb n 0)
  | PFloat q => negb (Qeq_bool q 0)
  | PStr s => negb (String.eqb s "")
  | PDatetime _ => true
  | PList l => match l with [] => false | _ => true end
  | PDict d => negb (Nat.eqb (size d) 0)
  end.

(** The character ['.'], code 46. *)
Definition dot : Ascii.ascii := Eval cbv in Ascii.ascii_of_nat 46.

(** [s.split('.')] *)
Fixpoint split_dot (s : string) : list string :=
  match s with
  | EmptyString => [EmptyString]
  | String c rest =>
      if Ascii.eqb c dot then EmptyString :: split_dot rest
      else match split_dot rest with
           | piece :: pieces => String c piece :: pieces
           | [] => [String c EmptyString]
           end
  end.

(** ['.'.join(pieces)] *)
Fixpoint join_dot (pieces : list string) : string :=
  match pieces with
  | [] => EmptyString
  | [piece] => piece
  | piece :: rest => piece +:+ String dot (join_dot rest)
  end.

Fixpoint dots (s : string) : nat :=
  match s with
  | EmptyString => 0
  | String c rest => (if Ascii.eqb c dot then 1 else 0) + dots rest
  end.

(** The attributes [__init__] sets, the connection pool by the keyword
    arguments it is made with. *)
Record monitor : Type := mkMonitor {
  create_table : bool;
  file_info : gmap string pyval;
  sql_config : gmap string string
}.

(** [__init__(self, agent, args)], from the address of the agent,
    [args.create_table], [os.environ] and [socs.__version__].  Making the
    adbapi.ConnectionPool opens no connection. *)
Definition __init__ (agent_address : string) (create_table_arg : pyval)
    (environ : gmap string string) (version : string) : outcome monitor :=
  let create := truthy create_table_arg in
  match split_dot agent_address with
  | [site; instance] =>
      let info := base_file_info site instance version in
      match environ !! "MYSQL_USER" with
      | None => Raise (KeyError "MYSQL_USER")
      | Some user =>
          match environ !! "MYSQL_PASSWORD" with
          | None => Raise (KeyError "MYSQL_PASSWORD")
          | Some passwd =>
              let config : gmap string string :=
                <["user" := user]>
                  (<["passwd" := passwd]> (<["database" := "files"]> ∅)) in
              let config :=
                match environ !! "MYSQL_HOST" with
                | Some db_host => <["host" := db_host]> config
                | None => config
                end in
              Ok (mkMonitor create info config)
          end
      end
  | _ => Raise ValueError
  end.

(** What the [init] task does to the connection pool and the database. *)
Inductive db_event : Type :=
  | Connect (r : outcome unit)        (* self.dbpool.connect() *)
  | Cursor (r : outcome unit)         (* con.cursor() *)
  | CreateTable (r : outcome unit)    (* pysmurf_files_manager.create_table(cur, update=True) *)
  | Commit (r : outcome unit)         (* con.commit() *)
  | Disconnect (r : outcome unit).    (* self.dbpool.disconnect(con) *)

(** The pool and the database; [socs.db.pysmurf_files_manager] is not among
    the sources. *)
Class Database (W : Type) : Type := {
  db_connect : W -> outcome unit * W;
  db_cursor : W -> outcome unit * W;
  db_create_table : W -> outcome unit * W;
  db_commit : W -> outcome unit * W;
  db_disconnect : W -> outcome unit * W
}.

(** [try: m finally: fin]: [fin] runs however [m] ends; an exception of
    [fin] replaces the outcome of [m]. *)
Definition try_finally {St A} (m : M St A) (fin : M St unit) : M St A :=
  fun st =>
    let '(r, st1) := m st in
    match fin st1 with
    | (Ok _, st2) => (r, st2)
    | (Raise e, st2) => (Raise e, st2)
    end.

Section Init.

Context `{Database W}.

Definition db_call (f : W -> outcome unit * W) (ev : outcome unit -> db_event) :
    M (list db_event * W) unit :=
  fun st =>
    let '(r, w) := f st.2 in
    (r, (st.1 ++ [ev r], w)).

(** [params.get('create_table', self.create_table)], as the [if] takes it;
    [params] is [{}] when the task is called with None. *)
Definition wants_table (self : monitor) (params : option (gmap string pyval)) : bool :=
  match default ∅ params !! "create_table" with
  | Some v => truthy v
  | None => create_table self
  end.

(** [init(self, session, params=None)] *)
Definition init (self : monitor) (params : option (gmap string pyval)) :
    M (list db_event * W) (bool * string) :=
  (if wants_table self params then
     db_call db_connect Connect ;;
     db_call db_cursor Cursor ;;
     try_finally
       (db_call db_create_table CreateTable ;;
        db_call db_commit Commit)
       (db_call db_disconnect Disconnect)
   else mret tt) ;;
  mret (true, "Initialized agent").

End Init.

(** A database for running [init] on concrete inputs: each call fails when
    its name is in the list. *)
#[global] Instance failing : Database (list string) := {
  db_connect := fun w => (if bool_decide ("connect" ∈ w) then Raise OperationalError else Ok tt, w);
  db_cursor := fun w => (if bool_decide ("cursor" ∈ w) then Raise OperationalError else Ok tt, w);
  db_create_table := fun w =>
    (if bool_decide ("create_table" ∈ w) then Raise OperationalError else Ok tt, w);
  db_commit := fun w => (if bool_decide ("commit" ∈ w) then Raise OperationalError else Ok tt, w);
  db_disconnect := fun w =>
    (if bool_decide ("disconnect" ∈ w) then Raise OSError else Ok tt, w)
}.

Definition monitor0 : monitor := mkMonitor true info0 ∅.

Definition environ0 : gmap string string :=
  <["MYSQL_USER" := "smurf"]> (<["MYSQL_PASSWORD" := "secret"]> ∅).

(** A host whose one datagram announces a data file without saying
    whether it is a plot. *)
Definition payload1 : gmap string pyval :=
  <["path" := PStr "/data/smurf/2.dat"]> (<["timestamp" := PInt 1600000000]> ∅).

Definition datagram1 : pyval :=
  PDict (<["type" := PStr "data_file"]> (<["payload" := PDict payload1]> ∅)).

Definition host_no_plot : Host := {|
  json_loads := fun s => if String.eqb s "datagram1" then Ok datagram1 else Raise ValueError;
  utcfromtimestamp := @utcfromtimestamp host0;
  get_md5sum := @get_md5sum host0;
  py_int := @py_int host0
|}.

(** A datagram of another type, without payload. *)
Definition datagram2 : pyval := PDict (<["type" := PStr "session_data"]> ∅).

Definition host_other : Host := {|
  json_loads := fun s => if String.eqb s "datagram2" then Ok datagram2 else Raise ValueError;
  utcfromtimestamp := @utcfromtimestamp host0;
  get_md5sum := @get_md5sum host0;
  py_int := @py_int host0
|}.

End PysmurfAgent.

(** ** HWP PCU agent: the life of an action, and a PCU that can fail *)

Module HWPPCUExtra.
Import HWPPCU.

(** Readings of a stretch of events: the actions put on the queue, the
    actions taken up by [_process_actions], and the actions whose deferred
    was fired, each in order. *)
Definition put_of (e : event) : option action :=
  match e with
  | Put a => Some a
  | _ => None
  end.

Definition puts (evs : list event) : list action := omap put_of evs.

Definition taken_of (e : event) : option action :=
  match e with
  | LogInfo (RunningAction a) => Some a
  | _ => None
  end.

Definition taken (evs : list event) : list action := omap taken_of evs.

Definition resolution_of (e : event) : option action :=
  match e with
  | Callback a _ | Errback a _ => Some a
  | _ => None
  end.

Definition resolved (evs : list event) : list action := omap resolution_of evs.

(** What [process_action] returns for an action. *)
Definition result_of (a : action) : option relays :=
  match a with
  | SendCommand command _ => Some (mkRelays (channels command).1 (channels command).2)
  | OtherAction _ => None
  end.

(** The exception of a relay call that raised. *)
Definition failure_of (ev : event) : option exn :=
  match ev with
  | RelayOff _ (Raise e) | RelayOn _ (Raise e) => Some e
  | _ => None
  end.

Definition failures (evs : list event) : list exn := omap failure_of evs.

(** The events that neither take an action up nor resolve one nor log an
    error: those of the reactor thread, of logging at info level, of the
    driver and of the clock. *)
Definition passive (e : event) : bool :=
  match e with
  | LogInfo (RunningAction _) | LogError _ | Callback _ _ | Errback _ _ => false
  | _ => true
  end.

Definition is_passive (e : event) : Prop := passive e = true.

(** The events of the reactor thread while [main] runs: a task that puts
    an action on the queue, and [_stop_main] setting the status. *)
Definition of_reactor (e : event) : bool :=
  match e with
  | Put _ => true
  | SetStatus s => String.eqb s "stopping"
  | _ => false
  end.

Definition is_reactor (e : event) : Prop := of_reactor e = true.

(** A step on the way to the relays: its events are passive; when it
    returns, no relay call raised; when it raises, the relay call that
    raised is its last event, no call before it raised, and the exception
    is that of the call. *)
Definition relay_step {A} (o : outcome A) (evs : list event) : Prop :=
  Forall is_passive evs /\
  match o with
  | Ok _ => failures evs = []
  | Raise e =>
      exists pre fail,
        evs = pre ++ [fail] /\ failures pre = [] /\ failure_of fail = Some e
  end.

(** One pass of the body of the loop of [_process_actions] for the action
    [a], as a stretch of events: the action is taken up; then either every
    relay call returns and the deferred gets the dict of the two lists, or
    one relay call raises, the error is logged and the deferred gets that
    exception.  In the second case the call that raised is the last one
    made: between it and the errback there is only the line of the error
    and what the reactor thread does meanwhile ([w1], [w2]). *)
Inductive attempt_of (a : action) : list event -> Prop :=
  | attempt_done (w0 body w1 : list event) :
      Forall is_reactor w0 -> Forall is_passive body -> Forall is_reactor w1 ->
      failures body = [] ->
      attempt_of a (w0 ++ LogInfo (RunningAction a) :: body ++ w1 ++
                      [Callback a (result_of a)])
  | attempt_failed (w0 pre w1 w2 : list event) (fail : event) (e : exn) :
      Forall is_reactor w0 -> Forall is_passive pre ->
      Forall is_reactor w1 -> Forall is_reactor w2 ->
      failures pre = [] -> failure_of fail = Some e ->
      attempt_of a (w0 ++ LogInfo (RunningAction a) :: pre ++ fail :: w1 ++
                      LogError (ErrorProcessing a) :: w2 ++ [Errback a e]).

(** A stretch of events that is one attempt for each of [acts], in that
    order, and only events of the reactor thread after the last. *)
Inductive attempts : list action -> list event -> Prop :=
  | attempts_nil (w : list event) : Forall is_reactor w -> attempts [] w
  | attempts_cons (a : action) (seg : list event) (acts : list action)
      (rest : list event) :
      attempt_of a seg -> attempts acts rest -> attempts (a :: acts) (seg ++ rest).

(** A computation that leaves the queue as it is. *)
Definition keeps_queue {W A} (m : M (state W) A) : Prop :=
  forall st, action_queue (m st).2 = action_queue st.

(** What is in hand after [self.action_queue.get()]. *)
Definition in_hand (o : option action) : list action :=
  match o with
  | Some a => [a]
  | None => []
  end.

(** The way of the actions through a computation that starts with the
    actions [h] in hand (taken off the queue, their deferreds not fired) and
    ends with [hok x] in hand when it returns [x], with [hraise] when it
    raises: the deferreds made meanwhile are numbered on from the count, and
    what was in hand or queued, followed by what was put, is what was
    resolved, followed by what is in hand or queued now. *)
Definition flows {W A} (h : list action) (m : M (state W) A)
    (hok : A -> list action) (hraise : list action) : Prop :=
  forall st, exists evs,
    trace (m st).2 = trace st ++ evs /\
    next_deferred (m st).2 = next_deferred st + length (puts evs) /\
    List.map deferred_of (puts evs) = seq (next_deferred st) (length (puts evs)) /\
    h ++ action_queue st ++ puts evs =
      resolved evs ++
      match (m st).1 with Ok x => hok x | Raise _ => hraise end ++
      action_queue (m st).2.

(** What a computation adds to the trace, with its outcome. *)
Definition traces {W A} (m : M (state W) A) (R : outcome A -> list event -> Prop) : Prop :=
  forall st, exists evs, trace (m st).2 = trace st ++ evs /\ R (m st).1 evs.

(** No condition on the queue and the count. *)
Definition always : list action -> nat -> Prop := fun _ _ => True.

(** Neither the closing of the port nor a failed reading of the status. *)
Definition harmless (e : event) : Prop :=
  (forall rc, e <> Close rc) /\ (forall e', e <> GetStatus (Raise e')).

(** A stretch of the polling loop: the port is not closed in it, and a
    reading of the status that raises ends it with that exception. *)
Definition crash_ok {A} (o : outcome A) (evs : list event) : Prop :=
  (forall e, In (GetStatus (Raise e)) evs -> o = Raise e) /\
  (forall rc, ~ In (Close rc) evs).

(** The polling loop as a whole: besides, it returns only after a test of
    the status that failed. *)
Definition poll_end (o : outcome (option unit)) (evs : list event) : Prop :=
  (o = Ok (Some tt) -> In (TestStatus false) evs) /\ crash_ok o evs.

(** The end of [main]: the port is closed at most once, as the last thing,
    after a test of the status that failed, and the outcome of [main] is
    that of the closing; [main] returns only after the port was closed; and
    a reading of the status that raises ends [main] with that exception and
    the port left open. *)
Definition main_end (o : outcome (option unit)) (evs : list event) : Prop :=
  (forall rc, In (Close rc) evs ->
     exists pre,
       evs = pre ++ [Close rc] /\ (forall rc', ~ In (Close rc') pre) /\
       In (TestStatus false) pre /\
       o = match rc with Ok _ => Ok (Some tt) | Raise e => Raise e end) /\
  (o = Ok (Some tt) -> In (Close (Ok tt)) evs) /\
  (forall e, In (GetStatus (Raise e)) evs ->
     o = Raise e /\ forall rc, ~ In (Close rc) evs).

(** [status in ['starting', 'running']] *)
Definition running (s : string) : bool :=
  String.eqb s "starting" || String.eqb s "running".

(** The status of the session after a stretch of events, from the status
    [s] before it. *)
Fixpoint status_after (s : string) (evs : list event) : string :=
  match evs with
  | [] => s
  | SetStatus s' :: rest => status_after s' rest
  | _ :: rest => status_after s rest
  end.

(** Every test of the status in a stretch of events answers by the status
    set last. *)
Fixpoint agrees (s : string) (evs : list event) : Prop :=
  match evs with
  | [] => True
  | SetStatus s' :: rest => agrees s' rest
  | TestStatus b :: rest => b = running s /\ agrees s rest
  | _ :: rest => agrees s rest
  end.

(** [session.data] after a stretch of events, from the data [d] before
    it: the status and the time published last. *)
Fixpoint data_after (d : option (string * Q)) (evs : list event) : option (string * Q) :=
  match evs with
  | [] => d
  | Publish s t :: rest => data_after (Some (s, t)) rest
  | _ :: rest => data_after d rest
  end.

(** A computation whose events account for the status and the data of the
    session. *)
Definition follows {W A} (m : M (state W) A) : Prop :=
  forall st, exists evs,
    trace (m st).2 = trace st ++ evs /\
    status (m st).2 = status_after (status st) evs /\
    agrees (status st) evs /\
    data (m st).2 = data_after (data st) evs.

(** Neither sets nor tests the status, nor publishes. *)
Definition plain (e : event) : bool :=
  match e with
  | SetStatus _ | TestStatus _ | Publish _ _ => false
  | _ => true
  end.

(** [_stop_main] has set the status. *)
Definition is_stop (e : event) : bool :=
  match e with
  | SetStatus s => String.eqb s "stopping"
  | _ => false
  end.

(** The status is set to nothing but 'stopping'. *)
Definition only_stopping (e : event) : Prop :=
  forall s, e = SetStatus s -> s = "stopping".

(** A PCU for running the agent against failures: the port may not open,
    the relays listed in [broken] raise, and so may the reading of the
    status. *)
Record rig : Type := mkRig {
  rig_clock : Q;
  port_opens : bool;
  broken : list nat;
  status_reads : bool
}.

#[global] Instance rig_hardware : Hardware rig := {
  connect := fun _ w => (if port_opens w then Ok tt else Raise OSError, w);
  relay_off := fun i w => (if bool_decide (i ∈ broken w) then Raise OSError else Ok tt, w);
  relay_on := fun i w => (if bool_decide (i ∈ broken w) then Raise OSError else Ok tt, w);
  get_status := fun w => (if status_reads w then Ok "off" else Raise OSError, w);
  close := fun w => (Ok tt, w);
  time := fun w => (rig_clock w,
                    mkRig (rig_clock w + 1)%Q (port_opens w) (broken w) (status_reads w))
}.

Definition on_rig (w : rig) (q : list action) (n : nat) : state rig :=
  mkState q "starting" None n [] w.

End HWPPCUExtra.

(** * Properties *)

Module SupRsyncFacts.
Import SupRsync.

Section Simulation.

Context `{World W}.

Lemma same_refl (st : state W) : same st st.
Proof. split; reflexivity. Qed.

Lemma loop_events_app (t1 t2 : list event) :
  loop_events (t1 ++ t2) = loop_events t1 ++ loop_events t2.
Proof. apply List.filter_app. Qed.

Lemma sim_ret {A} (x : A) : sim (W:=W) (mret x) (mret x).
Proof. intros st1 st2 Hs. split; [reflexivity | exact Hs]. Qed.

Lemma sim_raise {A} (e : exn) : sim (W:=W) (A:=A) (raise e) (raise e).
Proof. intros st1 st2 Hs. split; [reflexivity | exact Hs]. Qed.

Lemma sim_bind {A B} (m1 m2 : M (state W) A) (k1 k2 : A -> M (state W) B) :
  sim m1 m2 -> (forall x, sim (k1 x) (k2 x)) -> sim (m1 ≫= k1) (m2 ≫= k2).
Proof.
  intros Hm Hk st1 st2 Hs.
  destruct (Hm st1 st2 Hs) as [Hr Hs'].
  unfold mbind, M_bind, bind.
  destruct (m1 st1) as [r1 st1'], (m2 st2) as [r2 st2']; simpl in *.
  subst r2. destruct r1 as [x|e].
  - apply Hk, Hs'.
  - split; [reflexivity | exact Hs'].
Qed.

Lemma sim_try {A} (m1 m2 : M (state W) A) (h1 h2 : exn -> option (M (state W) A)) :
  sim m1 m2 ->
  (forall e, match h1 e, h2 e with
             | Some c1, Some c2 => sim c1 c2
             | None, None => True
             | _, _ => False
             end) ->
  sim (try_except m1 h1) (try_except m2 h2).
Proof.
  intros Hm Hh st1 st2 Hs.
  destruct (Hm st1 st2 Hs) as [Hr Hs'].
  unfold try_except.
  destruct (m1 st1) as [r1 st1'], (m2 st2) as [r2 st2']; simpl in *.
  subst r2. destruct r1 as [x|e].
  - split; [reflexivity | exact Hs'].
  - specialize (Hh e). destruct (h1 e), (h2 e); try contradiction.
    + apply Hh, Hs'.
    + split; [reflexivity | exact Hs'].
Qed.

(** Whatever the reactor thread does in its turn, the loop does not see it. *)
Lemma sim_yield (sr1 sr2 : list event -> bool) : sim (W:=W) (yield sr1) (yield sr2).
Proof.
  intros st1 st2 [Hw Ht]. unfold yield.
  destruct (sr1 (trace st1)), (sr2 (trace st2)); simpl;
    (split; [reflexivity | split; simpl; [exact Hw |]]);
    rewrite ?loop_events_app; simpl; rewrite ?app_nil_r; exact Ht.
Qed.

Lemma sim_emit (e : event) : of_loop e = true -> sim (W:=W) (emit e) (emit e).
Proof.
  intros He st1 st2 [Hw Ht]. split; [reflexivity |].
  split; simpl; [exact Hw |]. rewrite !loop_events_app, Ht. reflexivity.
Qed.

Lemma sim_extern {A} (f : W -> outcome A * W) (ev : outcome A -> event) :
  (forall r, of_loop (ev r) = true) -> sim (extern f ev) (extern f ev).
Proof.
  intros He st1 st2 [Hw Ht]. unfold extern. rewrite Hw.
  destruct (f (world st2)) as [r w]. split; [reflexivity |].
  split; simpl; [reflexivity |]. rewrite !loop_events_app, Ht. reflexivity.
Qed.

Lemma sim_call {A} sr1 sr2 (f : W -> outcome A * W) (ev : outcome A -> event) :
  (forall r, of_loop (ev r) = true) -> sim (call sr1 f ev) (call sr2 f ev).
Proof.
  intros He. apply sim_bind; [apply sim_yield | intros ?; apply sim_extern, He].
Qed.

Lemma sim_sleep sr1 sr2 site d : sim (W:=W) (sleep sr1 site d) (sleep sr2 site d).
Proof.
  apply sim_bind; [apply sim_yield | intros ?].
  destruct (sleep_length d); [apply sim_emit; reflexivity | apply sim_raise].
Qed.

Lemma sim_log_error sr1 sr2 path : sim (W:=W) (log_error sr1 path) (log_error sr2 path).
Proof.
  apply sim_bind; [apply sim_yield | intros ?; apply sim_emit; reflexivity].
Qed.

Lemma sim_enter_begin : sim (W:=W) enter_begin enter_begin.
Proof.
  intros st1 st2 [Hw Ht]. unfold enter_begin. rewrite Hw.
  destruct (session_begin (world st2)) as [s w]. split; [reflexivity |].
  split; simpl; [reflexivity |]. rewrite !loop_events_app, Ht. reflexivity.
Qed.

Lemma sim_exit_rollback s : sim (W:=W) (exit_rollback s) (exit_rollback s).
Proof.
  intros st1 st2 [Hw Ht]. split; [reflexivity |].
  split; simpl; [rewrite Hw; reflexivity |].
  rewrite !loop_events_app, Ht. reflexivity.
Qed.

Lemma sim_with_begin {A} sr1 sr2 (b1 b2 : session -> M (state W) A) :
  (forall s, sim (b1 s) (b2 s)) -> sim (with_begin sr1 b1) (with_begin sr2 b2).
Proof.
  intros Hb. unfold with_begin.
  apply sim_bind; [apply sim_yield | intros ?].
  apply sim_bind; [apply sim_enter_begin | intros s].
  apply sim_try.
  - apply sim_bind; [apply Hb | intros r].
    apply sim_bind; [apply sim_call; reflexivity | intros ?; apply sim_ret].
  - intros e. apply sim_bind; [apply sim_exit_rollback | intros ?; apply sim_raise].
Qed.

(** An iteration under one schedule and under another do the same. *)
Lemma sim_iteration sr1 sr2 (a : args) : sim (W:=W) (iteration sr1 a) (iteration sr2 a).
Proof.
  unfold iteration. apply sim_with_begin. intros s.
  apply sim_bind; [apply sim_call; reflexivity | intros file].
  apply sim_bind; [| intros ?; apply sim_sleep].
  destruct file as [f|]; [| apply sim_ret].
  apply sim_try; [apply sim_call; reflexivity |].
  intros e; destruct e; try exact I.
  apply sim_bind; [apply sim_log_error | intros ?; apply sim_sleep].
Qed.

(** *** The ways through one iteration *)

Lemma sleep_length_3 : sleep_length (Finite 3) = Ok 3%Q.
Proof. reflexivity. Qed.

(** The lengths that [time.sleep] accepts, and how it refuses the others. *)
Lemma sleep_length_Ok (x : pyfloat) (d : Q) :
  sleep_length x = Ok d -> x = Finite d /\ (0 <= d)%Q /\ (d <= max_sleep)%Q.
Proof.
  destruct x as [q| |]; simpl; try discriminate.
  destruct (Qle_bool (- max_sleep) q) eqn:Hlo; simpl; [| discriminate].
  destruct (Qle_bool q max_sleep) eqn:Hhi; simpl; [| discriminate].
  destruct (Qle_bool 0 q) eqn:Hz; [| discriminate].
  intros [= <-]. apply Qle_bool_iff in Hhi, Hz. auto.
Qed.

Lemma sleep_length_Raise (x : pyfloat) (e : exn) :
  sleep_length x = Raise e ->
  match x with
  | Finite q =>
      ((- max_sleep <= q)%Q /\ (q < 0)%Q /\ e = ValueError) \/
      (((q < - max_sleep)%Q \/ (max_sleep < q)%Q) /\ e = OverflowError)
  | Infinite _ => e = OverflowError
  | NaN => e = ValueError
  end.
Proof.
  destruct x as [q| |]; simpl; try (intros [= <-]; reflexivity).
  destruct (Qle_bool (- max_sleep) q) eqn:Hlo; simpl.
  - destruct (Qle_bool q max_sleep) eqn:Hhi; simpl.
    + destruct (Qle_bool 0 q) eqn:Hz; [discriminate |].
      intros [= <-]. left. apply Qle_bool_iff in Hlo.
      split; [exact Hlo |]. split; [| reflexivity].
      apply Qnot_le_lt. intros Hle. apply Qle_bool_iff in Hle. congruence.
    + intros [= <-]. right. split; [| reflexivity]. right.
      apply Qnot_le_lt. intros Hle. apply Qle_bool_iff in Hle. congruence.
  - intros [= <-]. right. split; [| reflexivity]. left.
    apply Qnot_le_lt. intros Hle. apply Qle_bool_iff in Hle. congruence.
Qed.

Lemma iteration_never (a : args) (st : state W) :
  exists r new w',
    path a (world st) r new w' /\
    (iteration never a st).1 = r /\
    world (iteration never a st).2 = w' /\
    trace (iteration never a st).2 = trace st ++ new.
Proof.
  unfold iteration, with_begin, call, yield, never, extern, enter_begin,
    exit_rollback, sleep, log_error, emit, try_except, raise,
    mbind, M_bind, bind, mret, M_ret, ret.
  rewrite !sleep_length_3.
  destruct (session_begin (world st)) as [s w1] eqn:Hb; simpl.
  destruct (get_next_file (arg_archive_name a) s (arg_delete_after a)
              (arg_max_copy_attempts a) w1) as [[[f|]|e] w2] eqn:Hg; simpl.
  - destruct (handle_file f s w2) as [[[]|e] w3] eqn:Hh; simpl.
    + destruct (session_commit s w3) as [[[]|e] w4] eqn:Hc; simpl;
        do 3 eexists; (split; [eapply path_handled; eauto |]);
        simpl; rewrite <- ?app_assoc; auto.
    + destruct (decide (e = TimeoutExpired)) as [->|Hne].
      * destruct (sleep_length (arg_timeout_wait a)) as [d|e'] eqn:Hq; simpl.
        -- destruct (session_commit s w3) as [[[]|e] w4] eqn:Hc; simpl;
             do 3 eexists; (split; [eapply path_timeout; eauto |]);
             simpl; rewrite <- ?app_assoc; auto.
        -- do 3 eexists. split; [eapply path_timeout_bad_wait; eauto |].
           simpl; rewrite <- ?app_assoc; auto.
      * do 3 eexists. split; [eapply path_handle_raises; eauto |].
        destruct e; try congruence; simpl; rewrite <- ?app_assoc; auto.
  - destruct (session_commit s w2) as [[[]|e] w3] eqn:Hc; simpl;
      do 3 eexists; (split; [eapply path_idle; eauto |]);
      simpl; rewrite <- ?app_assoc; auto.
  - do 3 eexists. split; [eapply path_select_raises; eauto |].
    simpl; rewrite <- ?app_assoc; auto.
Qed.

Lemma commit_events_loop s rc : loop_events (commit_events s rc) = commit_events s rc.
Proof. destruct rc; reflexivity. Qed.

Lemma path_loop_events a (w : W) r new w' :
  path a w r new w' -> loop_events new = new.
Proof.
  intros Hp; destruct Hp; try reflexivity;
    rewrite loop_events_app, commit_events_loop; reflexivity.
Qed.

(** Under any schedule, an iteration takes one of the ways of [path]. *)
Lemma iteration_path sr (a : args) (st : state W) :
  exists r new w',
    path a (world st) r new w' /\
    (iteration sr a st).1 = r /\
    world (iteration sr a st).2 = w' /\
    loop_events (trace (iteration sr a st).2) = loop_events (trace st) ++ new.
Proof.
  destruct (iteration_never a st) as (r & new & w' & Hp & Hr & Hw & Ht).
  destruct (sim_iteration sr never a st st (same_refl st)) as [Hr' [Hw' Ht']].
  exists r, new, w'. repeat split; try congruence.
  rewrite Ht', Ht, loop_events_app, (path_loop_events _ _ _ _ _ Hp). reflexivity.
Qed.

End Simulation.

(** *** How the trace and the flag move *)

Section Advance.

Context `{World W}.

Lemma no_stop_returns_at_once (evs : list event) :
  existsb is_stop_call evs = false -> returns_at_once evs.
Proof.
  intros Hn i Hi. exfalso.
  assert (Hex : existsb is_stop_call evs = true).
  { apply existsb_exists. exists StopCalled. split; [| reflexivity].
    apply list_elem_of_In. eapply list_elem_of_lookup_2, Hi. }
  congruence.
Qed.

Lemma returns_at_once_app (e1 e2 : list event) :
  returns_at_once e1 -> returns_at_once e2 -> returns_at_once (e1 ++ e2).
Proof.
  intros H1 H2 i Hi.
  destruct (decide (i < length e1)) as [Hlt|Hge].
  - rewrite lookup_app_l in Hi by exact Hlt.
    specialize (H1 i Hi). rewrite lookup_app_l; [exact H1 |].
    eapply lookup_lt_Some, H1.
  - rewrite lookup_app_r in Hi by lia.
    specialize (H2 _ Hi). rewrite lookup_app_r by lia.
    replace (i + 2 - length e1) with (i - length e1 + 2) by lia. exact H2.
Qed.

(** A step of the loop thread: the events it adds hold no call of [_stop]
    and the flag stays. *)
Lemma advance_by (st st' : state W) (evs : list event) :
  trace st' = trace st ++ evs ->
  running st' = running st ->
  existsb is_stop_call evs = false ->
  advance st st'.
Proof.
  intros Ht Hr Hn. exists evs. rewrite Hn.
  repeat split; [exact Ht | exact Hr | apply no_stop_returns_at_once, Hn].
Qed.

Lemma advance_refl (st : state W) : advance st st.
Proof. apply (advance_by st st []); [rewrite app_nil_r | |]; reflexivity. Qed.

Lemma advance_trans (st1 st2 st3 : state W) :
  advance st1 st2 -> advance st2 st3 -> advance st1 st3.
Proof.
  intros (e1 & Ht1 & Hr1 & Ha1) (e2 & Ht2 & Hr2 & Ha2). exists (e1 ++ e2).
  repeat split.
  - rewrite Ht2, Ht1, app_assoc. reflexivity.
  - rewrite existsb_app, Hr2, Hr1.
    destruct (existsb is_stop_call e1), (existsb is_stop_call e2); reflexivity.
  - apply returns_at_once_app; assumption.
Qed.

Lemma advances_ret {A} (x : A) : advances (W:=W) (mret x).
Proof. intros st. apply advance_refl. Qed.

Lemma advances_raise {A} (e : exn) : advances (W:=W) (A:=A) (raise e).
Proof. intros st. apply advance_refl. Qed.

Lemma advances_bind {A B} (m : M (state W) A) (k : A -> M (state W) B) :
  advances m -> (forall x, advances (k x)) -> advances (m ≫= k).
Proof.
  intros Hm Hk st. specialize (Hm st).
  unfold mbind, M_bind, bind. destruct (m st) as [[x|e] st']; simpl in *.
  - eapply advance_trans; [exact Hm | apply Hk].
  - exact Hm.
Qed.

Lemma advances_try {A} (m : M (state W) A) (h : exn -> option (M (state W) A)) :
  advances m ->
  (forall e c, h e = Some c -> advances c) ->
  advances (try_except m h).
Proof.
  intros Hm Hh st. specialize (Hm st).
  unfold try_except. destruct (m st) as [[x|e] st']; simpl in *.
  - exact Hm.
  - destruct (h e) as [c|] eqn:He; [| exact Hm].
    eapply advance_trans; [exact Hm | eapply Hh, He].
Qed.

Lemma advances_yield sr : advances (W:=W) (yield sr).
Proof.
  intros st. unfold yield. destruct (sr (trace st)).
  - exists [StopCalled; SetStatus "stopping"; StopReturned]. simpl.
    rewrite <- !app_assoc. repeat split.
    intros [|[|[|i]]] Hi; try discriminate Hi; reflexivity.
  - apply advance_refl.
Qed.

Lemma advances_emit e : is_stop_call e = false -> advances (W:=W) (emit e).
Proof.
  intros He st. apply (advance_by _ _ [e]); simpl; rewrite ?He; reflexivity.
Qed.

Lemma advances_extern {A} (f : W -> outcome A * W) (ev : outcome A -> event) :
  (forall r, is_stop_call (ev r) = false) -> advances (extern f ev).
Proof.
  intros He st. unfold extern. destruct (f (world st)) as [r w].
  apply (advance_by _ _ [ev r]); simpl; rewrite ?He; reflexivity.
Qed.

Lemma advances_call {A} sr (f : W -> outcome A * W) (ev : outcome A -> event) :
  (forall r, is_stop_call (ev r) = false) -> advances (call sr f ev).
Proof.
  intros He. apply advances_bind; [apply advances_yield |].
  intros ?; apply advances_extern, He.
Qed.

Lemma advances_sleep sr site d : advances (W:=W) (sleep sr site d).
Proof.
  apply advances_bind; [apply advances_yield | intros ?].
  destruct (sleep_length d); [apply advances_emit; reflexivity | apply advances_raise].
Qed.

Lemma advances_log_error sr path : advances (W:=W) (log_error sr path).
Proof.
  apply advances_bind; [apply advances_yield |].
  intros ?; apply advances_emit; reflexivity.
Qed.

Lemma advances_enter_begin : advances (W:=W) enter_begin.
Proof.
  intros st. unfold enter_begin. destruct (session_begin (world st)) as [s w].
  apply (advance_by _ _ [Begin s]); reflexivity.
Qed.

Lemma advances_exit_rollback s : advances (W:=W) (exit_rollback s).
Proof. intros st. apply (advance_by _ _ [Rollback s]); reflexivity. Qed.

(** The body of the with block, as [iteration] gives it to [with_begin]. *)
Lemma advances_body sr (a : args) (s : session) :
  advances (W:=W)
    (file ← call sr (get_next_file (arg_archive_name a) s
                       (arg_delete_after a) (arg_max_copy_attempts a))
                 (GetNextFile s);
     match file with
     | Some f =>
         try_except
           (call sr (handle_file f s) (HandleFile f s))
           (fun e => match e with
                     | TimeoutExpired =>
                         Some (log_error sr (local_path f) ;;
                               sleep sr Cooldown (arg_timeout_wait a))
                     | _ => None
                     end)
     | None => mret tt
     end ;;
     sleep sr Tick (Finite 3)).
Proof.
  apply advances_bind; [apply advances_call; reflexivity | intros file].
  apply advances_bind; [| intros ?; apply advances_sleep].
  destruct file as [f|]; [| apply advances_ret].
  apply advances_try; [apply advances_call; reflexivity |].
  intros e c He. destruct e; try discriminate. injection He as <-.
  apply advances_bind; [apply advances_log_error | intros ?; apply advances_sleep].
Qed.

Lemma advances_with_begin {A} sr (body : session -> M (state W) A) :
  (forall s, advances (body s)) -> advances (with_begin sr body).
Proof.
  intros Hb. unfold with_begin.
  apply advances_bind; [apply advances_yield | intros ?].
  apply advances_bind; [apply advances_enter_begin | intros s].
  apply advances_try.
  - apply advances_bind; [apply Hb | intros r].
    apply advances_bind; [apply advances_call; reflexivity |].
    intros ?; apply advances_ret.
  - intros e c He. injection He as <-.
    apply advances_bind; [apply advances_exit_rollback |].
    intros ?; apply advances_raise.
Qed.

Lemma yield_ok sr (st : state W) : (yield sr st).1 = Ok tt.
Proof. unfold yield. destruct (sr (trace st)); reflexivity. Qed.

(** The last event of a with block is the one that closes its transaction;
    whatever else happened in it, calls of [_stop] included, lies before. *)
Lemma with_begin_closes {A} sr (body : session -> M (state W) A) (st : state W) :
  (forall s, advances (body s)) ->
  exists stx c s,
    advance st stx /\
    trace (with_begin sr body st).2 = trace stx ++ [c] /\
    running (with_begin sr body st).2 = running stx /\
    closes s c = true.
Proof.
  intros Hb. unfold with_begin, mbind, M_bind, bind, try_except.
  pose proof (advances_yield sr st) as H0. pose proof (yield_ok sr st) as Hy.
  destruct (yield sr st) as [r0 st0]; simpl in *. subst r0.
  pose proof (advances_enter_begin st0) as H1. unfold enter_begin in *.
  destruct (session_begin (world st0)) as [s w1]; simpl in *.
  set (st1 := mkState (running st0) (status st0) (trace st0 ++ [Begin s]) w1) in *.
  pose proof (Hb s st1) as H2.
  destruct (body s st1) as [[x|e] st2]; simpl in *.
  - pose proof (advances_yield sr st2) as H3. pose proof (yield_ok sr st2) as Hy2.
    unfold call, mbind, M_bind, bind.
    destruct (yield sr st2) as [r3 st3]; simpl in *. subst r3.
    unfold extern. destruct (session_commit s (world st3)) as [[[]|e] w4]; simpl.
    + exists st3, (Commit s (Ok tt)), s. simpl. rewrite Nat.eqb_refl.
      repeat split; auto.
      eapply advance_trans; [| exact H3].
      eapply advance_trans; [| exact H2].
      eapply advance_trans; [exact H0 | exact H1].
    + exists (mkState (running st3) (status st3)
                (trace st3 ++ [Commit s (Raise e)]) w4), (Rollback s), s. simpl. rewrite Nat.eqb_refl.
      repeat split; auto.
      eapply advance_trans; [| apply (advance_by st3 _ [Commit s (Raise e)]);
                                simpl; reflexivity].
      eapply advance_trans; [| exact H3].
      eapply advance_trans; [| exact H2].
      eapply advance_trans; [exact H0 | exact H1].
  - exists st2, (Rollback s), s. simpl. rewrite Nat.eqb_refl.
    repeat split; auto.
    eapply advance_trans; [| exact H2].
    eapply advance_trans; [exact H0 | exact H1].
Qed.

Lemma advances_iteration sr (a : args) : advances (W:=W) (iteration sr a).
Proof. apply advances_with_begin. intros s. apply advances_body. Qed.

Lemma advances_read_running : advances (W:=W) read_running.
Proof.
  intros st. apply (advance_by _ _ [TestRunning (running st)]); reflexivity.
Qed.

Lemma advances_test_running sr : advances (W:=W) (test_running sr).
Proof.
  apply advances_bind; [apply advances_yield |].
  intros ?; apply advances_read_running.
Qed.

Lemma advances_run_loop sr (a : args) fuel : advances (W:=W) (run_loop sr a fuel).
Proof.
  induction fuel as [|n IH]; [apply advances_ret |].
  simpl. apply advances_bind; [apply advances_test_running | intros b].
  destruct b; [| apply advances_ret].
  apply advances_bind; [apply advances_iteration | intros ?; exact IH].
Qed.

End Advance.

(** *** The loop as a sequence of iterations *)

Ltac same_calls :=
  repeat match goal with
         | H1 : ?f = (_, _), H2 : ?f = (_, _) |- _ =>
             rewrite H1 in H2; inversion H2; subst; clear H2
         | H1 : sleep_length ?d = _, H2 : sleep_length ?d = _ |- _ =>
             rewrite H1 in H2; inversion H2; subst; clear H2
         end.

Section Iterations.

Context `{World W}.

Lemma test_running_spec sr (st : state W) :
  (test_running sr st).1 = Ok (running (test_running sr st).2) /\
  world (test_running sr st).2 = world st /\
  loop_events (trace (test_running sr st).2) =
    loop_events (trace st) ++ [TestRunning (running (test_running sr st).2)].
Proof.
  unfold test_running, yield, read_running, mbind, M_bind, bind.
  destruct (sr (trace st)); simpl; repeat split;
    rewrite ?loop_events_app; simpl; rewrite ?app_nil_r; reflexivity.
Qed.

Lemma iterations_mono (P Q : list event -> Prop) evs :
  (forall e, P e -> Q e) -> iterations P evs -> iterations Q evs.
Proof.
  intros HPQ Hi. induction Hi; constructor; auto.
Qed.

Lemma run_loop_iterations sr (a : args) (fuel : nat) (st : state W) :
  exists new,
    loop_events (trace (run_loop sr a fuel st).2) = loop_events (trace st) ++ new /\
    iterations (fun evs => exists w r w', path a w r evs w') new.
Proof.
  revert st. induction fuel as [|n IH]; intros st.
  - exists []. rewrite app_nil_r. split; [reflexivity | constructor].
  - simpl. unfold mbind at 1, M_bind, bind.
    destruct (test_running_spec sr st) as (Hr & _ & Ht).
    destruct (test_running sr st) as [rb st1]; simpl in *. subst rb.
    destruct (running st1).
    + unfold mbind, M_bind, bind.
      destruct (iteration_path sr a st1) as (r & evs & w' & Hp & Hr & _ & Hte).
      destruct (iteration sr a st1) as [r' st2]; simpl in *. subst r'.
      destruct r as [[]|e].
      * destruct (IH st2) as (rest & Htr & Hit).
        exists (TestRunning true :: evs ++ rest). split.
        -- rewrite Htr, Hte, Ht, <- !app_assoc. reflexivity.
        -- constructor; eauto.
      * exists (TestRunning true :: evs ++ []). split.
        -- simpl. rewrite Hte, Ht, app_nil_r, <- app_assoc. reflexivity.
        -- constructor; [eauto | constructor].
    + exists [TestRunning false]. split; [exact Ht | constructor].
Qed.

Lemma commit_events_close s rc :
  exists body c, commit_events s rc = body ++ [c] /\
    forallb (on_session s) body = true /\ closes s c = true.
Proof.
  destruct rc as [[]|e].
  - exists [], (Commit s (Ok tt)). simpl. rewrite Nat.eqb_refl. auto.
  - exists [Commit s (Raise e)], (Rollback s). simpl. rewrite Nat.eqb_refl. auto.
Qed.

Lemma path_transaction (a : args) (w : W) r evs w' :
  path a w r evs w' -> exists s, transaction s evs.
Proof.
  intros Hp. destruct Hp as [s ? ? ? ? ?|s ? ? rc ? ? ? ?|s ? ? ? ? rc ? ? ? ? ?
                           |s ? ? ? ? ? rc ? ? ? ? ? ?|s ? ? ? ? ? ? ? ? ?
                           |s ? ? ? ? ? ? ? ? ?];
    exists s.
  1: apply (transaction_intro s _ [] (Rollback s)); simpl; rewrite ?Nat.eqb_refl; auto.
  4: apply (transaction_intro s _ [HandleFile _ s _; LogError _] (Rollback s));
       simpl; rewrite ?Nat.eqb_refl; auto.
  4: apply (transaction_intro s _ [HandleFile _ s _] (Rollback s));
       simpl; rewrite ?Nat.eqb_refl; auto.
  all: destruct (commit_events_close s rc) as (body & c & -> & Hb & Hc).
  - apply (transaction_intro s _ (Sleep Tick 3 :: body) c); simpl; auto.
  - apply (transaction_intro s _ (HandleFile _ s _ :: Sleep Tick 3 :: body) c);
      simpl; rewrite ?Nat.eqb_refl; auto.
  - apply (transaction_intro s _
             (HandleFile _ s _ :: LogError _ :: Sleep Cooldown _ :: Sleep Tick 3 :: body) c);
      simpl; rewrite ?Nat.eqb_refl; auto.
Qed.

(** The first unrolling of the loop when the flag is set and the reactor
    thread does not take its turn before the test. *)
Lemma run_loop_first sr (a : args) (fuel : nat) (st : state W) :
  running st = true -> sr (trace st) = false ->
  run_loop sr a (S fuel) st =
    (iteration sr a ;; run_loop sr a fuel)
      (mkState true (status st) (trace st ++ [TestRunning true]) (world st)).
Proof.
  intros Hr Hs. simpl.
  unfold mbind at 1, M_bind, bind, test_running, mbind at 1, M_bind, bind, yield,
    read_running.
  rewrite Hs, Hr. reflexivity.
Qed.

(** An exception that leaves the iteration leaves the loop. *)
Lemma run_loop_raises sr (a : args) (fuel : nat) (st : state W) e evs w' :
  running st = true -> sr (trace st) = false ->
  (forall r new w1, path a (world st) r new w1 -> r = Raise e /\ new = evs /\ w1 = w') ->
  (run_loop sr a (S fuel) st).1 = Raise e /\
  loop_events (trace (run_loop sr a (S fuel) st).2) =
    loop_events (trace st) ++ TestRunning true :: evs /\
  world (run_loop sr a (S fuel) st).2 = w'.
Proof.
  intros Hr Hs Hp. rewrite run_loop_first by assumption.
  set (st1 := mkState true (status st) (trace st ++ [TestRunning true]) (world st)).
  destruct (iteration_path sr a st1) as (r & new & w1 & Hp1 & Hr1 & Hw1 & Ht1).
  destruct (Hp _ _ _ Hp1) as (-> & -> & ->).
  unfold mbind, M_bind, bind.
  destruct (iteration sr a st1) as [r' st2]; simpl in *. subst r'. simpl.
  repeat split; [| exact Hw1].
  rewrite Ht1, loop_events_app, <- app_assoc. reflexivity.
Qed.

(** From a given world there is one way through the iteration. *)
Lemma path_deterministic (a : args) (w : W) r1 e1 w1 r2 e2 w2 :
  path a w r1 e1 w1 -> path a w r2 e2 w2 -> r1 = r2 /\ e1 = e2 /\ w1 = w2.
Proof.
  intros H1 H2.
  inversion H1; subst; inversion H2; subst; same_calls; auto; congruence.
Qed.

Lemma on_session_no_test s body :
  forallb (on_session s) body = true -> existsb tests_flag body = false.
Proof.
  induction body as [|e body IH]; [reflexivity |]. simpl.
  intros [He Hb]%andb_prop. rewrite (IH Hb), orb_false_r.
  destruct e; try reflexivity; discriminate He.
Qed.

Lemma transaction_no_test s evs :
  transaction s evs -> existsb tests_flag evs = false.
Proof.
  intros [r body c Hb Hc]. simpl. rewrite existsb_app, (on_session_no_test _ _ Hb).
  simpl. destruct c; try reflexivity; discriminate Hc.
Qed.

End Iterations.


(** *** Two instances under the store's lock *)

Import SupRsyncInstances.

Lemma tx_from_app (b : bool) (evs1 evs2 : list event) :
  tx_from b (evs1 ++ evs2) = tx_from (tx_from b evs1) evs2.
Proof. apply fold_left_app. Qed.

Lemma of_instance_app (i : instance) (m1 m2 : list (instance * event)) :
  of_instance i (m1 ++ m2) = of_instance i m1 ++ of_instance i m2.
Proof. unfold of_instance. rewrite List.filter_app, map_app. reflexivity. Qed.

Lemma of_instance_own (i : instance) (e : event) (m : list (instance * event)) :
  of_instance i ((i, e) :: m) = e :: of_instance i m.
Proof. unfold of_instance. simpl. rewrite Bool.eqb_reflx. reflexivity. Qed.

Lemma of_instance_other (i : instance) (e : event) (m : list (instance * event)) :
  of_instance (negb i) ((i, e) :: m) = of_instance (negb i) m.
Proof. unfold of_instance. simpl. destruct i; reflexivity. Qed.

(** Events that neither begin nor close a transaction leave it as it is. *)
Lemma tx_from_keeps (b : bool) (evs : list event) :
  forallb (fun e => negb (is_begin e) && negb (is_close e)) evs = true ->
  tx_from b evs = b.
Proof.
  induction evs as [|e evs IH]; simpl; [reflexivity |].
  intros [He Hevs]%andb_prop. unfold tx_from in *. simpl.
  replace (tx_step b e) with b; [exact (IH Hevs) |].
  destruct e as [| | | | | | | | | s0 [|] | | |]; simpl in *;
    try reflexivity; discriminate He.
Qed.

Lemma on_session_keeps (s : session) (e : event) :
  on_session s e = true -> negb (is_begin e) && negb (is_close e) = true.
Proof. destruct e as [| | | | | | | | | s0 [|] | | |]; simpl; auto; discriminate. Qed.

(** A transaction that was open and is not any more has been closed. *)
Lemma tx_from_closed (evs : list event) :
  tx_from true evs = false -> exists c, In c evs /\ is_close c = true.
Proof.
  induction evs as [|e evs IH] using rev_ind; [discriminate |].
  rewrite tx_from_app. simpl. intros Hf.
  destruct (is_close e) eqn:Hc.
  - exists e. split; [apply in_or_app; right; left; reflexivity | exact Hc].
  - destruct (tx_from true evs) eqn:Ht.
    + destruct e as [| | | | | | | | | s0 [|] | | |]; simpl in *; discriminate.
    + destruct (IH eq_refl) as (c & Hin & Hcl).
      exists c. split; [apply in_or_app; left; exact Hin | exact Hcl].
Qed.

(** After one whole transaction none is open. *)
Lemma transaction_closed (s : session) (evs : list event) (b : bool) :
  transaction s evs -> tx_from b evs = false.
Proof.
  intros [r body c Hb Hc].
  change (Begin s :: GetNextFile s r :: body ++ [c])
    with ([Begin s; GetNextFile s r] ++ body ++ [c]).
  rewrite !tx_from_app. simpl.
  destruct c as [| | | | | | | | | s0 [|] | | |]; simpl in *; try discriminate Hc;
    reflexivity.
Qed.

(** In the loop, a record is selected and handled with the transaction open. *)
Lemma transaction_acts_inside (s : session) (evs p q : list event) (e : event) (b : bool) :
  transaction s evs -> evs = p ++ e :: q -> acts e = true -> tx_from b p = true.
Proof.
  intros [r body c Hb Hc] Heq Ha.
  destruct p as [|e0 p]; simpl in Heq.
  { injection Heq as <- _. discriminate Ha. }
  injection Heq as <- Heq.
  change (Begin s :: p) with ([Begin s] ++ p). rewrite tx_from_app. simpl.
  apply tx_from_keeps.
  assert (Hall : forallb (fun e => negb (is_begin e) && negb (is_close e))
                   (GetNextFile s r :: body) = true).
  { simpl. apply forallb_forall. intros x Hx.
    apply on_session_keeps with s. revert x Hx. apply forallb_forall, Hb. }
  change (GetNextFile s r :: body ++ [c]) with ((GetNextFile s r :: body) ++ [c]) in Heq.
  apply app_eq_app in Heq as [l [[Heq1 Heq2] | [Heq1 Heq2]]].
  - rewrite Heq1, forallb_app in Hall. apply andb_prop in Hall as [Hall _]. exact Hall.
  - destruct l as [|x l]; simpl in Heq2.
    + injection Heq2 as -> _.
      destruct e as [| | | | | | | | | s0 [|] | | |]; simpl in *; discriminate.
    + injection Heq2 as _ Heq2. destruct l; discriminate Heq2.
Qed.

Lemma iterations_act_inside (new p q : list event) (e : event) :
  iterations (fun evs => exists s, transaction s evs) new ->
  new = p ++ e :: q -> acts e = true -> in_transaction p = true.
Proof.
  intros Hit. revert p. induction Hit as [| |evs rest [s Htx] Hrest IH]; intros p Heq Ha.
  - destruct p; discriminate Heq.
  - destruct p as [|x [|y p]]; try discriminate Heq.
    injection Heq as <- _. discriminate Ha.
  - destruct p as [|x p]; simpl in Heq.
    { injection Heq as <- _. discriminate Ha. }
    injection Heq as <- Heq.
    unfold in_transaction. change (TestRunning true :: p) with ([TestRunning true] ++ p).
    rewrite tx_from_app. simpl.
    apply app_eq_app in Heq as [l [[Heq1 Heq2] | [Heq1 Heq2]]].
    + destruct l as [|x l]; simpl in Heq2.
      * rewrite app_nil_r in Heq1. subst p. rewrite (transaction_closed s evs false Htx).
        symmetry in Heq2. exact (IH [] Heq2 Ha).
      * injection Heq2 as <- Heq2.
        eapply transaction_acts_inside; [exact Htx | exact Heq1 | exact Ha].
    + subst p. rewrite tx_from_app, (transaction_closed s evs false Htx).
      apply (IH l Heq2 Ha).
Qed.

(** Under the lock the two instances never have a transaction open at the
    same time. *)
Lemma exclusive_mutex (m pre : list (instance * event)) :
  exclusive pre m = true ->
  in_transaction (of_instance true pre) && in_transaction (of_instance false pre) = false ->
  forall p q, m = p ++ q ->
    in_transaction (of_instance true (pre ++ p)) &&
    in_transaction (of_instance false (pre ++ p)) = false.
Proof.
  revert pre. induction m as [|[i e] m IH]; intros pre Hex Hpre p q Heq.
  - destruct p; [| discriminate Heq]. rewrite app_nil_r. exact Hpre.
  - destruct p as [|x p]; [rewrite app_nil_r; exact Hpre |].
    simpl in Heq. injection Heq as <- Heq.
    simpl in Hex. apply andb_prop in Hex as [Hb Hex].
    replace (pre ++ (i, e) :: p) with ((pre ++ [(i, e)]) ++ p)
      by (rewrite <- app_assoc; reflexivity).
    apply (IH _ Hex) with (q := q); [| exact Heq]. clear IH Hex Heq.
    unfold in_transaction in *.
    destruct i; simpl negb in Hb; rewrite !of_instance_app;
      [rewrite (of_instance_own true), (of_instance_other true)
      |rewrite (of_instance_own false), (of_instance_other false)];
      simpl; rewrite ?app_nil_r, tx_from_app; simpl;
      destruct (tx_from false (of_instance true pre)),
               (tx_from false (of_instance false pre));
      try discriminate Hpre;
      destruct e as [| | | | | | | | | s0 [|] | | |]; simpl in *;
      try reflexivity; discriminate Hb.
Qed.

(** *** The claims about [SupRsync.run] and [SupRsync._stop] *)

Section Claims.

Context `{World W}.

(** C1. In every iteration of the run loop the selection of the next file
    and the handling of that file happen inside one and the same store
    transaction: over any run of the loop, under any schedule of [_stop],
    the events of the loop are a sequence of iterations, each of which begins
    a transaction [s], calls [get_next_file] on [s], calls [handle_file] (if
    at all) on [s], and only as its last event closes [s].

    So two engine instances never act on a record at the same time.  Let
    [m] be what the loops of two instances do, in the order in which it
    happens, whatever their arguments, their schedules of [_stop] and the
    answers the store gives to each, the store granting a transaction to one
    instance only while the other has none open.  Then whenever an instance
    selects or handles a record it has a transaction open and the other
    instance has not; and between a selection or handling by one instance
    and a later one by the other, the first has closed its transaction. *)
Theorem C1_select_and_handle_in_one_transaction
    sr (a : args) (fuel : nat) (st : state W) :
  (exists new,
      loop_events (trace (run_loop sr a fuel st).2) = loop_events (trace st) ++ new /\
      iterations (fun evs => exists s, transaction s evs) new) /\
  (forall sr' (a' : args) (fuel' : nat) (st' : state W) (m : list (instance * event)),
      loop_events (trace (run_loop sr a fuel st).2) =
        loop_events (trace st) ++ of_instance true m ->
      loop_events (trace (run_loop sr' a' fuel' st').2) =
        loop_events (trace st') ++ of_instance false m ->
      lock_granted m = true ->
      (forall pre i e post,
          m = pre ++ (i, e) :: post -> acts e = true ->
          in_transaction (of_instance i pre) = true /\
          in_transaction (of_instance (negb i) pre) = false) /\
      (forall pre i e1 mid e2 post,
          m = pre ++ (i, e1) :: mid ++ (negb i, e2) :: post ->
          acts e1 = true -> acts e2 = true ->
          exists c s, In (i, c) mid /\ closes s c = true)).
Proof.
  assert (Hshape : forall sr0 a0 fuel0 (st0 : state W) new,
            loop_events (trace (run_loop sr0 a0 fuel0 st0).2) =
              loop_events (trace st0) ++ new ->
            iterations (fun evs => exists s, transaction s evs) new).
  { intros sr0 a0 fuel0 st0 new Hnew.
    destruct (run_loop_iterations sr0 a0 fuel0 st0) as (new' & Ht & Hit).
    rewrite Hnew in Ht. apply app_inv_head in Ht. subst new'.
    eapply iterations_mono; [| exact Hit].
    intros evs (w & r & w' & Hp). eapply path_transaction, Hp. }
  split.
  { destruct (run_loop_iterations sr a fuel st) as (new & Ht & _).
    exists new. split; [exact Ht | exact (Hshape _ _ _ _ _ Ht)]. }
  intros sr' a' fuel' st' m H1 H2 Hlock.
  apply Hshape in H1, H2.
  assert (Hin : forall pre i e post,
            m = pre ++ (i, e) :: post -> acts e = true ->
            in_transaction (of_instance i pre) = true /\
            in_transaction (of_instance (negb i) pre) = false).
  { intros pre i e post Hm Ha.
    assert (Hown : in_transaction (of_instance i pre) = true).
    { destruct i.
      - apply (iterations_act_inside _ _ (of_instance true post) e H1); [| exact Ha].
        rewrite Hm, of_instance_app, of_instance_own. reflexivity.
      - apply (iterations_act_inside _ _ (of_instance false post) e H2); [| exact Ha].
        rewrite Hm, of_instance_app, of_instance_own. reflexivity. }
    split; [exact Hown |].
    pose proof (exclusive_mutex m [] Hlock eq_refl pre ((i, e) :: post) Hm) as Hmx.
    simpl in Hmx. destruct i; simpl; rewrite Hown in Hmx; simpl in Hmx;
      [exact Hmx | rewrite andb_true_r in Hmx; exact Hmx]. }
  split; [exact Hin |].
  intros pre i e1 mid e2 post Hm Ha1 Ha2.
  destruct (Hin pre i e1 (mid ++ (negb i, e2) :: post) Hm Ha1) as [Hi _].
  assert (Hm' : m = (pre ++ (i, e1) :: mid) ++ (negb i, e2) :: post)
    by (rewrite <- app_assoc; exact Hm).
  destruct (Hin _ (negb i) e2 post Hm' Ha2) as [_ Hj].
  rewrite Bool.negb_involutive, of_instance_app, of_instance_own in Hj.
  unfold in_transaction in Hi, Hj.
  change (e1 :: of_instance i mid) with ([e1] ++ of_instance i mid) in Hj.
  rewrite !tx_from_app, Hi in Hj.
  assert (He1 : tx_from true [e1] = true)
    by (destruct e1; simpl in *; try discriminate Ha1; reflexivity).
  rewrite He1 in Hj.
  destruct (tx_from_closed _ Hj) as (c & Hc & Hcl).
  unfold of_instance in Hc. apply in_map_iff in Hc as ([i' c'] & Hc' & Hf).
  simpl in Hc'. subst c'. apply filter_In in Hf as [Hf Hi'].
  simpl in Hi'. apply Bool.eqb_prop in Hi'. subst i'.
  destruct c as [| | | | | | | | | s0 [u|] | s0 | |]; simpl in Hcl; try discriminate Hcl.
  - exists (Commit s0 (Ok u)), s0. split; [exact Hf |]. simpl. apply Nat.eqb_refl.
  - exists (Rollback s0), s0. split; [exact Hf |]. simpl. apply Nat.eqb_refl.
Qed.

(** C2, as the code has it.  An exception raised by [get_next_file], by
    [handle_file] when it is not subprocess.TimeoutExpired, or by the commit
    that ends the with block, is not caught by [run] (a store error such as
    OperationalError included): the with block rolls the transaction back,
    the error is not logged, the exception leaves the loop whatever the
    number of unrollings, and no further iteration runs.  The one line that
    [run] logs is that of a copy that timed out; it stands before the commit,
    so it is in the trace also when that commit then fails.  The five cases
    are all the ways in which an iteration meets such an exception. *)
Theorem C2_store_error_leaves_run
    sr (a : args) (fuel : nat) (st : state W) s w1 :
  running st = true ->
  sr (trace st) = false ->
  session_begin (world st) = (s, w1) ->
  let ends_with e evs w' :=
    (run_loop sr a (S fuel) st).1 = Raise e /\
    loop_events (trace (run_loop sr a (S fuel) st).2) =
      loop_events (trace st) ++ TestRunning true :: Begin s :: evs /\
    world (run_loop sr a (S fuel) st).2 = w' in
  (forall e w2,
      select a s w1 = (Raise e, w2) ->
      ends_with e [GetNextFile s (Raise e); Rollback s] (session_rollback s w2)) /\
  (forall f w2 e w3,
      select a s w1 = (Ok (Some f), w2) ->
      handle_file f s w2 = (Raise e, w3) ->
      e <> TimeoutExpired ->
      ends_with e
        [GetNextFile s (Ok (Some f)); HandleFile f s (Raise e); Rollback s]
        (session_rollback s w3)) /\
  (forall f w2 w3 e w4,
      select a s w1 = (Ok (Some f), w2) ->
      handle_file f s w2 = (Ok tt, w3) ->
      session_commit s w3 = (Raise e, w4) ->
      ends_with e
        [GetNextFile s (Ok (Some f)); HandleFile f s (Ok tt); Sleep Tick 3;
         Commit s (Raise e); Rollback s]
        (session_rollback s w4)) /\
  (forall w2 e w3,
      select a s w1 = (Ok None, w2) ->
      session_commit s w2 = (Raise e, w3) ->
      ends_with e
        [GetNextFile s (Ok None); Sleep Tick 3; Commit s (Raise e); Rollback s]
        (session_rollback s w3)) /\
  (forall f w2 w3 d e w4,
      select a s w1 = (Ok (Some f), w2) ->
      handle_file f s w2 = (Raise TimeoutExpired, w3) ->
      sleep_length (arg_timeout_wait a) = Ok d ->
      session_commit s w3 = (Raise e, w4) ->
      ends_with e
        [GetNextFile s (Ok (Some f)); HandleFile f s (Raise TimeoutExpired);
         LogError (local_path f); Sleep Cooldown d; Sleep Tick 3;
         Commit s (Raise e); Rollback s]
        (session_rollback s w4)).
Proof.
  intros Hr Hs Hb ends_with. unfold ends_with.
  split; [| split; [| split; [| split]]]; intros; apply run_loop_raises; try assumption;
    intros r new w' Hp; inversion Hp; subst; same_calls; auto; congruence.
Qed.

(** C4, as the code has it.  [time.sleep(3)] stands inside the with block:
    in every iteration that returns, the fixed sleep is taken while the
    transaction is still open, and the commit is the last thing the
    iteration does, right after the sleep has returned. *)
Theorem C4_commit_follows_the_fixed_sleep
    sr (a : args) (st st' : state W) :
  iteration sr a st = (Ok tt, st') ->
  exists s body,
    loop_events (trace st') =
      loop_events (trace st) ++ Begin s :: body ++ [Sleep Tick 3; Commit s (Ok tt)] /\
    forallb (on_session s) body = true.
Proof.
  intros Hi.
  destruct (iteration_path sr a st) as (r & new & w' & Hp & Hr & _ & Ht).
  rewrite Hi in Hr, Ht; simpl in *. subst r.
  inversion Hp; subst.
  - exists s, [GetNextFile s (Ok None)]. split; [exact Ht |].
    simpl. rewrite Nat.eqb_refl. reflexivity.
  - exists s, [GetNextFile s (Ok (Some f)); HandleFile f s (Ok tt)].
    split; [exact Ht |]. simpl. rewrite Nat.eqb_refl. reflexivity.
  - exists s, [GetNextFile s (Ok (Some f)); HandleFile f s (Raise TimeoutExpired);
               LogError (local_path f); Sleep Cooldown d].
    split; [exact Ht |]. simpl. rewrite Nat.eqb_refl. reflexivity.
Qed.

(** C3, as the code has it.  [_stop] does not wait for the loop: in
    whatever state it is called, an iteration in flight or not, it clears
    [self.running], sets the status of the session to "stopping" and
    returns, having touched neither the store nor any event of the loop. *)
Theorem C3_stop_returns_at_once (st : state W) :
  _stop st =
    (Ok tt, mkState false "stopping"
              (trace st ++ [StopCalled; SetStatus "stopping"; StopReturned])
              (world st)) /\
  loop_events (trace (_stop st).2) = loop_events (trace st).
Proof.
  assert (Hs : _stop st =
            (Ok tt, mkState false "stopping"
                      (trace st ++ [StopCalled; SetStatus "stopping"; StopReturned])
                      (world st))).
  { unfold _stop, emit, set_running, set_status, mbind, M_bind, bind. simpl.
    rewrite <- !app_assoc. reflexivity. }
  split; [exact Hs |].
  rewrite Hs. simpl. rewrite loop_events_app. simpl. apply app_nil_r.
Qed.

(** C6. A stop request takes effect only at an iteration boundary.  Over any
    run of the loop every iteration is preceded by one test of
    [self.running] and holds none itself, the selection coming right after
    the transaction is begun.  A request that arrives within an iteration
    does not interrupt it: whatever the schedule of [_stop], the iteration
    answers the same, leaves the same world and makes the same calls as when
    no request arrives.  And when a request has arrived within an iteration
    that returned, the next test of the flag ends the loop. *)
Theorem C6_stop_honoured_at_iteration_boundary sr (a : args) :
  (forall fuel (st : state W),
      exists new,
        loop_events (trace (run_loop sr a fuel st).2) = loop_events (trace st) ++ new /\
        iterations (fun evs =>
                      (exists s r rest, evs = Begin s :: GetNextFile s r :: rest) /\
                      existsb tests_flag evs = false) new) /\
  (forall st : state W,
      (iteration sr a st).1 = (iteration never a st).1 /\
      world (iteration sr a st).2 = world (iteration never a st).2 /\
      loop_events (trace (iteration sr a st).2) =
        loop_events (trace (iteration never a st).2)) /\
  (forall (st st' : state W) fuel,
      iteration sr a st = (Ok tt, st') ->
      In StopCalled (drop (length (trace st)) (trace st')) ->
      (run_loop sr a (S fuel) st').1 = Ok (Some tt) /\
      loop_events (trace (run_loop sr a (S fuel) st').2) =
        loop_events (trace st') ++ [TestRunning false]).
Proof.
  split; [| split].
  - intros fuel st.
    destruct (run_loop_iterations sr a fuel st) as (new & Ht & Hit).
    exists new. split; [exact Ht |].
    eapply iterations_mono; [| exact Hit].
    intros evs (w & r & w' & Hp).
    destruct (path_transaction _ _ _ _ _ Hp) as [s Htx].
    split; [| eapply transaction_no_test, Htx].
    destruct Htx as [r' body c _ _]. eauto.
  - intros st. apply (sim_iteration sr never a st st (same_refl st)).
  - intros st st' fuel Hi Hin.
    pose proof (advances_iteration sr a st) as (evs & Ht & Hr & _).
    rewrite Hi in Ht, Hr; simpl in Ht, Hr.
    rewrite Ht, drop_app_length in Hin.
    assert (Hex : existsb is_stop_call evs = true).
    { apply existsb_exists. exists StopCalled. split; [exact Hin | reflexivity]. }
    rewrite Hex in Hr.
    pose proof (advances_test_running sr st') as (ev1 & _ & Hr1 & _).
    rewrite Hr in Hr1.
    assert (Hf : running (test_running sr st').2 = false)
      by (rewrite Hr1; destruct (existsb is_stop_call ev1); reflexivity).
    destruct (test_running_spec sr st') as (Hres & _ & Htr).
    simpl. unfold mbind at 1 3, M_bind, bind.
    destruct (test_running sr st') as [rb st1]; simpl in *.
    subst rb. rewrite Hf in *. simpl. split; [reflexivity | exact Htr].
Qed.

End Claims.

(** Two instances, each making one pass over a store with one file, the
    second after the first: when the second selects its file, it has a
    transaction open and the first has none. *)
Lemma C1_witness :
  in_transaction (of_instance false (firstn 8 one_after_the_other)) = true /\
  in_transaction (of_instance true (firstn 8 one_after_the_other)) = false.
Proof.
  refine (proj1 (proj2 (C1_select_and_handle_in_one_transaction never args0 1 one_file)
                   never args0 1 one_file one_after_the_other _ _ _)
            (firstn 8 one_after_the_other) false (GetNextFile 0 (Ok (Some file0)))
            (skipn 9 one_after_the_other) _ _);
    vm_compute; reflexivity.
Defined.

(** The loop meets a store that is down.  [run] ends with OperationalError
    after one iteration; the error is not logged and there is no second
    iteration. *)
Lemma C2_counterexample :
  ~ store_errors_survived (run never args0 3 store_down).1
      (trace (run never args0 3 store_down).2).
Proof.
  intros Hc. destruct (Hc 5 0%nat eq_refl) as [Hok _]. discriminate Hok.
Qed.

Lemma C2_witness :
  (run_loop never args0 1 (start (mkScript 0 [Raise OperationalError] [] []))).1
    = Raise OperationalError.
Proof.
  exact (proj1 (proj1 (C2_store_error_leaves_run never args0 0
                         (start (mkScript 0 [Raise OperationalError] [] []))
                         0%nat (mkScript 1 [Raise OperationalError] [] [])
                         eq_refl eq_refl eq_refl)
                  OperationalError (mkScript 1 [] [] []) eq_refl)).
Defined.

(** An idle iteration: the store has no file to offer.  The fixed sleep is
    the third event and the commit the fourth. *)
Lemma C4_counterexample :
  ~ released_before_fixed_sleep
      (loop_events (trace (iteration never args0 (start (mkScript 0 [] [] []))).2)).
Proof.
  intros Hc. destruct (Hc 2%nat 3%Q eq_refl) as (j & e & s & Hj & He & Hcl).
  destruct j as [|[|j]]; [| | lia]; simpl in He; injection He as <-; discriminate Hcl.
Qed.

Lemma C4_witness :
  exists s body,
    loop_events (trace (iteration never args0 (start (mkScript 0 [] [] []))).2) =
      Begin s :: body ++ [Sleep Tick 3; Commit s (Ok tt)] /\
    forallb (on_session s) body = true.
Proof.
  exact (C4_commit_follows_the_fixed_sleep never args0
           (start (mkScript 0 [] [] []))
           (iteration never args0 (start (mkScript 0 [] [] []))).2 eq_refl).
Defined.


(** The reactor thread calls [_stop] while the handler is at work on the
    first file.  [_stop] has returned, at the sixth event, before the file is
    handled, the loop sleeps and the transaction is committed. *)
Lemma C3_counterexample :
  ~ stop_waits_for_iteration (trace (run_loop stop_after_selection args0 5 one_file).2).
Proof.
  intros Hc.
  destruct (Hc 3%nat 5%nat eq_refl eq_refl ltac:(lia) eq_refl)
    as (k & e & s & Hk & He & Hcl).
  assert (k = 4%nat) as -> by lia.
  simpl in He. injection He as <-. discriminate Hcl.
Qed.

Lemma C6_witness :
  let st := mkState true "running" [TestRunning true]
              (mkScript 0 [Ok (Some file0)] [] []) in
  let st' := (iteration stop_after_selection args0 st).2 in
  (run_loop stop_after_selection args0 1 st').1 = Ok (Some tt) /\
  loop_events (trace (run_loop stop_after_selection args0 1 st').2) =
    loop_events (trace st') ++ [TestRunning false].
Proof.
  intros st st'.
  apply (proj2 (proj2 (C6_stop_honoured_at_iteration_boundary
                         stop_after_selection args0)) st st' 0%nat).
  - reflexivity.
  - vm_compute. auto 10.
Defined.

(** *** The loop over the record store of the design *)

Import SupRsyncStore.

Lemma oldest_from_In (rows : list SupRsyncFile) (best : option SupRsyncFile) f :
  fold_left older rows best = Some f -> best = Some f \/ In f rows.
Proof.
  revert best. induction rows as [|r rows IH]; intros best Hf; [left; exact Hf |].
  simpl in Hf. destruct (IH _ Hf) as [Hb | Hin]; [| right; right; exact Hin].
  destruct best as [b|]; simpl in Hb.
  - destruct (Qle_bool (timestamp b) (timestamp r)); [left; exact Hb |].
    right. left. congruence.
  - right. left. congruence.
Qed.

Lemma oldest_In (rows : list SupRsyncFile) f : oldest rows = Some f -> In f rows.
Proof.
  intros Hf. destruct (oldest_from_In rows None f Hf) as [Hn | Hin];
    [discriminate Hn | exact Hin].
Qed.

(** The selector returns a row of the store. *)
Lemma next_file_In archive delete_after c clock rows f :
  next_file archive delete_after c clock rows = Some f -> In f rows.
Proof.
  unfold next_file. intros Hf.
  destruct (oldest (List.filter (needs_copy archive c) rows)) as [g|] eqn:Hcopy.
  - injection Hf as ->. apply oldest_In in Hcopy.
    apply List.filter_In in Hcopy. apply Hcopy.
  - destruct delete_after as [window|]; [| discriminate Hf].
    apply oldest_In in Hf. apply List.filter_In in Hf. apply Hf.
Qed.

(** The row of [f] after [put g] is [g], when [f] has a row and [g] its id. *)
Lemma row_of_put (f g : SupRsyncFile) (rows : list SupRsyncFile) :
  id g = id f -> In f rows -> row_of f (put g rows) = Some g.
Proof.
  intros Hid Hin. unfold row_of, put.
  induction rows as [|r rows IH]; [destruct Hin |].
  cbn [List.map List.find]. destruct (Nat.eqb (id r) (id g)) eqn:Hr.
  - rewrite Hid, Nat.eqb_refl. reflexivity.
  - assert (Hrf : Nat.eqb (id r) (id f) = false) by (rewrite <- Hid; exact Hr).
    rewrite Hrf. apply IH. destruct Hin as [-> | Hin]; [| exact Hin].
    rewrite Nat.eqb_refl in Hrf. discriminate Hrf.
Qed.

(** The rows of the other files are as they were. *)
Lemma put_others (f g r : SupRsyncFile) (rows : list SupRsyncFile) :
  id g = id f -> id r <> id f -> (In r (put g rows) <-> In r rows).
Proof.
  intros Hid Hne. unfold put. rewrite in_map_iff. split.
  - intros (r0 & Hr0 & Hin). rewrite Hid in Hr0.
    destruct (Nat.eqb (id r0) (id f)) eqn:Heq; [| subst r0; exact Hin].
    subst r. destruct Hne. exact Hid.
  - intros Hin. exists r. split; [| exact Hin].
    rewrite Hid. apply Nat.eqb_neq in Hne. rewrite Hne. reflexivity.
Qed.




End SupRsyncFacts.

(** ** PysmurfMonitor *)

Module PysmurfFacts.
Import Pysmurf.

Ltac no_insert :=
  first [ exists []; split; [rewrite app_nil_r; reflexivity | intros ? []]
        | eexists; split;
          [ rewrite <- ?app_assoc; reflexivity
          | intros ? Hin; simpl in Hin; intuition discriminate ] ].

Section Ingestion.

Context `{Host}.

Lemma base_file_info_copied site instance version :
  base_file_info site instance version !! "copied" = Some (PInt 0).
Proof. unfold base_file_info. by simplify_map_eq. Qed.

Lemma base_file_info_attempts site instance version :
  base_file_info site instance version !! "failed_copy_attempts" = Some (PInt 0).
Proof. unfold base_file_info. by simplify_map_eq. Qed.

Lemma base_file_info_md5sum site instance version :
  base_file_info site instance version !! "md5sum" = None.
Proof. unfold base_file_info. by simplify_map_eq. Qed.

(** What a datagram leads to: either nothing is handed to the pool, or the
    new-file line is logged, the checksum of the published path is computed
    and the dict built from the payload is handed over. *)
Lemma datagramReceived_cases (info : gmap string pyval) (_data : string) (tr : list event) :
  match (datagramReceived info _data tr).1 with
  | Ok (Some d) =>
      exists data payload path ts t m plot n,
        json_loads _data = Ok data /\
        getitem data "payload" = Ok (PDict payload) /\
        payload !! "path" = Some path /\
        payload !! "timestamp" = Some ts /\
        utcfromtimestamp ts = Ok t /\
        get_md5sum path = Ok m /\
        (<["md5sum" := PStr m]> (<["timestamp" := t]> payload)) !! "plot" = Some plot /\
        py_int plot = Ok n /\
        d = info ∪ <["plot" := PInt n]>
                     (<["md5sum" := PStr m]> (<["timestamp" := t]> payload)) /\
        (datagramReceived info _data tr).2 =
          tr ++ [LogInfo (NewFile path); GetMd5sum path (Ok m); RunInteraction d]
  | _ =>
      exists new,
        (datagramReceived info _data tr).2 = tr ++ new /\
        forall d, ~ In (RunInteraction d) new
  end.
Proof.
  unfold datagramReceived, lift, emit, call_get_md5sum, lookup_key,
    mbind, M_bind, bind, mret, M_ret, ret.
  destruct (json_loads _data) as [data|e] eqn:Hj; simpl; [| no_insert].
  destruct (getitem data "type") as [ty|e] eqn:Hty; simpl; [| no_insert].
  destruct (is_data_file ty) eqn:Hdf; simpl; [| no_insert].
  destruct (getitem data "payload") as [pl|e] eqn:Hpl; simpl; [| no_insert].
  destruct (getitem pl "path") as [fname|e] eqn:Hf; simpl; [| no_insert].
  destruct (copy_dict pl) as [d|e] eqn:Hc; simpl; [| no_insert].
  assert (pl = PDict d) as -> by (destruct pl; simpl in Hc; congruence).
  simpl in Hf.
  destruct (d !! "timestamp") as [ts|] eqn:Hts; simpl; [| no_insert].
  destruct (utcfromtimestamp ts) as [t|e] eqn:Ht; simpl; [| no_insert].
  rewrite lookup_insert_ne by done.
  destruct (d !! "path") as [path|] eqn:Hp; simpl; [| discriminate Hf].
  injection Hf as <-.
  destruct (get_md5sum path) as [m|e] eqn:Hm; simpl; [| no_insert].
  destruct ((<["md5sum" := PStr m]> (<["timestamp" := t]> d)) !! "plot")
    as [plot|] eqn:Hplot; simpl; [| no_insert].
  destruct (py_int plot) as [n|e] eqn:Hn; simpl; [| no_insert].
  exists data, d, path, ts, t, m, plot, n.
  rewrite <- !app_assoc. simpl. repeat split; auto.
Qed.

(** A well-formed announcement of a data file does lead to an insertion. *)
Lemma datagramReceived_inserts (info : gmap string pyval) (_data : string)
    (tr : list event) top payload path ts t m plot n :
  json_loads _data = Ok (PDict top) ->
  top !! "type" = Some (PStr "data_file") ->
  top !! "payload" = Some (PDict payload) ->
  payload !! "path" = Some path ->
  payload !! "timestamp" = Some ts ->
  payload !! "plot" = Some plot ->
  utcfromtimestamp ts = Ok t ->
  get_md5sum path = Ok m ->
  py_int plot = Ok n ->
  (datagramReceived info _data tr).1 =
    Ok (Some (info ∪ <["plot" := PInt n]>
                       (<["md5sum" := PStr m]> (<["timestamp" := t]> payload)))).
Proof.
  intros Hj Hty Hpl Hp Hts Hplot Ht Hm Hn.
  unfold datagramReceived, lift, emit, call_get_md5sum, lookup_key, getitem,
    mbind, M_bind, bind, mret, M_ret, ret.
  rewrite Hj. simpl. rewrite Hty. simpl. rewrite Hpl. simpl. rewrite Hp. simpl.
  rewrite Hts. simpl. rewrite Ht. simpl.
  rewrite lookup_insert_ne by done. rewrite Hp. simpl. rewrite Hm. simpl.
  rewrite !lookup_insert_ne by done. rewrite Hplot. simpl. rewrite Hn. reflexivity.
Qed.

Lemma md5_calls_app (t1 t2 : list event) :
  md5_calls (t1 ++ t2) = md5_calls t1 + md5_calls t2.
Proof. unfold md5_calls. rewrite List.filter_app, length_app. reflexivity. Qed.

(** The callbacks of the insertion only log. *)
Lemma fire_md5_calls (inserted : outcome unit) (d : gmap string pyval) (tr : list event) :
  md5_calls (fire inserted d tr).2 = md5_calls tr.
Proof.
  unfold fire, _add_file_callback, _add_file_errback, lift, emit, raise, lookup_key,
    mbind, M_bind, bind.
  destruct inserted as [[]|e]; destruct (d !! "path"); simpl;
    unfold md5_calls; rewrite ?List.filter_app, ?length_app; simpl; lia.
Qed.

(** C7. For every data_file event the md5 checksum of the file at the
    published path is computed before the record is inserted, and stored on
    it.  A datagram that parses to a dict of type 'data_file' whose payload
    is a dict with 'path', 'timestamp' and 'plot', and for which the
    conversions and the checksum return, is ingested: the new-file line is
    logged, [get_md5sum] is called on the path, and then the dict is handed
    to the connection pool, carrying the checksum under "md5sum".  Whatever
    the datagram, if it leads to an insertion the checksum was computed
    before, once, and is on the dict, and the callbacks that run after the
    insertion do not compute it again; a datagram that does not get that far
    leads to no insertion at all. *)
Theorem C7_md5sum_computed_once_before_insertion
    (site instance version _data : string) (inserted : outcome unit) (tr : list event) :
  let info := base_file_info site instance version in
  (forall top payload path ts plot t m n,
      json_loads _data = Ok (PDict top) ->
      top !! "type" = Some (PStr "data_file") ->
      top !! "payload" = Some (PDict payload) ->
      payload !! "path" = Some path ->
      payload !! "timestamp" = Some ts ->
      payload !! "plot" = Some plot ->
      utcfromtimestamp ts = Ok t ->
      get_md5sum path = Ok m ->
      py_int plot = Ok n ->
      exists d,
        datagramReceived info _data tr =
          (Ok (Some d),
           tr ++ [LogInfo (NewFile path); GetMd5sum path (Ok m); RunInteraction d]) /\
        d !! "md5sum" = Some (PStr m) /\
        md5_calls (fire inserted d (datagramReceived info _data tr).2).2 =
          S (md5_calls tr)) /\
  match (datagramReceived info _data tr).1 with
  | Ok (Some d) =>
      exists data payload path m,
        json_loads _data = Ok data /\
        getitem data "payload" = Ok payload /\
        getitem payload "path" = Ok path /\
        get_md5sum path = Ok m /\
        (datagramReceived info _data tr).2 =
          tr ++ [LogInfo (NewFile path); GetMd5sum path (Ok m); RunInteraction d] /\
        d !! "md5sum" = Some (PStr m) /\
        md5_calls (datagramReceived info _data tr).2 = S (md5_calls tr) /\
        md5_calls (fire inserted d (datagramReceived info _data tr).2).2 =
          S (md5_calls tr)
  | _ =>
      exists new,
        (datagramReceived info _data tr).2 = tr ++ new /\
        forall d, ~ In (RunInteraction d) new
  end.
Proof.
  intros info.
  assert (Hmd5 : forall (payload : gmap string pyval) t m n,
             (info ∪ <["plot" := PInt n]>
                       (<["md5sum" := PStr m]> (<["timestamp" := t]> payload)))
               !! "md5sum" = Some (PStr m)).
  { intros payload t m n. unfold info.
    rewrite lookup_union_r by apply base_file_info_md5sum.
    rewrite lookup_insert_ne by done. apply lookup_insert_eq. }
  pose proof (datagramReceived_cases info _data tr) as Hc.
  split.
  - intros top payload path ts plot t m n Hj Hty Hpl Hp Hts Hplot Ht Hm Hn.
    pose proof (datagramReceived_inserts info _data tr top payload path ts t m plot n
                  Hj Hty Hpl Hp Hts Hplot Ht Hm Hn) as Hres.
    rewrite Hres in Hc.
    destruct Hc as (data & payload' & path' & ts' & t' & m' & plot' & n' &
                    Hj' & Hpl' & Hp' & _ & _ & Hm' & _ & _ & _ & Htr).
    rewrite Hj in Hj'. injection Hj' as <-.
    simpl in Hpl'. rewrite Hpl in Hpl'. injection Hpl' as <-.
    rewrite Hp in Hp'. injection Hp' as <-.
    rewrite Hm in Hm'. injection Hm' as <-.
    eexists. split; [| split].
    + rewrite (surjective_pairing (datagramReceived info _data tr)), Hres, Htr.
      reflexivity.
    + apply Hmd5.
    + rewrite fire_md5_calls, Htr, md5_calls_app. unfold md5_calls. simpl. lia.
  - destruct ((datagramReceived info _data tr).1) as [[d|]|e]; try exact Hc.
    destruct Hc as (data & payload & path & ts & t & m & plot & n &
                    Hj & Hpl & Hp & _ & _ & Hm & _ & _ & Hd & Htr).
    exists data, (PDict payload), path, m.
    assert (Hcalls : md5_calls (datagramReceived info _data tr).2 = S (md5_calls tr))
      by (rewrite Htr, md5_calls_app; unfold md5_calls; simpl; lia).
    repeat split; try assumption.
    + simpl. rewrite Hp. reflexivity.
    + rewrite Hd. apply Hmd5.
    + rewrite fire_md5_calls. exact Hcalls.
Qed.

(** C8. Every record handed to the pool starts unattempted: its "copied"
    and its "failed_copy_attempts" are 0, whatever the payload of the
    datagram says, since [base_file_info] is written over the payload. *)
Theorem C8_inserted_record_is_unattempted
    (site instance version _data : string) (tr : list event) :
  let info := base_file_info site instance version in
  match (datagramReceived info _data tr).1 with
  | Ok (Some d) =>
      (exists pre,
          (datagramReceived info _data tr).2 = tr ++ pre ++ [RunInteraction d] /\
          forall d', ~ In (RunInteraction d') pre) /\
      d !! "copied" = Some (PInt 0) /\
      d !! "failed_copy_attempts" = Some (PInt 0)
  | _ =>
      exists new,
        (datagramReceived info _data tr).2 = tr ++ new /\
        forall d, ~ In (RunInteraction d) new
  end.
Proof.
  intros info.
  pose proof (datagramReceived_cases info _data tr) as Hc.
  destruct ((datagramReceived info _data tr).1) as [[d|]|e]; try exact Hc.
  destruct Hc as (data & payload & path & ts & t & m & plot & n &
                  _ & _ & _ & _ & _ & _ & _ & _ & Hd & Htr).
  repeat split.
  - exists [LogInfo (NewFile path); GetMd5sum path (Ok m)]. split; [exact Htr |].
    intros d' Hin. simpl in Hin. intuition discriminate.
  - rewrite Hd. apply lookup_union_Some_l, base_file_info_copied.
  - rewrite Hd. apply lookup_union_Some_l, base_file_info_attempts.
Qed.

End Ingestion.

(** The announcement [datagram0] is ingested with its checksum, whether the
    insertion then succeeds or not. *)
Lemma C7_witness :
  exists d,
    datagramReceived info0 "datagram0" [] =
      (Ok (Some d),
       [] ++ [LogInfo (NewFile (PStr "/data/smurf/1.dat"));
              GetMd5sum (PStr "/data/smurf/1.dat") (Ok "9e107d9d372bb6826bd81d3542a419d6");
              RunInteraction d]) /\
    d !! "md5sum" = Some (PStr "9e107d9d372bb6826bd81d3542a419d6") /\
    md5_calls (fire (Raise OperationalError) d
                 (datagramReceived info0 "datagram0" []).2).2 = S (md5_calls []).
Proof.
  exact (proj1 (C7_md5sum_computed_once_before_insertion
                  "observatory" "pysmurf-monitor" "0.1.0" "datagram0"
                  (Raise OperationalError) [])
           _ payload0 (PStr "/data/smurf/1.dat") (PFloat 1600000000) (PBool false)
           (PDatetime 1600000000) "9e107d9d372bb6826bd81d3542a419d6" 0%Z
           eq_refl eq_refl eq_refl eq_refl eq_refl eq_refl eq_refl eq_refl eq_refl).
Defined.

(** The announcement [datagram0] is ingested: the record handed to the pool
    carries the checksum, and starts unattempted although the payload said
    "copied": 1. *)
Example ingest_datagram0 :
  exists d,
    (datagramReceived info0 "datagram0" []).1 = Ok (Some d) /\
    d !! "md5sum" = Some (PStr "9e107d9d372bb6826bd81d3542a419d6") /\
    payload0 !! "copied" = Some (PInt 1) /\
    d !! "copied" = Some (PInt 0) /\
    md5_calls (ingest info0 "datagram0" (Ok tt) []).2 = 1 /\
    md5_calls (ingest info0 "datagram0" (Raise OperationalError) []).2 = 1.
Proof. eexists. repeat split; vm_compute; reflexivity. Qed.

End PysmurfFacts.

(** ** HWP PCU agent *)

Module HWPPCUFacts.
Import HWPPCU.

Section Reactor.

Context `{Hardware W}.
Variable r : reactor.

(** The reactor thread's turn: some actions, each with a deferred made
    just now, are put on the queue, and the status may be set to
    "stopping"; nothing else changes. *)
Lemma send_commands_spec (cs : list string) (st : state W) :
  exists acts,
    (for_each cs send_command st).1 = Ok tt /\
    action_queue (for_each cs send_command st).2 = action_queue st ++ acts /\
    next_deferred (for_each cs send_command st).2 = next_deferred st + length acts /\
    trace (for_each cs send_command st).2 = trace st ++ List.map Put acts /\
    status (for_each cs send_command st).2 = status st /\
    data (for_each cs send_command st).2 = data st /\
    world (for_each cs send_command st).2 = world st /\
    Forall (fun a => next_deferred st <= deferred_of a) acts.
Proof.
  revert st. induction cs as [|c cs IH]; intros st.
  - exists []. simpl. rewrite !app_nil_r, Nat.add_0_r. repeat split; constructor.
  - simpl. unfold mbind, M_bind, bind. simpl.
    set (st1 := mkState _ _ _ _ _ _).
    destruct (IH st1) as (acts & Hr & Hq & Hn & Ht & Hs & Hd & Hw & Hf).
    exists (SendCommand c (next_deferred st) :: acts).
    rewrite Hr, Hq, Hn, Ht, Hs, Hd, Hw. simpl. rewrite <- !app_assoc. simpl.
    repeat split; try lia.
    constructor; [simpl; lia |].
    eapply Forall_impl; [exact Hf | simpl; intros; lia].
Qed.

Lemma yield_spec (st : state W) :
  exists acts stop,
    (yield r st).1 = Ok tt /\
    action_queue (yield r st).2 = action_queue st ++ acts /\
    next_deferred (yield r st).2 = next_deferred st + length acts /\
    trace (yield r st).2 = trace st ++ List.map Put acts ++ stop /\
    (stop = [] \/ stop = [SetStatus "stopping"]) /\
    data (yield r st).2 = data st /\
    world (yield r st).2 = world st /\
    Forall (fun a => next_deferred st <= deferred_of a) acts.
Proof.
  unfold yield, mbind, M_bind, bind.
  destruct (send_commands_spec (commands r (trace st)) st)
    as (acts & Hr & Hq & Hn & Ht & Hs & Hd & Hw & Hf).
  destruct (for_each (commands r (trace st)) send_command st) as [res st1];
    simpl in *. subst res.
  destruct (stop_requested r (trace st)); simpl.
  - exists acts, [SetStatus "stopping"]. rewrite Ht, <- app_assoc. auto 10.
  - exists acts, []. rewrite app_nil_r. auto 10.
Qed.

End Reactor.

(** *** Triples *)

Section Hoare.

Context `{Hardware W}.
Variable r : reactor.
Variable Inv : list action -> nat -> Prop.
Variable P : event -> Prop.

Hypothesis I_arrivals :
  forall q n acts, Inv q n -> Forall (fun a => n <= deferred_of a) acts ->
    Inv (q ++ acts) (n + length acts).
Hypothesis P_put : forall a, P (Put a).
Hypothesis P_stopping : P (SetStatus "stopping").

Local Abbreviation triple := (hoare (W:=W) Inv P).

Lemma triple_ret {A} (x : A) (Q : A -> Prop) : Q x -> triple (mret x) Q.
Proof.
  intros HQ st HI. split; [exact HI |]. split.
  - exists []. rewrite app_nil_r. split; [reflexivity | constructor].
  - intros y [= <-]. exact HQ.
Qed.

Lemma triple_raise {A} (e : exn) (Q : A -> Prop) : triple (raise e) Q.
Proof.
  intros st HI. split; [exact HI |]. split.
  - exists []. rewrite app_nil_r. split; [reflexivity | constructor].
  - intros y [=].
Qed.

Lemma triple_weaken {A} (m : M (state W) A) (Q Q' : A -> Prop) :
  triple m Q -> (forall x, Q x -> Q' x) -> triple m Q'.
Proof.
  intros Hm HQ st HI. destruct (Hm st HI) as (HI' & Hev & Hx).
  repeat split; auto.
Qed.

Lemma triple_bind {A B} (m : M (state W) A) (k : A -> M (state W) B)
    (Q1 : A -> Prop) (Q2 : B -> Prop) :
  triple m Q1 -> (forall x, Q1 x -> triple (k x) Q2) -> triple (m ≫= k) Q2.
Proof.
  intros Hm Hk st HI. destruct (Hm st HI) as (HI1 & (e1 & Ht1 & HP1) & Hx).
  unfold mbind, M_bind, bind. destruct (m st) as [[x|e] st1]; simpl in *.
  - destruct (Hk x (Hx x eq_refl) st1 HI1) as (HI2 & (e2 & Ht2 & HP2) & Hy).
    repeat split; [exact HI2 | | exact Hy].
    exists (e1 ++ e2). rewrite Ht2, Ht1, app_assoc.
    split; [reflexivity | apply Forall_app; auto].
  - repeat split; [exact HI1 | eauto | intros y [=]].
Qed.

Lemma triple_try {A} (m : M (state W) A) (h : exn -> option (M (state W) A))
    (Q : A -> Prop) :
  triple m Q -> (forall e c, h e = Some c -> triple c Q) -> triple (try_except m h) Q.
Proof.
  intros Hm Hh st HI. destruct (Hm st HI) as (HI1 & (e1 & Ht1 & HP1) & Hx).
  unfold try_except. destruct (m st) as [[x|e] st1]; simpl in *.
  - repeat split; [exact HI1 | eauto | exact Hx].
  - destruct (h e) as [c|] eqn:He.
    + destruct (Hh e c He st1 HI1) as (HI2 & (e2 & Ht2 & HP2) & Hy).
      repeat split; [exact HI2 | | exact Hy].
      exists (e1 ++ e2). rewrite Ht2, Ht1, app_assoc.
      split; [reflexivity | apply Forall_app; auto].
    + repeat split; [exact HI1 | eauto | intros y [=]].
Qed.

Lemma triple_yield : triple (yield r) any.
Proof.
  intros st HI.
  destruct (yield_spec r st) as (acts & stop & _ & Hq & Hn & Ht & Hs & _ & _ & Hf).
  rewrite Hq, Hn, Ht. repeat split.
  - apply I_arrivals; assumption.
  - eexists. split; [reflexivity |]. apply Forall_app. split.
    + apply List.Forall_forall. intros e (a & <- & _)%in_map_iff. apply P_put.
    + destruct Hs as [-> | ->]; repeat constructor. exact P_stopping.
Qed.

(** A step that leaves the queue and the deferred count alone and adds the
    events [evs st]. *)
Lemma triple_step {A} (m : M (state W) A) (evs : state W -> list event) :
  (forall st, action_queue (m st).2 = action_queue st) ->
  (forall st, next_deferred (m st).2 = next_deferred st) ->
  (forall st, trace (m st).2 = trace st ++ evs st) ->
  (forall st, Forall P (evs st)) ->
  triple m any.
Proof.
  intros Hq Hn Ht HP st HI. rewrite Hq, Hn, Ht. repeat split; eauto.
Qed.

Lemma triple_emit (e : event) : P e -> triple (emit e) any.
Proof.
  intros HP. apply (triple_step _ (fun _ => [e])); intros; try reflexivity.
  repeat constructor. exact HP.
Qed.

Lemma triple_set_status (s : string) : P (SetStatus s) -> triple (set_status s) any.
Proof.
  intros HP. apply (triple_step _ (fun _ => [SetStatus s])); intros; try reflexivity.
  repeat constructor. exact HP.
Qed.

Lemma triple_extern {A} (f : W -> outcome A * W) (ev : outcome A -> event) :
  (forall res, P (ev res)) -> triple (extern f ev) any.
Proof.
  intros HP. apply (triple_step _ (fun st => [ev (f (world st)).1]));
    intros st; unfold extern; try (destruct (f (world st)); reflexivity).
  repeat constructor. apply HP.
Qed.

Lemma triple_then {A B} (m : M (state W) A) (k : M (state W) B) (Q : B -> Prop) :
  triple m any -> triple k Q -> triple (m ≫= fun _ => k) Q.
Proof. intros Hm Hk. eapply triple_bind; [exact Hm | intros ? ?; exact Hk]. Qed.

Lemma triple_call {A} (f : W -> outcome A * W) (ev : outcome A -> event) :
  (forall res, P (ev res)) -> triple (call r f ev) any.
Proof. intros HP. apply triple_then; [apply triple_yield | apply triple_extern, HP]. Qed.

Lemma triple_log_info (m : message) : P (LogInfo m) -> triple (log_info r m) any.
Proof. intros HP. apply triple_then; [apply triple_yield | apply triple_emit, HP]. Qed.

Lemma triple_log_error (m : message) : P (LogError m) -> triple (log_error r m) any.
Proof. intros HP. apply triple_then; [apply triple_yield | apply triple_emit, HP]. Qed.

Lemma triple_errback a e : P (Errback a e) -> triple (errback r a e) any.
Proof. intros HP. apply triple_then; [apply triple_yield | apply triple_emit, HP]. Qed.

Lemma triple_callback a res : P (Callback a res) -> triple (callback r a res) any.
Proof. intros HP. apply triple_then; [apply triple_yield | apply triple_emit, HP]. Qed.

Lemma triple_for_each {A} (l : list A) (f : A -> M (state W) unit) :
  (forall x, triple (f x) any) -> triple (for_each l f) any.
Proof.
  intros Hf. induction l as [|x l IH]; simpl.
  - apply triple_ret. exact I.
  - apply triple_then; [apply Hf | exact IH].
Qed.

Lemma triple_read_status : (forall b, P (TestStatus b)) -> triple read_status any.
Proof.
  intros HP. apply (triple_step _ (fun st =>
    [TestStatus (String.eqb (status st) "starting" || String.eqb (status st) "running")]));
    intros; try reflexivity.
  repeat constructor. apply HP.
Qed.

Lemma triple_read_time : (forall t, P (Clock t)) -> triple read_time any.
Proof.
  intros HP. apply (triple_step _ (fun st => [Clock (time (world st)).1]));
    intros st; unfold read_time; try (destruct (time (world st)); reflexivity).
  repeat constructor. apply HP.
Qed.

Lemma triple_set_data s t : triple (set_data s t) any.
Proof.
  apply (triple_step _ (fun _ => [])); intros; try reflexivity.
  - simpl. rewrite app_nil_r. reflexivity.
  - constructor.
Qed.

(** The head taken off the queue was on a queue that satisfied [Inv]. *)
Lemma triple_pop :
  (forall a q n, Inv (a :: q) n -> Inv q n) ->
  triple (pop r) (fun o => forall a, o = Some a -> exists q n, Inv (a :: q) n).
Proof.
  intros Htail. eapply triple_bind; [apply triple_yield | intros _ _].
  intros st HI. unfold take_head. destruct (action_queue st) as [|a q] eqn:Hq; simpl.
  - rewrite Hq. repeat split; [exact HI | | intros x [= <-] a [=]].
    exists []. rewrite app_nil_r. split; [reflexivity | constructor].
  - repeat split; [eapply Htail, HI | | intros x [= <-] a' [= <-]; eauto].
    exists []. rewrite app_nil_r. split; [reflexivity | constructor].
Qed.

End Hoare.

(** *** The relay calls of [process_action] *)

Section Relays.

Context `{Hardware W}.
Variable r : reactor.

Lemma relay_calls_app (e1 e2 : list event) :
  relay_calls (e1 ++ e2) = relay_calls e1 ++ relay_calls e2.
Proof. apply omap_app. Qed.

Lemma relay_calls_puts (acts : list action) : relay_calls (List.map Put acts) = [].
Proof. induction acts as [|a acts IH]; [reflexivity | exact IH]. Qed.

Lemma relays_ret {A} (x : A) : relays_as (W:=W) (mret x) [].
Proof.
  intros st. exists []. rewrite app_nil_r. repeat split; reflexivity.
Qed.

Lemma relays_bind {A B} (m : M (state W) A) (k : A -> M (state W) B) e1 e2 :
  relays_as (W:=W) m e1 -> (forall x, relays_as (W:=W) (k x) e2) -> relays_as (W:=W) (m ≫= k) (e1 ++ e2).
Proof.
  intros Hm Hk st. destruct (Hm st) as (ev1 & Ht1 & Hp1 & Hok1).
  unfold mbind, M_bind, bind. destruct (m st) as [[x|e] st1]; simpl in *.
  - destruct (Hk x st1) as (ev2 & Ht2 & Hp2 & Hok2).
    exists (ev1 ++ ev2). rewrite Ht2, Ht1, app_assoc, relay_calls_app, (Hok1 eq_refl).
    repeat split.
    + apply prefix_app, Hp2.
    + intros Hok. rewrite (Hok2 Hok). reflexivity.
  - exists ev1. repeat split; [exact Ht1 | | discriminate].
    etrans; [exact Hp1 | apply prefix_app_r; reflexivity].
Qed.

Lemma relays_yield : relays_as (W:=W) (yield r) [].
Proof.
  intros st.
  destruct (yield_spec r st) as (acts & stop & _ & _ & _ & Ht & Hs & _).
  eexists. split; [exact Ht |].
  rewrite relay_calls_app, relay_calls_puts.
  destruct Hs as [-> | ->]; repeat split; reflexivity.
Qed.

Lemma relays_log_info (m : message) : relays_as (W:=W) (log_info r m) [].
Proof.
  apply (relays_bind _ _ [] []); [apply relays_yield | intros ?].
  intros st. exists [LogInfo m]. repeat split; reflexivity.
Qed.

Lemma relays_call (f : W -> outcome unit * W) (ev : outcome unit -> event) c :
  (forall res, relay_of (ev res) = Some c) -> relays_as (W:=W) (call r f ev) [c].
Proof.
  intros Hev. apply (relays_bind _ _ [] [c]); [apply relays_yield | intros ?].
  intros st. unfold extern. destruct (f (world st)) as [res w].
  exists [ev res]. unfold relay_calls. simpl. rewrite Hev.
  repeat split; reflexivity.
Qed.

Lemma relays_for_each (l : list nat) (f : nat -> M (state W) unit) (on : bool) :
  (forall i, relays_as (W:=W) (f i) [(on, i)]) ->
  relays_as (W:=W) (for_each l f) (List.map (pair on) l).
Proof.
  intros Hf. induction l as [|i l IH]; simpl.
  - apply relays_ret.
  - apply (relays_bind _ _ [(on, i)]); [apply Hf | intros ?; exact IH].
Qed.

Lemma relays_process_action command d :
  relays_as (W:=W) (process_action r (SendCommand command d))
    (expected_calls (channels command).1 (channels command).2).
Proof.
  unfold process_action. destruct (channels command) as [off on]. simpl.
  apply (relays_bind _ _ []); [apply relays_log_info | intros ?].
  apply (relays_bind _ _ []); [apply relays_log_info | intros ?].
  apply (relays_bind _ _ []); [apply relays_log_info | intros ?].
  unfold expected_calls.
  apply relays_bind; [apply relays_for_each; intros i; apply relays_call; reflexivity |].
  intros ?.
  rewrite <- (app_nil_r (List.map (pair true) on)).
  apply relays_bind; [apply relays_for_each; intros i; apply relays_call; reflexivity |].
  intros ?. apply relays_ret.
Qed.

Lemma returns_ret {A} (x : A) : returns (W:=W) (mret x).
Proof. intros st. reflexivity. Qed.

Lemma returns_bind {A B} (m : M (state W) A) (k : A -> M (state W) B) :
  returns m -> (forall x, returns (k x)) -> returns (m ≫= k).
Proof.
  intros Hm Hk st. specialize (Hm st). unfold mbind, M_bind, bind.
  destruct (m st) as [[x|e] st1]; [apply Hk | discriminate Hm].
Qed.

Lemma returns_yield : returns (W:=W) (yield r).
Proof.
  intros st. destruct (yield_spec r st) as (acts & stop & -> & _). reflexivity.
Qed.

Lemma returns_log_info (m : message) : returns (W:=W) (log_info r m).
Proof.
  apply returns_bind; [apply returns_yield | intros ? st; reflexivity].
Qed.

Lemma returns_call {A} (f : W -> outcome A * W) (ev : outcome A -> event) :
  (forall w, is_ok (f w).1 = true) -> returns (call r f ev).
Proof.
  intros Hf. apply returns_bind; [apply returns_yield | intros ? st].
  unfold extern. specialize (Hf (world st)).
  destruct (f (world st)) as [res w]. exact Hf.
Qed.

Lemma returns_for_each {A} (l : list A) (f : A -> M (state W) unit) :
  (forall x, returns (f x)) -> returns (for_each l f).
Proof.
  intros Hf. induction l as [|x l IH]; simpl; [apply returns_ret |].
  apply returns_bind; [apply Hf | intros ?; exact IH].
Qed.

(** With a driver whose relay calls return, [process_action] returns. *)
Lemma returns_process_action (a : action) :
  (forall i w, is_ok (relay_off i w).1 = true) ->
  (forall i w, is_ok (relay_on i w).1 = true) ->
  returns (process_action r a).
Proof.
  intros Hoff Hon. destruct a as [command d|d]; simpl; [| apply returns_ret].
  destruct (channels command) as [off on].
  repeat (apply returns_bind; [apply returns_log_info | intros ?]).
  apply returns_bind;
    [apply returns_for_each; intros i; apply returns_call, Hoff | intros ?].
  apply returns_bind;
    [apply returns_for_each; intros i; apply returns_call, Hon | intros ?].
  apply returns_ret.
Qed.

(** What [process_action] returns for a SendCommand, when it returns. *)
Lemma process_action_returns command d (st : state W) v :
  (process_action r (SendCommand command d) st).1 = Ok v ->
  v = Some (mkRelays (channels command).1 (channels command).2).
Proof.
  assert (Ht : hoare (fun _ _ => True) (fun _ => True)
                 (process_action r (SendCommand command d))
                 (fun v => v = Some (mkRelays (channels command).1 (channels command).2))).
  { unfold process_action. destruct (channels command) as [off on]. simpl.
    repeat (eapply triple_then;
            [ first [ apply triple_log_info | apply triple_for_each; intros;
                      apply triple_call ]; auto |]).
    apply triple_ret. reflexivity. }
  intros Hv. exact (proj2 (proj2 (Ht st I)) v Hv).
Qed.

Lemma channels_known command :
  known_command command ->
  (forall i, In i (channels command).1 -> ~ In i (channels command).2) /\
  (forall i, In i (channels command).1 \/ In i (channels command).2 <->
             In i [0; 1; 2; 5; 6; 7]).
Proof.
  intros [-> | [-> | [-> | ->]]]; simpl; split; intros i; intuition lia.
Qed.

Lemma channels_unknown command :
  ~ known_command command -> channels command = ([], []).
Proof.
  intros Hn. unfold channels, known_command in *.
  destruct (String.eqb_spec command "off"); [tauto |].
  destruct (String.eqb_spec command "on_1"); [tauto |].
  destruct (String.eqb_spec command "on_2"); [tauto |].
  destruct (String.eqb_spec command "stop"); [tauto |].
  reflexivity.
Qed.

(** C9. For a SendCommand whose command is 'off', 'on_1', 'on_2' or 'stop',
    the off-channel and on-channel lists of [process_action] are disjoint
    and together are exactly the relays 0, 1, 2, 5, 6, 7; for any other
    command both lists are empty.  The relay calls it makes are the
    [relay_off] calls of the off list followed by the [relay_on] calls of the
    on list (all of them when it returns, the first ones when a call
    raises), and what it returns is the dict of the two lists; it does
    return when the relay calls of the driver do. *)
Theorem C9_process_action_drives_every_relay command d (st : state W) :
  let off := (channels command).1 in
  let on := (channels command).2 in
  let res := process_action r (SendCommand command d) st in
  (known_command command ->
     (forall i, In i off -> ~ In i on) /\
     (forall i, In i off \/ In i on <-> In i [0; 1; 2; 5; 6; 7])) /\
  (~ known_command command -> off = [] /\ on = []) /\
  exists evs,
    trace res.2 = trace st ++ evs /\
    relay_calls evs `prefix_of` expected_calls off on /\
    (forall v, res.1 = Ok v ->
       v = Some (mkRelays off on) /\ relay_calls evs = expected_calls off on) /\
    ((forall i w, is_ok (relay_off i w).1 = true) ->
     (forall i w, is_ok (relay_on i w).1 = true) ->
     res.1 = Ok (Some (mkRelays off on))).
Proof.
  intros off on res. split; [apply channels_known |]. split.
  - intros Hn. unfold off, on. rewrite (channels_unknown _ Hn). split; reflexivity.
  - destruct (relays_process_action command d st) as (evs & Ht & Hp & Hok).
    exists evs. split; [exact Ht |]. split; [exact Hp |]. split.
    + intros v Hv. split; [eapply process_action_returns, Hv |].
      apply Hok. unfold res in Hv. rewrite Hv. reflexivity.
    + intros Hoff Hon.
      pose proof (returns_process_action (SendCommand command d) Hoff Hon st) as Hret.
      fold res in Hret. destruct (res.1) as [v|e] eqn:Hv; [| discriminate Hret].
      f_equal. eapply process_action_returns, Hv.
Qed.

End Relays.

(** On the bench the command 'stop' switches 0, 6, 7 off, then 1, 2, 5 on,
    and an unknown command switches nothing. *)
Example process_stop :
  (process_action quiet_reactor (SendCommand "stop" 7) queued).1 =
    Ok (Some (mkRelays [0; 6; 7] [1; 2; 5])) /\
  relay_calls (trace (process_action quiet_reactor (SendCommand "stop" 7) queued).2) =
    [(false, 0); (false, 6); (false, 7); (true, 1); (true, 2); (true, 5)] /\
  (process_action quiet_reactor (SendCommand "brake" 8) queued).1 =
    Ok (Some (mkRelays [] [])) /\
  relay_calls (trace (process_action quiet_reactor (SendCommand "brake" 8) queued).2) = [].
Proof. repeat split; reflexivity. Qed.

Lemma C9_witness :
  ((forall i, In i [0; 6; 7] -> ~ In i [1; 2; 5]) /\
   (forall i, In i [0; 6; 7] \/ In i [1; 2; 5] <-> In i [0; 1; 2; 5; 6; 7])) /\
  (process_action quiet_reactor (SendCommand "stop" 7) queued).1 =
    Ok (Some (mkRelays [0; 6; 7] [1; 2; 5])).
Proof.
  destruct (C9_process_action_drives_every_relay quiet_reactor "stop" 7 queued)
    as (Hknown & _ & evs & _ & _ & _ & Hret).
  split.
  - apply Hknown. right; right; right; reflexivity.
  - apply Hret; intros; reflexivity.
Defined.

(** *** [main]: before the polling loop, and in it *)

Section Main.

Context `{Hardware W}.
Variable r : reactor.

(** [n0] is the number of deferreds made when [main] starts. *)
Variable n0 : nat.

Local Abbreviation counted := (counted n0).
Local Abbreviation grown := (grown n0).
Local Abbreviation fresh := (fresh n0).

Lemma counted_arrivals q n acts :
  counted q n -> Forall (fun a => n <= deferred_of a) acts ->
  counted (q ++ acts) (n + length acts).
Proof. unfold counted. lia. Qed.

Lemma grown_arrivals q0 q n acts :
  grown q0 q n -> Forall (fun a => n <= deferred_of a) acts ->
  grown q0 (q ++ acts) (n + length acts).
Proof.
  intros [Hn [a0 ->]] _. split; [lia |]. exists (a0 ++ acts). symmetry. apply app_assoc.
Qed.

Lemma fresh_arrivals q n acts :
  fresh q n -> Forall (fun a => n <= deferred_of a) acts ->
  fresh (q ++ acts) (n + length acts).
Proof.
  intros [Hn Hq] Ha. split; [lia |]. apply Forall_app. split; [exact Hq |].
  eapply Forall_impl; [exact Ha | simpl; intros; lia].
Qed.

Lemma runs_from_other (e : event) :
  (forall a, e <> LogInfo (RunningAction a)) -> runs_from n0 e.
Proof. intros Hne a He. destruct (Hne a He). Qed.

(** Before the first loop nothing is taken off the queue. *)
Lemma connect_and_start_calm q0 port :
  hoare (grown q0) is_calm (connect_and_start (W:=W) r port) any.
Proof.
  unfold connect_and_start.
  apply triple_then;
    [apply triple_call; [apply grown_arrivals | reflexivity..] |].
  apply triple_then;
    [apply triple_log_info; [apply grown_arrivals | reflexivity..] |].
  apply triple_then;
    [apply triple_yield; [apply grown_arrivals | reflexivity..] |].
  apply triple_set_status. reflexivity.
Qed.

Lemma cancel_queued_calm fuel :
  hoare counted is_calm (cancel_queued (W:=W) r fuel) any.
Proof.
  induction fuel as [|n IH]; simpl.
  - apply triple_ret. exact I.
  - eapply triple_bind.
    + apply triple_pop; [apply counted_arrivals | reflexivity.. | auto].
    + intros [a|] _; [| apply triple_ret; exact I].
      apply triple_then; [| exact IH].
      apply triple_errback; [apply counted_arrivals | reflexivity..].
Qed.

(** When the first loop ends the queue is empty, and every action that was
    on the queue when the loop began has been cancelled. *)
Lemma cancel_queued_spec fuel (st : state W) :
  (cancel_queued r fuel st).1 = Ok (Some tt) ->
  action_queue (cancel_queued r fuel st).2 = [] /\
  exists evs,
    trace (cancel_queued r fuel st).2 = trace st ++ evs /\
    forall a, In a (action_queue st) -> In (cancelled a) evs.
Proof.
  revert st. induction fuel as [|n IH]; intros st; [discriminate |].
  simpl. unfold pop, mbind, M_bind, bind.
  destruct (yield_spec r st) as (acts & stop & Hy & Hq & _ & Ht & _).
  destruct (yield r st) as [ry st1]; simpl in *. subst ry.
  unfold take_head. destruct (action_queue st1) as [|a rest] eqn:Hq1; simpl.
  - intros _. split; [exact Hq1 |]. eexists. split; [exact Ht |].
    intros a Ha. destruct (action_queue st); [destruct Ha | discriminate Hq].
  - set (st2 := mkState rest _ _ _ _ _).
    unfold errback, mbind, M_bind, bind.
    destruct (yield_spec r st2) as (acts2 & stop2 & Hy2 & Hq2 & _ & Ht2 & _).
    destruct (yield r st2) as [ry2 st3]; simpl in *. subst ry2. simpl.
    set (st4 := mkState _ _ _ _ _ _).
    intros Hres. destruct (IH st4 Hres) as (Hempty & evs & Htr & Hin).
    split; [exact Hempty |].
    exists ((List.map Put acts ++ stop) ++ (List.map Put acts2 ++ stop2) ++
            [cancelled a] ++ evs).
    split.
    + rewrite Htr. unfold st4. simpl. rewrite Ht2. unfold st2. simpl. rewrite Ht.
      rewrite <- !app_assoc. reflexivity.
    + intros a0 Ha0.
      assert (Hmem : In a0 (a :: rest)).
      { rewrite Hq. apply in_or_app. left. exact Ha0. }
      rewrite !in_app_iff. destruct Hmem as [<- | Hrest].
      * right. right. left. left. reflexivity.
      * right. right. right. apply Hin. unfold st4. simpl. rewrite Hq2.
        unfold st2. simpl. apply in_or_app. left. exact Hrest.
Qed.

(** In the polling loop only actions put on the queue after [main] started
    are taken up. *)
Lemma process_action_fresh a :
  hoare fresh (runs_from n0) (process_action (W:=W) r a) any.
Proof.
  destruct a as [command d|d]; simpl; [| apply triple_ret; exact I].
  destruct (channels command) as [off on].
  repeat (apply triple_then;
          [ first [ apply triple_log_info | apply triple_for_each; intros;
                    apply triple_call ];
            first [ apply fresh_arrivals | intros; apply runs_from_other; discriminate ]
          |]).
  apply triple_ret. exact I.
Qed.

Lemma fresh_tail a q n : fresh (a :: q) n -> fresh q n.
Proof. intros [Hn Hq]. split; [exact Hn | eapply Forall_inv_tail, Hq]. Qed.

Lemma process_actions_fresh fuel :
  hoare fresh (runs_from n0) (_process_actions (W:=W) r fuel) any.
Proof.
  induction fuel as [|n IH]; simpl.
  - apply triple_ret. exact I.
  - eapply triple_bind.
    + apply triple_pop;
        first [ apply fresh_arrivals | apply fresh_tail
              | intros; apply runs_from_other; discriminate ].
    + intros [a|] Ha; [| apply triple_ret; exact I].
      destruct (Ha a eq_refl) as (q & n' & _ & Hq).
      apply Forall_inv in Hq.
      apply triple_then; [| exact IH].
      apply triple_try.
      * apply triple_then.
        -- apply triple_log_info;
             first [ apply fresh_arrivals
                   | intros; apply runs_from_other; discriminate | idtac ].
           intros a' [= <-]. exact Hq.
        -- eapply triple_bind; [apply process_action_fresh | intros res _].
           apply triple_callback;
             first [ apply fresh_arrivals | intros; apply runs_from_other; discriminate ].
      * intros e c [= <-].
        apply triple_then;
          [ apply triple_log_error | apply triple_errback ];
          first [ apply fresh_arrivals | intros; apply runs_from_other; discriminate ].
Qed.

Ltac fresh_side :=
  first [ apply fresh_arrivals | intros; apply runs_from_other; discriminate ].

Lemma get_and_publish_fresh :
  hoare fresh (runs_from n0) (_get_and_publish_data (W:=W) r) any.
Proof.
  unfold _get_and_publish_data.
  eapply triple_bind.
  { apply triple_then; [apply triple_yield | apply triple_read_time]; fresh_side. }
  intros now _. eapply triple_bind; [apply triple_call; fresh_side |].
  intros s _.
  apply triple_then; [apply triple_yield; fresh_side |].
  apply triple_then; [apply triple_emit; fresh_side | apply triple_set_data].
Qed.

Lemma poll_fresh inner fuel last_daq :
  hoare fresh (runs_from n0) (poll (W:=W) r inner fuel last_daq) any.
Proof.
  revert last_daq. induction fuel as [|n IH]; intros last_daq; simpl.
  - apply triple_ret. exact I.
  - eapply triple_bind.
    { apply triple_then; [apply triple_yield | apply triple_read_status]; fresh_side. }
    intros b _. destruct b; [| apply triple_ret; exact I].
    eapply triple_bind.
    { apply triple_then; [apply triple_yield | apply triple_read_time]; fresh_side. }
    intros now _. eapply triple_bind.
    { instantiate (1 := any). destruct (Qle_bool (now - last_daq) 5).
      - apply triple_ret. exact I.
      - apply triple_then; [apply get_and_publish_fresh | apply triple_ret; exact I]. }
    intros last _. eapply triple_bind; [apply process_actions_fresh |].
    intros done _. destruct done; [| apply triple_ret; exact I].
    apply triple_then; [apply triple_yield; fresh_side |].
    apply triple_then; [apply triple_emit; fresh_side | apply IH].
Qed.

Lemma poll_and_close_fresh inner fuel :
  hoare fresh (runs_from n0)
    (polled ← poll (W:=W) r inner fuel 0%Q;
     match polled with
     | Some _ => call r close Close ;; mret (Some tt)
     | None => mret None
     end) any.
Proof.
  eapply triple_bind; [apply poll_fresh | intros polled _].
  destruct polled; [| apply triple_ret; exact I].
  apply triple_then; [apply triple_call; fresh_side | apply triple_ret; exact I].
Qed.

End Main.

Lemma split_after_prefix {A} (l1 l2 pre post : list A) (x : A) :
  l1 ++ l2 = pre ++ x :: post -> ~ In x l1 -> exists pre', pre = l1 ++ pre'.
Proof.
  revert pre. induction l1 as [|y l1 IH]; intros pre Heq Hnin.
  - exists pre. reflexivity.
  - destruct pre as [|z pre]; simpl in Heq; injection Heq as Hy Heq.
    + destruct Hnin. left. exact Hy.
    + subst z. destruct (IH pre Heq) as [pre' ->].
      * intros Hin. apply Hnin. right. exact Hin.
      * exists pre'. reflexivity.
Qed.

Lemma calm_not_in (evs : list event) (e : event) :
  Forall is_calm evs -> calm e = false -> ~ In e evs.
Proof.
  intros Hc He Hin. rewrite List.Forall_forall in Hc.
  specialize (Hc e Hin). unfold is_calm in Hc. congruence.
Qed.

Section Cancellation.

Context `{Hardware W}.
Variable r : reactor.

(** The actions at the front of the queue are cancelled within as many
    unrollings of the first loop, whatever is put behind them meanwhile. *)
Lemma cancel_queued_front fuel (st : state W) (q1 q2 : list action) :
  action_queue st = q1 ++ q2 ->
  length q1 <= fuel ->
  exists evs,
    trace (cancel_queued r fuel st).2 = trace st ++ evs /\
    forall a, In a q1 -> In (cancelled a) evs.
Proof.
  revert st q1 q2. induction fuel as [|n IH]; intros st q1 q2 Hq Hlen.
  - destruct q1; [| simpl in Hlen; lia].
    exists []. simpl. rewrite app_nil_r. split; [reflexivity | intros a []].
  - destruct q1 as [|a1 q1].
    { destruct (cancel_queued_calm r 0 (S n) st) as (_ & (evs & Ht & _) & _).
      - unfold counted. lia.
      - exists evs. split; [exact Ht | intros a []]. }
    simpl in Hlen. simpl. unfold pop, mbind, M_bind, bind.
    destruct (yield_spec r st) as (acts & stop & Hy & Hq1 & _ & Ht & _).
    destruct (yield r st) as [ry st1]; simpl in *. subst ry.
    unfold take_head. rewrite Hq1, Hq. simpl.
    set (st2 := mkState _ _ _ _ _ _).
    unfold errback, mbind, M_bind, bind.
    destruct (yield_spec r st2) as (acts2 & stop2 & Hy2 & Hq2 & _ & Ht2 & _).
    destruct (yield r st2) as [ry2 st3]; simpl in *. subst ry2. simpl.
    set (st4 := mkState _ _ _ _ _ _).
    destruct (IH st4 q1 ((q2 ++ acts) ++ acts2)) as (evs & Htr & Hin).
    { unfold st4. simpl. rewrite Hq2. unfold st2. simpl.
      rewrite <- !app_assoc. reflexivity. }
    { lia. }
    exists ((List.map Put acts ++ stop) ++ (List.map Put acts2 ++ stop2) ++
            [cancelled a1] ++ evs).
    split.
    + rewrite Htr. unfold st4. simpl. rewrite Ht2. unfold st2. simpl. rewrite Ht.
      rewrite <- !app_assoc. reflexivity.
    + intros a Ha. rewrite !in_app_iff. destruct Ha as [<- | Ha].
      * right. right. left. left. reflexivity.
      * right. right. right. apply Hin, Ha.
Qed.

Lemma is_ok_bind {A B} (m : M (state W) A) (k : A -> M (state W) B) (st : state W) :
  is_ok (m st).1 = true -> (forall x, returns (k x)) ->
  is_ok ((m ≫= k) st).1 = true.
Proof.
  intros Hm Hk. unfold mbind, M_bind, bind.
  destruct (m st) as [[x|e] st1]; [apply Hk | discriminate Hm].
Qed.

(** The lines of [main] before its first loop return when the port opens. *)
Lemma connect_and_start_returns port (st : state W) :
  is_ok (connect port (world st)).1 = true ->
  is_ok (connect_and_start r port st).1 = true.
Proof.
  intros Hc. unfold connect_and_start. apply is_ok_bind.
  - unfold call, mbind, M_bind, bind.
    destruct (yield_spec r st) as (acts & stop & Hy & _ & _ & _ & _ & _ & Hw & _).
    destruct (yield r st) as [ry st1]; simpl in *. subst ry.
    unfold extern. rewrite Hw.
    destruct (connect port (world st)) as [res w]. exact Hc.
  - intros ?. apply returns_bind; [apply returns_log_info | intros ?].
    apply returns_bind; [apply returns_yield | intros ? ?; reflexivity].
Qed.


End Cancellation.


End HWPPCUFacts.

(** ** SupRsync: error paths, the life of the loop *)

Module SupRsyncMore.
Import SupRsync SupRsyncFacts SupRsyncExtra.

Section Loop.

Context `{World W}.

Lemma path_no_stop (a : args) (w : W) r new w' :
  path a w r new w' -> existsb is_stop_call new = false.
Proof. intros Hp. destruct Hp; try destruct rc; reflexivity. Qed.



Lemma run_loop_exit_flag sr (a : args) (fuel : nat) (st : state W) :
  (run_loop sr a fuel st).1 = Ok (Some tt) ->
  running (run_loop sr a fuel st).2 = false.
Proof.
  revert st. induction fuel as [|n IH]; intros st; [discriminate |].
  simpl. unfold mbind, M_bind, bind.
  destruct (test_running_spec sr st) as (Hr & _ & _).
  destruct (test_running sr st) as [rb st1]; simpl in *. subst rb.
  destruct (running st1) eqn:Hrun; simpl; [| intros _; exact Hrun].
  destruct (iteration sr a st1) as [[[]|e] st2]; simpl; [apply IH | discriminate].
Qed.

(** X3. The loop returns only when it has been stopped: if [run]'s loop,
    entered with [self.running] set, returns, then [_stop] was called
    meanwhile.  Nothing in [run] itself clears the flag. *)
Theorem X3_loop_returns_only_after_stop
    sr (a : args) (fuel : nat) (st : state W) :
  running st = true ->
  (run_loop sr a fuel st).1 = Ok (Some tt) ->
  exists evs,
    trace (run_loop sr a fuel st).2 = trace st ++ evs /\ In StopCalled evs.
Proof.
  intros Hrun Hres.
  destruct (advances_run_loop sr a fuel st) as (evs & Ht & Hr & _).
  exists evs. split; [exact Ht |].
  rewrite (run_loop_exit_flag sr a fuel st Hres), Hrun in Hr.
  destruct (existsb is_stop_call evs) eqn:Hex; [| discriminate Hr].
  apply existsb_exists in Hex. destruct Hex as (e & Hin & He).
  destruct e; try discriminate He. exact Hin.
Qed.

(** *** A loop that is not stopped *)

Section Steady.

Variable a : args.

Hypothesis select_returns :
  forall arch s d m (w : W), is_ok (get_next_file arch s d m w).1 = true.
Hypothesis commit_returns :
  forall s (w : W), is_ok (session_commit s w).1 = true.
Hypothesis handler_raises_timeouts_only :
  forall f s (w : W) e, (handle_file f s w).1 = Raise e -> e = TimeoutExpired.
Hypothesis wait_accepted : is_ok (sleep_length (arg_timeout_wait a)) = true.

Lemma steady_path (w : W) r new w' :
  path a w r new w' -> r = Ok tt /\ selections new = 1.
Proof.
  intros Hp. destruct Hp as [s w1 e w2 Hb Hs|s w1 w2 rc w3 Hb Hs Hc
                            |s w1 f w2 w3 rc w4 Hb Hs Hh Hc
                            |s w1 f w2 w3 d rc w4 Hb Hs Hh Hq Hc
                            |s w1 f w2 w3 e Hb Hs Hh Hq|s w1 f w2 e w3 Hb Hs Hh Hne].
  - pose proof (select_returns (arg_archive_name a) s (arg_delete_after a)
                  (arg_max_copy_attempts a) w1) as Hok.
    unfold select in Hs. rewrite Hs in Hok. discriminate Hok.
  - pose proof (commit_returns s w2) as Hok. rewrite Hc in Hok.
    destruct rc as [[]|e]; [| discriminate Hok]. split; reflexivity.
  - pose proof (commit_returns s w3) as Hok. rewrite Hc in Hok.
    destruct rc as [[]|e]; [| discriminate Hok]. split; reflexivity.
  - pose proof (commit_returns s w3) as Hok. rewrite Hc in Hok.
    destruct rc as [[]|e]; [| discriminate Hok]. split; reflexivity.
  - rewrite Hq in wait_accepted. discriminate wait_accepted.
  - destruct Hne. apply (handler_raises_timeouts_only f s w2). rewrite Hh. reflexivity.
Qed.

Lemma steady_iteration (st : state W) :
  (iteration never a st).1 = Ok tt /\
  running (iteration never a st).2 = running st /\
  exists new,
    trace (iteration never a st).2 = trace st ++ new /\ selections new = 1.
Proof.
  destruct (iteration_never a st) as (r & new & w' & Hp & Hr & _ & Ht).
  destruct (steady_path _ _ _ _ Hp) as [-> Hn].
  destruct (advances_iteration never a st) as (evs & Ht' & Hrun & _).
  assert (evs = new) as -> by (rewrite Ht in Ht'; eapply app_inv_head, eq_sym, Ht').
  rewrite (path_no_stop _ _ _ _ _ Hp) in Hrun.
  repeat split; [exact Hr | exact Hrun |]. exists new. split; assumption.
Qed.

Lemma selections_app (e1 e2 : list event) :
  selections (e1 ++ e2) = selections e1 + selections e2.
Proof. unfold selections. rewrite List.filter_app, length_app. reflexivity. Qed.

(** X4. Only a stop request or an exception that [run] does not catch ends
    the loop.  With a store whose selection and commit return, a handler
    that raises nothing but subprocess.TimeoutExpired, and a [timeout_wait]
    that [time.sleep] accepts, a loop that is never asked to stop is still
    running after any number of iterations, and has polled the store once in
    each of them. *)
Theorem X4_loop_polls_until_stopped (fuel : nat) (st : state W) :
  running st = true ->
  (run_loop never a fuel st).1 = Ok None /\
  exists evs,
    trace (run_loop never a fuel st).2 = trace st ++ evs /\ selections evs = fuel.
Proof.
  revert st. induction fuel as [|n IH]; intros st Hrun.
  - split; [reflexivity |]. exists []. simpl. rewrite app_nil_r. split; reflexivity.
  - rewrite run_loop_first by (assumption || reflexivity).
    set (st1 := mkState true (status st) (trace st ++ [TestRunning true]) (world st)).
    destruct (steady_iteration st1) as (Hr & Hk & new & Ht & Hn).
    unfold mbind, M_bind, bind.
    destruct (iteration never a st1) as [r st2]; simpl in *. subst r.
    destruct (IH st2 Hk) as (Hres & evs & Hte & Hne).
    split; [exact Hres |].
    exists ([TestRunning true] ++ new ++ evs). split.
    + rewrite Hte, Ht, <- !app_assoc. reflexivity.
    + rewrite !selections_app, Hn, Hne. reflexivity.
Qed.

End Steady.

(** *** One file at a time *)

Lemma path_handles_the_selected (a : args) (w : W) r new w' :
  path a w r new w' -> handles_the_selected new.
Proof.
  intros Hp. destruct Hp; try destruct rc; (split; [cbv; lia |]);
    intros f' s' r' Hin; simpl in Hin;
    repeat match goal with
           | Hor : _ \/ _ |- _ => destruct Hor
           | Hf : False |- _ => destruct Hf
           | He : _ = HandleFile _ _ _ |- _ =>
               first [discriminate He | injection He as <- <- <-]
           end;
    eexists; reflexivity.
Qed.

(** X6. In every iteration, over any run of the loop, [handle_file] is
    called at most once, and only on the file that [get_next_file] returned
    in that iteration, on the same session and right after the selection;
    when the selection returns no file, nothing is handled. *)
Theorem X6_handles_only_the_selected_file
    sr (a : args) (fuel : nat) (st : state W) :
  exists new,
    loop_events (trace (run_loop sr a fuel st).2) = loop_events (trace st) ++ new /\
    iterations handles_the_selected new.
Proof.
  destruct (run_loop_iterations sr a fuel st) as (new & Ht & Hit).
  exists new. split; [exact Ht |].
  eapply iterations_mono; [| exact Hit].
  intros evs (w & r & w' & Hp). eapply path_handles_the_selected, Hp.
Qed.

(** X7. The loop asks the store for work at most once every three seconds:
    an iteration that returns has made one call of [get_next_file] and has
    slept at least three seconds. *)
Theorem X7_one_selection_per_three_seconds
    sr (a : args) (st st' : state W) :
  iteration sr a st = (Ok tt, st') ->
  exists new,
    loop_events (trace st') = loop_events (trace st) ++ new /\
    selections new = 1 /\
    (3 <= time_slept new)%Q.
Proof.
  intros Hi.
  destruct (iteration_path sr a st) as (r & new & w' & Hp & Hr & _ & Ht).
  rewrite Hi in Hr, Ht; simpl in *. subst r.
  exists new. split; [exact Ht |].
  inversion Hp; subst; (split; [reflexivity |]); unfold time_slept; simpl;
    try match goal with
        | Hq : sleep_length _ = Ok _ |- _ => apply sleep_length_Ok in Hq as (_ & Hq & _)
        end; lra.
Qed.

(** *** The lines of [run] before the loop *)

(** X8. When SupRsyncFilesManager(...) raises, [run] ends with that
    exception having done nothing else.  When SupRsyncFileHandler(...)
    raises, [run] ends with that exception before any transaction is begun,
    and, if it was not asked to stop, leaves [self.running] True and the
    session status "running". *)
Theorem X8_constructor_failures sr (a : args) (fuel : nat) (st : state W) :
  (forall e w1,
      open_manager (arg_db_path a) (world st) = (Raise e, w1) ->
      (run sr a fuel st).1 = Raise e /\
      loop_events (trace (run sr a fuel st).2) =
        loop_events (trace st) ++ [OpenManager (Raise e)] /\
      world (run sr a fuel st).2 = w1) /\
  (forall w1 e w2,
      open_manager (arg_db_path a) (world st) = (Ok tt, w1) ->
      make_handler (arg_remote_basedir a) (arg_delete_after a) w1 = (Raise e, w2) ->
      (run sr a fuel st).1 = Raise e /\
      loop_events (trace (run sr a fuel st).2) =
        loop_events (trace st) ++
          [OpenManager (Ok tt); SetStatus "running"; MakeHandler (Raise e)] /\
      world (run sr a fuel st).2 = w2 /\
      ((forall tr, sr tr = false) ->
       running (run sr a fuel st).2 = true /\
       status (run sr a fuel st).2 = "running")).
Proof.
  split.
  - intros e w1 Ho.
    unfold run, call, yield, extern, mbind, M_bind, bind.
    destruct (sr (trace st)); simpl; rewrite Ho; simpl;
      rewrite !loop_events_app; simpl; rewrite ?app_nil_r; auto.
  - intros w1 e w2 Ho Hm.
    unfold run, call, yield, extern, set_running, set_status, _stop, emit,
      mbind, M_bind, bind.
    repeat match goal with
           | |- context [sr ?t] => destruct (sr t) eqn:?; simpl
           | |- context [open_manager _ _] => rewrite Ho; simpl
           | |- context [make_handler _ _ _] => rewrite Hm; simpl
           end.
    all: split; [reflexivity |]; split;
      [rewrite !loop_events_app; simpl; rewrite ?app_nil_r, <- ?app_assoc; reflexivity |];
      split; [reflexivity |]; intros Hnever;
      repeat match goal with
             | Hs : _ = true |- _ => rewrite Hnever in Hs; discriminate Hs
             end; split; reflexivity.
Qed.

(** X5. A call of [_stop] that is handled before [run] has executed
    [self.running = True] is lost, whether it comes before the manager is
    opened or after: whatever the reactor thread has done until then, the
    flag is True after that statement, and [run] goes on from there.  If no
    further call is made, the first test of the loop finds the flag set and
    an iteration begins. *)
Theorem X5_stop_before_start_is_lost
    (sr : list event -> bool) (a : args) (fuel : nat) (st : state W) w1 :
  open_manager (arg_db_path a) (world st) = (Ok tt, w1) ->
  let e1 := if sr (trace st) then stop_events else [] in
  let t1 := trace st ++ e1 ++ [OpenManager (Ok tt)] in
  let e2 := if sr t1 then stop_events else [] in
  let s := if sr (trace st) || sr t1 then "stopping" else status st in
  let t2 := t1 ++ e2 in
  run sr a fuel st =
    (yield sr ;; set_status "running" ;;
     call sr (make_handler (arg_remote_basedir a) (arg_delete_after a)) MakeHandler ;;
     run_loop sr a fuel) (mkState true s t2 w1) /\
  (forall w2 n,
      fuel = S n ->
      make_handler (arg_remote_basedir a) (arg_delete_after a) w1 = (Ok tt, w2) ->
      sr t2 = false ->
      sr (t2 ++ [SetStatus "running"]) = false ->
      sr (t2 ++ [SetStatus "running"; MakeHandler (Ok tt)]) = false ->
      run sr a fuel st =
        (iteration sr a ;; run_loop sr a n)
          (mkState true "running"
             (t2 ++ [SetStatus "running"; MakeHandler (Ok tt); TestRunning true]) w2)).
Proof.
  intros Ho e1 t1 e2 s t2.
  assert (Hrun : run sr a fuel st =
            (yield sr ;; set_status "running" ;;
             call sr (make_handler (arg_remote_basedir a) (arg_delete_after a))
               MakeHandler ;;
             run_loop sr a fuel) (mkState true s t2 w1)).
  { unfold run.
    remember (yield sr ;; set_status "running" ;;
              call sr (make_handler (arg_remote_basedir a) (arg_delete_after a))
                MakeHandler ;;
              run_loop sr a fuel) as rest eqn:Hrest.
    clear Hrest.
    unfold call, yield, extern, set_running, _stop, set_status, emit, mbind, M_bind, bind.
    subst t2 e2 s t1 e1. unfold stop_events.
    destruct (sr (trace st)) eqn:Hs1; simpl; rewrite Ho; simpl;
      rewrite <- ?app_assoc; simpl;
      match goal with
      | |- context [sr ?t] => destruct (sr t) eqn:Hs2
      end; simpl; rewrite <- ?app_assoc; reflexivity. }
  split; [exact Hrun |].
  intros w2 n -> Hm Hs3 Hs4 Hs5. rewrite Hrun. clear Hrun. clearbody t2 s.
  remember (run_loop sr a (S n)) as loop eqn:Hloop.
  unfold call, yield, extern, set_status, mbind, M_bind, bind.
  simpl. rewrite Hs3. simpl. rewrite Hs4. simpl. rewrite Hm. simpl.
  subst loop. rewrite run_loop_first.
  - simpl. rewrite <- !app_assoc. reflexivity.
  - reflexivity.
  - simpl. rewrite <- !app_assoc. exact Hs5.
Qed.

End Loop.

Lemma X3_witness :
  exists evs,
    trace (run_loop stop_after_selection args0 5 one_file).2 = trace one_file ++ evs /\
    In StopCalled evs.
Proof.
  apply (X3_loop_returns_only_after_stop stop_after_selection args0 5 one_file);
    reflexivity.
Defined.



Lemma X4_witness :
  (run_loop never args0 7 (mkState true "running" [] 0%nat)).1 = Ok None.
Proof.
  apply (X4_loop_polls_until_stopped (H:=stalled_world) args0); try reflexivity.
  intros f s w e [= <-]. reflexivity.
Defined.

Lemma X5_witness :
  run stop_after_open args0 1 (mkState false "starting" [] tt) =
    (iteration stop_after_open args0 ;; run_loop stop_after_open args0 0)
      (mkState true "running"
         ([OpenManager (Ok tt)] ++ stop_events ++
          [SetStatus "running"; MakeHandler (Ok tt); TestRunning true]) tt).
Proof.
  exact (proj2 (X5_stop_before_start_is_lost (H:=idle_world) stop_after_open args0 1
                  (mkState false "starting" [] tt) tt eq_refl)
           tt 0%nat eq_refl eq_refl eq_refl eq_refl eq_refl).
Defined.

Lemma X7_witness :
  exists new,
    loop_events (trace (iteration never args0 one_timeout).2) =
      loop_events (trace one_timeout) ++ new /\
    selections new = 1 /\ (3 <= time_slept new)%Q.
Proof.
  exact (X7_one_selection_per_three_seconds never args0 one_timeout
           (iteration never args0 one_timeout).2 eq_refl).
Defined.

Lemma X8_witness :
  (run never args0 3 (mkState false "starting" [] false)).1 = Raise OperationalError /\
  running (run never args0 3 (mkState false "starting" [] true)).2 = true.
Proof.
  destruct (X8_constructor_failures never args0 3 (mkState false "starting" [] false))
    as [Hopen _].
  destruct (X8_constructor_failures never args0 3 (mkState false "starting" [] true))
    as [_ Hmake].
  split.
  - exact (proj1 (Hopen OperationalError false eq_refl)).
  - destruct (Hmake true OSError true eq_refl eq_refl) as (_ & _ & _ & Hflags).
    exact (proj1 (Hflags (fun _ => eq_refl))).
Defined.

End SupRsyncMore.

(** ** PysmurfMonitor: the constructor, the [init] task, malformed datagrams *)

Module PysmurfMore.
Import Pysmurf PysmurfFacts PysmurfAgent.

(** *** Splitting the agent address *)

Lemma split_dot_cons (s : string) : exists piece pieces, split_dot s = piece :: pieces.
Proof.
  induction s as [|c s IH]; simpl; [eauto |].
  destruct (Ascii.eqb c dot); [eauto |].
  destruct IH as (piece & pieces & ->). eauto.
Qed.

Lemma join_split_dot (s : string) : join_dot (split_dot s) = s.
Proof.
  induction s as [|c s IH]; [reflexivity |]. simpl.
  destruct (Ascii.eqb_spec c dot) as [-> | Hne].
  - destruct (split_dot_cons s) as (piece & pieces & Hs). rewrite Hs in *.
    change (join_dot ("" :: piece :: pieces))
      with (String dot (join_dot (piece :: pieces))).
    rewrite IH. reflexivity.
  - destruct (split_dot_cons s) as (piece & pieces & Hs). rewrite Hs in *.
    destruct pieces as [|p pieces].
    + simpl in *. rewrite IH. reflexivity.
    + change (join_dot (String c piece :: p :: pieces))
        with (String c (piece +:+ String dot (join_dot (p :: pieces)))).
      change (join_dot (piece :: p :: pieces))
        with (piece +:+ String dot (join_dot (p :: pieces))) in IH.
      rewrite IH. reflexivity.
Qed.

Lemma length_split_dot (s : string) : length (split_dot s) = S (dots s).
Proof.
  induction s as [|c s IH]; [reflexivity |]. simpl.
  destruct (Ascii.eqb c dot); simpl; [rewrite IH; reflexivity |].
  destruct (split_dot_cons s) as (piece & pieces & Hs). rewrite Hs in *. exact IH.
Qed.

Lemma split_dot_pieces (s : string) : Forall (fun piece => dots piece = 0) (split_dot s).
Proof.
  induction s as [|c s IH]; simpl; [repeat constructor |].
  destruct (Ascii.eqb c dot) eqn:Hc; [constructor; [reflexivity | exact IH] |].
  destruct (split_dot_cons s) as (piece & pieces & Hs). rewrite Hs in *.
  inversion IH as [|? ? Hp Hps]; subst. constructor; [| exact Hps].
  simpl. rewrite Hc, Hp. reflexivity.
Qed.

Lemma split_dot_join (site instance : string) :
  dots site = 0 -> dots instance = 0 ->
  split_dot (site +:+ String dot instance) = [site; instance].
Proof.
  intros Hs Hi. induction site as [|c site IH]; simpl.
  - rewrite ?Ascii.eqb_refl. f_equal.
    clear Hs. induction instance as [|c instance IH]; [reflexivity |].
    simpl in *. destruct (Ascii.eqb c dot); [discriminate Hi |].
    rewrite (IH Hi). reflexivity.
  - simpl in Hs. destruct (Ascii.eqb c dot); [discriminate Hs |].
    rewrite (IH Hs). reflexivity.
Qed.

(** X9. [__init__] takes the agent address apart at its dot and the parts
    put together again give the address: it succeeds only for an address of
    the form site.instance with no other dot, raises ValueError exactly when
    the address does not have one dot, and for an address of that form does
    not raise ValueError. *)
Theorem X9_address_is_site_dot_instance
    (agent_address : string) (create_table_arg : pyval)
    (environ : gmap string string) (version : string) :
  (forall self,
      __init__ agent_address create_table_arg environ version = Ok self ->
      exists site instance,
        agent_address = site +:+ String dot instance /\
        dots site = 0 /\ dots instance = 0 /\
        file_info self = base_file_info site instance version /\
        create_table self = truthy create_table_arg) /\
  (__init__ agent_address create_table_arg environ version = Raise ValueError <->
   dots agent_address <> 1) /\
  (forall site instance,
      dots site = 0 -> dots instance = 0 ->
      environ !! "MYSQL_USER" <> None -> environ !! "MYSQL_PASSWORD" <> None ->
      is_ok (__init__ (site +:+ String dot instance) create_table_arg environ version)
        = true).
Proof.
  split; [| split].
  - intros self Hinit. unfold __init__ in Hinit.
    pose proof (join_split_dot agent_address) as Hjoin.
    pose proof (split_dot_pieces agent_address) as Hpieces.
    destruct (split_dot agent_address) as [|site [|instance [|more pieces]]];
      try discriminate Hinit.
    apply Forall_cons in Hpieces as [Hs Hrest].
    apply Forall_cons in Hrest as [Hi _].
    exists site, instance. cbn [join_dot] in Hjoin.
    destruct (environ !! "MYSQL_USER"); [| discriminate Hinit].
    destruct (environ !! "MYSQL_PASSWORD"); [| discriminate Hinit].
    injection Hinit as <-. simpl. auto.
  - pose proof (length_split_dot agent_address) as Hlen. unfold __init__.
    destruct (split_dot agent_address) as [|site [|instance [|more pieces]]];
      simpl in Hlen.
    + discriminate Hlen.
    + split; [intros _; lia | reflexivity].
    + split; [| intros Hx; lia].
      intros Hx. destruct (environ !! "MYSQL_USER"); [| discriminate Hx].
      destruct (environ !! "MYSQL_PASSWORD"); discriminate Hx.
    + split; [intros _; lia | reflexivity].
  - intros site instance Hs Hi Hu Hp. unfold __init__.
    rewrite (split_dot_join _ _ Hs Hi).
    destruct (environ !! "MYSQL_USER"); [| destruct Hu; reflexivity].
    destruct (environ !! "MYSQL_PASSWORD"); [| destruct Hp; reflexivity].
    reflexivity.
Qed.

(** X10. What [__init__] reads from the environment: without MYSQL_USER it
    raises KeyError for it (also when the password is missing too), without
    MYSQL_PASSWORD alone KeyError for that; otherwise the pool is configured
    with exactly the user, the password, the database "files" and, when and
    only when MYSQL_HOST is set, that host. *)
Theorem X10_pool_configuration_from_environment
    (agent_address : string) (create_table_arg : pyval)
    (environ : gmap string string) (version : string) :
  dots agent_address = 1 ->
  (environ !! "MYSQL_USER" = None ->
   __init__ agent_address create_table_arg environ version =
     Raise (KeyError "MYSQL_USER")) /\
  (forall user,
      environ !! "MYSQL_USER" = Some user ->
      environ !! "MYSQL_PASSWORD" = None ->
      __init__ agent_address create_table_arg environ version =
        Raise (KeyError "MYSQL_PASSWORD")) /\
  (forall user passwd,
      environ !! "MYSQL_USER" = Some user ->
      environ !! "MYSQL_PASSWORD" = Some passwd ->
      exists self,
        __init__ agent_address create_table_arg environ version = Ok self /\
        sql_config self !! "user" = Some user /\
        sql_config self !! "passwd" = Some passwd /\
        sql_config self !! "database" = Some "files" /\
        sql_config self !! "host" = environ !! "MYSQL_HOST" /\
        forall key, key <> "user" -> key <> "passwd" -> key <> "database" ->
                    key <> "host" -> sql_config self !! key = None).
Proof.
  intros Hdots. pose proof (length_split_dot agent_address) as Hlen.
  rewrite Hdots in Hlen. unfold __init__.
  destruct (split_dot agent_address) as [|site [|instance [|more pieces]]];
    try discriminate Hlen.
  split; [| split].
  - intros ->. reflexivity.
  - intros user -> ->. reflexivity.
  - intros user passwd -> ->.
    destruct (environ !! "MYSQL_HOST") as [host|]; eexists; (split; [reflexivity |]);
      simpl; repeat split; try (by simplify_map_eq);
      intros key ? ? ? ?; by simplify_map_eq.
Qed.

Lemma X10_witness :
  exists self,
    __init__ "observatory.pysmurf-monitor" (PBool true) environ0 "0.1.0" = Ok self /\
    sql_config self !! "host" = None.
Proof.
  destruct (X10_pool_configuration_from_environment
              "observatory.pysmurf-monitor" (PBool true) environ0 "0.1.0" eq_refl)
    as (_ & _ & Hok).
  destruct (Hok "smurf" "secret" eq_refl eq_refl) as (self & Hi & _ & _ & _ & Hh & _).
  exists self. split; [exact Hi | exact Hh].
Defined.

Lemma X9_witness :
  is_ok (__init__ ("observatory" +:+ String dot "pysmurf-monitor") (PBool true)
           environ0 "0.1.0") = true.
Proof.
  apply (proj2 (proj2 (X9_address_is_site_dot_instance
                         "observatory.pysmurf-monitor" (PBool true) environ0 "0.1.0")));
    try reflexivity; discriminate.
Defined.

(** *** The [init] task *)

Ltac in_cases :=
  repeat match goal with
         | Hin : In _ _ |- _ => simpl in Hin
         | Hor : _ \/ _ |- _ => destruct Hor
         | Hf : False |- _ => destruct Hf
         | He : _ = _ |- _ => first [discriminate He | injection He as <-]
         end.

Section InitTask.

Context `{Database W}.

(** X11. [init] gives the connection back whenever it got as far as the
    try block: once [con.cursor()] has returned, [dbpool.disconnect(con)] is
    the last thing [init] does, whether the table was created and committed
    or one of the two raised.  [con.commit()] is only reached after
    [create_table] has returned; an exception of either is raised again
    when the disconnect returns; and [init] returns only after both have
    returned and the connection is back. *)
Theorem X11_init_disconnects_after_the_try
    (self : monitor) (params : option (gmap string pyval)) (st : list db_event * W) :
  exists new,
    (init self params st).2.1 = st.1 ++ new /\
    (In (Cursor (Ok tt)) new ->
     exists pre rd, new = pre ++ [Disconnect rd] /\ forall r, ~ In (Disconnect r) pre) /\
    (forall r, In (Commit r) new -> In (CreateTable (Ok tt)) new) /\
    (forall e, In (CreateTable (Raise e)) new \/ In (Commit (Raise e)) new ->
               In (Disconnect (Ok tt)) new -> (init self params st).1 = Raise e) /\
    (is_ok (init self params st).1 = true -> wants_table self params = true ->
     In (Commit (Ok tt)) new /\ In (Disconnect (Ok tt)) new).
Proof.
  unfold init, db_call, try_finally, mbind, M_bind, bind, mret, M_ret, ret.
  destruct (wants_table self params); simpl.
  2:{ exists []. rewrite app_nil_r. repeat split; intros; in_cases. }
  destruct (db_connect st.2) as [[[]|e1] w1]; simpl.
  2:{ exists [Connect (Raise e1)]. repeat split; intros; in_cases. }
  destruct (db_cursor w1) as [[[]|e2] w2]; simpl.
  2:{ exists [Connect (Ok tt); Cursor (Raise e2)]. rewrite <- app_assoc.
      repeat split; intros; in_cases. }
  destruct (db_create_table w2) as [[[]|e3] w3]; simpl.
  - destruct (db_commit w3) as [[[]|e4] w4]; simpl;
      destruct (db_disconnect w4) as [[[]|e5] w5]; simpl;
      eexists [Connect (Ok tt); Cursor (Ok tt); CreateTable (Ok tt); Commit _; Disconnect _];
      rewrite <- !app_assoc; (split; [reflexivity |]); (split; [| split; [| split]]);
      try (intros _; eexists [_; _; _; _], _; split; [reflexivity |];
           intros r Hin; in_cases);
      try (intros; in_cases; simpl; auto 10; fail).
  - destruct (db_disconnect w3) as [[[]|e5] w5]; simpl;
      eexists [Connect (Ok tt); Cursor (Ok tt); CreateTable _; Disconnect _];
      rewrite <- !app_assoc; (split; [reflexivity |]); (split; [| split; [| split]]);
      try (intros _; eexists [_; _; _], _; split; [reflexivity |];
           intros r Hin; in_cases);
      try (intros; in_cases; simpl; auto 10; fail).
Qed.

(** X12. Two ways in which [init] leaves without giving a connection back:
    when [dbpool.connect()] raises there is none; when [con.cursor()]
    raises, the connection that was obtained is not disconnected, since the
    cursor is made before the try block.  Either exception leaves [init]. *)
Theorem X12_init_failures_before_the_try
    (self : monitor) (params : option (gmap string pyval)) (st : list db_event * W) :
  wants_table self params = true ->
  (forall e w1,
      db_connect st.2 = (Raise e, w1) ->
      init self params st = (Raise e, (st.1 ++ [Connect (Raise e)], w1))) /\
  (forall w1 e w2,
      db_connect st.2 = (Ok tt, w1) ->
      db_cursor w1 = (Raise e, w2) ->
      init self params st =
        (Raise e, (st.1 ++ [Connect (Ok tt); Cursor (Raise e)], w2))).
Proof.
  intros Hw. unfold init, db_call, try_finally, mbind, M_bind, bind. rewrite Hw.
  split.
  - intros e w1 ->. reflexivity.
  - intros w1 e w2 -> . simpl. intros ->. simpl. rewrite <- app_assoc. reflexivity.
Qed.

(** X13. Whether [init] touches the database is decided by the
    'create_table' entry of the call's [params] when there is one, by its
    truth value, and by the agent's own setting only when there is none
    (or no [params]).  When the answer is yes, the first thing [init] does
    is [dbpool.connect()], and when the five calls return, the table has
    been created and committed on that connection, the connection is given
    back, and [init] returns (True, 'Initialized agent').  When the answer
    is no, [init] does nothing and returns the same. *)
Theorem X13_init_create_table_parameter
    (self : monitor) (st : list db_event * W) :
  (forall params v,
      params !! "create_table" = Some v ->
      wants_table self (Some params) = truthy v) /\
  (forall params,
      params !! "create_table" = None ->
      wants_table self (Some params) = create_table self) /\
  wants_table self None = create_table self /\
  (forall params,
      wants_table self params = false ->
      init self params st = (Ok (true, "Initialized agent"), st)) /\
  (forall params,
      wants_table self params = true ->
      exists rest,
        (init self params st).2.1 = st.1 ++ Connect (db_connect st.2).1 :: rest) /\
  (forall params w1 w2 w3 w4 w5,
      wants_table self params = true ->
      db_connect st.2 = (Ok tt, w1) ->
      db_cursor w1 = (Ok tt, w2) ->
      db_create_table w2 = (Ok tt, w3) ->
      db_commit w3 = (Ok tt, w4) ->
      db_disconnect w4 = (Ok tt, w5) ->
      init self params st =
        (Ok (true, "Initialized agent"),
         (st.1 ++ [Connect (Ok tt); Cursor (Ok tt); CreateTable (Ok tt); Commit (Ok tt);
                   Disconnect (Ok tt)], w5))).
Proof.
  split; [| split; [| split; [| split; [| split]]]].
  - intros params v Hv. unfold wants_table. simpl. rewrite Hv. reflexivity.
  - intros params Hv. unfold wants_table. simpl. rewrite Hv. reflexivity.
  - reflexivity.
  - intros params Hw. unfold init, mbind, M_bind, bind. rewrite Hw. reflexivity.
  - intros params Hw.
    unfold init, db_call, try_finally, mbind, M_bind, bind, mret, M_ret, ret.
    rewrite Hw.
    destruct (db_connect st.2) as [[[]|e1] w1]; simpl; [| exists []; reflexivity].
    destruct (db_cursor w1) as [[[]|e2] w2]; simpl;
      [| eexists; rewrite <- app_assoc; reflexivity].
    destruct (db_create_table w2) as [[[]|e3] w3]; simpl;
      [destruct (db_commit w3) as [[[]|e4] w4]; simpl |];
      match goal with
      | |- context [db_disconnect ?w] => destruct (db_disconnect w) as [[[]|e5] w5]
      end; simpl; eexists; rewrite <- !app_assoc; reflexivity.
  - intros params w1 w2 w3 w4 w5 Hw H1 H2 H3 H4 H5.
    unfold init, db_call, try_finally, mbind, M_bind, bind, mret, M_ret, ret.
    rewrite Hw, H1. simpl. rewrite H2. simpl. rewrite H3. simpl. rewrite H4. simpl.
    rewrite H5. simpl. rewrite <- !app_assoc. reflexivity.
Qed.

End InitTask.

Lemma X12_witness :
  init monitor0 None ([], ["cursor"]) =
    (Raise OperationalError,
     ([Connect (Ok tt); Cursor (Raise OperationalError)], ["cursor"])).
Proof.
  exact (proj2 (X12_init_failures_before_the_try monitor0 None ([], ["cursor"]) eq_refl)
           ["cursor"] OperationalError ["cursor"] eq_refl eq_refl).
Defined.

Lemma X11_witness :
  exists pre rd,
    (init monitor0 None ([], ["commit"])).2.1 = pre ++ [Disconnect rd] /\
    (init monitor0 None ([], ["commit"])).1 = Raise OperationalError.
Proof.
  destruct (X11_init_disconnects_after_the_try monitor0 None ([], ["commit"]))
    as (new & Ht & Hfin & _ & Hraise & _).
  vm_compute in Ht. subst new.
  destruct (Hfin ltac:(simpl; auto)) as (pre & rd & Hnew & _).
  exists pre, rd. split.
  - vm_compute. exact Hnew.
  - apply Hraise; simpl; auto 10.
Defined.

Lemma X13_witness :
  init monitor0 (Some {["create_table" := PInt 0]}) ([], []) =
    (Ok (true, "Initialized agent"), ([], [])) /\
  init monitor0 (Some {["create_table" := PStr "yes"]}) ([], []) =
    (Ok (true, "Initialized agent"),
     ([] ++ [Connect (Ok tt); Cursor (Ok tt); CreateTable (Ok tt); Commit (Ok tt);
             Disconnect (Ok tt)], [])).
Proof.
  split.
  - exact (proj1 (proj2 (proj2 (proj2 (X13_init_create_table_parameter (H:=failing)
                                         monitor0 ([], [])))))
             (Some {["create_table" := PInt 0]}) eq_refl).
  - exact (proj2 (proj2 (proj2 (proj2 (proj2 (X13_init_create_table_parameter
                                                (H:=failing) monitor0 ([], []))))))
             (Some {["create_table" := PStr "yes"]}) [] [] [] [] []
             eq_refl eq_refl eq_refl eq_refl eq_refl eq_refl).
Defined.

(** *** [datagramReceived] and the callbacks of the insertion *)

Section Datagram.

Context `{Host}.

Lemma base_file_info_other site instance version (k : string) :
  ~ In k ["site"; "instance_id"; "copied"; "failed_copy_attempts"; "socs_version"] ->
  base_file_info site instance version !! k = None.
Proof.
  intros Hk. unfold base_file_info.
  rewrite !lookup_insert_ne by (intros <-; apply Hk; simpl; auto 10).
  apply lookup_empty.
Qed.

(** X14. [datagramReceived] returns without having done anything exactly
    for the datagrams that parse, have a 'type' and whose type is not
    'data_file': nothing is logged, no file is read, nothing is handed to
    the pool and no callback runs, whatever else the datagram holds (it
    need not have a payload). *)
Theorem X14_other_datagrams_are_ignored
    (info : gmap string pyval) (_data : string) (inserted : outcome unit)
    (tr : list event) :
  ((datagramReceived info _data tr).1 = Ok None <->
   exists data ty,
     json_loads _data = Ok data /\ getitem data "type" = Ok ty /\
     is_data_file ty = false) /\
  ((datagramReceived info _data tr).1 = Ok None ->
   datagramReceived info _data tr = (Ok None, tr) /\
   ingest info _data inserted tr = (Ok tt, tr)).
Proof.
  assert (Hiff : (datagramReceived info _data tr).1 = Ok None <->
                 exists data ty,
                   json_loads _data = Ok data /\ getitem data "type" = Ok ty /\
                   is_data_file ty = false).
  { unfold datagramReceived, lift, emit, call_get_md5sum, lookup_key,
      mbind, M_bind, bind, mret, M_ret, ret.
    split.
    - destruct (json_loads _data) as [data|e] eqn:Hj; simpl; [| discriminate].
      destruct (getitem data "type") as [ty|e] eqn:Hty; simpl; [| discriminate].
      destruct (is_data_file ty) eqn:Hdf; simpl; [| by exists data, ty].
      destruct (getitem data "payload") as [pl|e]; simpl; [| discriminate].
      destruct (getitem pl "path") as [fname|e]; simpl; [| discriminate].
      destruct (copy_dict pl) as [d|e]; simpl; [| discriminate].
      destruct (d !! "timestamp") as [ts|]; simpl; [| discriminate].
      destruct (utcfromtimestamp ts) as [t|e]; simpl; [| discriminate].
      destruct (<["timestamp" := t]> d !! "path") as [path|]; simpl; [| discriminate].
      destruct (get_md5sum path) as [m|e]; simpl; [| discriminate].
      destruct (<["md5sum" := PStr m]> (<["timestamp" := t]> d) !! "plot")
        as [plot|]; simpl; [| discriminate].
      destruct (py_int plot) as [n|e]; simpl; discriminate.
    - intros (data & ty & -> & Hty & Hdf). simpl. rewrite Hty. simpl.
      rewrite Hdf. reflexivity. }
  split; [exact Hiff |].
  intros Hnone. apply Hiff in Hnone as (data & ty & Hj & Hty & Hdf).
  assert (Hrun : datagramReceived info _data tr = (Ok None, tr)).
  { unfold datagramReceived, lift, mbind, M_bind, bind, mret, M_ret, ret.
    rewrite Hj. simpl. rewrite Hty. simpl. rewrite Hdf. reflexivity. }
  split; [exact Hrun |].
  unfold ingest, mbind, M_bind, bind. rewrite Hrun. reflexivity.
Qed.

(** X15. The order of the checks on an announcement of a data file whose
    payload is a dict with a 'path'.  The new-file line is logged first.  A
    payload without 'timestamp', or one whose timestamp cannot be
    converted, ends the call before the file is read.  The checksum is
    computed before 'plot' is looked at: a payload without 'plot', or one
    whose plot is no integer, ends the call after the file has been read.
    In each case the exception leaves [datagramReceived] and nothing is
    handed to the pool. *)
Theorem X15_order_of_the_checks
    (info : gmap string pyval) (_data : string) (tr : list event)
    (top payload : gmap string pyval) (path : pyval) :
  json_loads _data = Ok (PDict top) ->
  top !! "type" = Some (PStr "data_file") ->
  top !! "payload" = Some (PDict payload) ->
  payload !! "path" = Some path ->
  (payload !! "timestamp" = None ->
   datagramReceived info _data tr =
     (Raise (KeyError "timestamp"), tr ++ [LogInfo (NewFile path)])) /\
  (forall ts e,
      payload !! "timestamp" = Some ts -> utcfromtimestamp ts = Raise e ->
      datagramReceived info _data tr = (Raise e, tr ++ [LogInfo (NewFile path)])) /\
  (forall ts t e,
      payload !! "timestamp" = Some ts -> utcfromtimestamp ts = Ok t ->
      get_md5sum path = Raise e ->
      datagramReceived info _data tr =
        (Raise e, tr ++ [LogInfo (NewFile path); GetMd5sum path (Raise e)])) /\
  (forall ts t m,
      payload !! "timestamp" = Some ts -> utcfromtimestamp ts = Ok t ->
      get_md5sum path = Ok m ->
      (payload !! "plot" = None ->
       datagramReceived info _data tr =
         (Raise (KeyError "plot"),
          tr ++ [LogInfo (NewFile path); GetMd5sum path (Ok m)])) /\
      (forall plot e,
          payload !! "plot" = Some plot -> py_int plot = Raise e ->
          datagramReceived info _data tr =
            (Raise e, tr ++ [LogInfo (NewFile path); GetMd5sum path (Ok m)]))).
Proof.
  intros Hj Hty Hpl Hp.
  unfold datagramReceived, lift, emit, call_get_md5sum, lookup_key, getitem,
    mbind, M_bind, bind, mret, M_ret, ret.
  rewrite Hj. simpl. rewrite Hty. simpl. rewrite Hpl. simpl. rewrite Hp. simpl.
  split; [| split; [| split]].
  - intros ->. reflexivity.
  - intros ts e -> . simpl. intros ->. reflexivity.
  - intros ts t e -> . simpl. intros ->. simpl.
    rewrite lookup_insert_ne by done. rewrite Hp. simpl. intros ->. simpl.
    rewrite <- app_assoc. reflexivity.
  - intros ts t m -> . simpl. intros ->. simpl.
    rewrite lookup_insert_ne by done. rewrite Hp. simpl. intros ->. simpl.
    rewrite !lookup_insert_ne by done. rewrite <- app_assoc. simpl. split.
    + intros ->. reflexivity.
    + intros plot e -> . simpl. intros ->. reflexivity.
Qed.

(** X16. What the record handed to the pool holds.  Its 'timestamp' is the
    converted timestamp of the payload and its 'plot' the integer of the
    payload's plot; 'site', 'instance_id' and 'socs_version' are the
    agent's, whatever the payload says; every other key of the payload
    (apart from 'md5sum', 'copied' and 'failed_copy_attempts') is passed on
    unchanged, and no further key appears. *)
Theorem X16_record_fields
    (site instance version _data : string) (tr : list event) (d : gmap string pyval) :
  (datagramReceived (base_file_info site instance version) _data tr).1 = Ok (Some d) ->
  exists data payload ts t plot n,
    json_loads _data = Ok data /\
    getitem data "payload" = Ok (PDict payload) /\
    payload !! "timestamp" = Some ts /\ utcfromtimestamp ts = Ok t /\
    payload !! "plot" = Some plot /\ py_int plot = Ok n /\
    d !! "timestamp" = Some t /\
    d !! "plot" = Some (PInt n) /\
    d !! "site" = Some (PStr site) /\
    d !! "instance_id" = Some (PStr instance) /\
    d !! "socs_version" = Some (PStr version) /\
    forall k,
      ~ In k ["timestamp"; "md5sum"; "plot"; "site"; "instance_id"; "copied";
              "failed_copy_attempts"; "socs_version"] ->
      d !! k = payload !! k.
Proof.
  intros Hd.
  pose proof (datagramReceived_cases (base_file_info site instance version) _data tr) as Hc.
  rewrite Hd in Hc.
  destruct Hc as (data & payload & path & ts & t & m & plot & n &
                  Hj & Hpl & Hp & Hts & Ht & Hm & Hplot & Hn & -> & Htr).
  rewrite !lookup_insert_ne in Hplot by done.
  exists data, payload, ts, t, plot, n.
  repeat (split; [assumption |]).
  split; [| split; [| split; [| split; [| split]]]].
  - rewrite lookup_union_r by (apply base_file_info_other; simpl; intuition discriminate).
    rewrite lookup_insert_ne by done. rewrite lookup_insert_ne by done.
    apply lookup_insert_eq.
  - rewrite lookup_union_r by (apply base_file_info_other; simpl; intuition discriminate).
    apply lookup_insert_eq.
  - apply lookup_union_Some_l. unfold base_file_info. by simplify_map_eq.
  - apply lookup_union_Some_l. unfold base_file_info. by simplify_map_eq.
  - apply lookup_union_Some_l. unfold base_file_info. by simplify_map_eq.
  - intros k Hk.
    rewrite lookup_union_r
      by (apply base_file_info_other; intros Hin; apply Hk; simpl in *; intuition).
    rewrite !lookup_insert_ne by (intros <-; apply Hk; simpl; auto 10).
    reflexivity.
Qed.

(** X17. One datagram from arrival to the end of its callbacks, when a
    record is handed to the pool.  After a successful insertion the
    callback logs, at info level, that the published path was added, and
    the deferred ends with a result.  After a failed insertion the errback
    logs, at error level, that the path was not added; the callback does
    not run, and the failure is passed on unchanged.  The path logged is the
    one of the payload. *)
Theorem X17_callbacks_after_the_insertion
    (site instance version _data : string) (inserted : outcome unit)
    (tr : list event) (d : gmap string pyval) :
  let info := base_file_info site instance version in
  (datagramReceived info _data tr).1 = Ok (Some d) ->
  exists path m,
    d !! "path" = Some path /\
    ingest info _data inserted tr =
      (inserted,
       tr ++ [LogInfo (NewFile path); GetMd5sum path (Ok m); RunInteraction d;
              match inserted with
              | Ok _ => LogInfo (Added path)
              | Raise _ => LogError (NotAdded path)
              end]).
Proof.
  intros info Hd.
  pose proof (datagramReceived_cases info _data tr) as Hc.
  rewrite Hd in Hc.
  destruct Hc as (data & payload & path & ts & t & m & plot & n &
                  Hj & Hpl & Hp & Hts & Ht & Hm & Hplot & Hn & Heq & Htr).
  assert (Hpath : d !! "path" = Some path).
  { rewrite Heq. unfold info.
    rewrite lookup_union_r by (apply base_file_info_other; simpl; intuition discriminate).
    rewrite !lookup_insert_ne by done. exact Hp. }
  exists path, m. split; [exact Hpath |].
  unfold ingest, mbind, M_bind, bind.
  destruct (datagramReceived info _data tr) as [r tr'] eqn:Hrun.
  simpl in Hd, Htr. subst r tr'.
  unfold fire, _add_file_callback, _add_file_errback, lift, emit, raise, lookup_key,
    mbind, M_bind, bind.
  rewrite Hpath.
  destruct inserted as [[]|e]; simpl; rewrite <- app_assoc; reflexivity.
Qed.

End Datagram.

Lemma X14_witness :
  ingest (H:=host_other) info0 "datagram2" (Ok tt) [] = (Ok tt, []).
Proof.
  destruct (X14_other_datagrams_are_ignored (H:=host_other) info0 "datagram2" (Ok tt) [])
    as [Hiff Hnothing].
  apply Hnothing, Hiff.
  exists datagram2, (PStr "session_data"). repeat split; reflexivity.
Defined.

Lemma X15_witness :
  datagramReceived (H:=host_no_plot) info0 "datagram1" [] =
    (Raise (KeyError "plot"),
     [LogInfo (NewFile (PStr "/data/smurf/2.dat"));
      GetMd5sum (PStr "/data/smurf/2.dat") (Ok "9e107d9d372bb6826bd81d3542a419d6")]).
Proof.
  destruct (X15_order_of_the_checks (H:=host_no_plot) info0 "datagram1" []
              (<["type" := PStr "data_file"]> (<["payload" := PDict payload1]> ∅))
              payload1 (PStr "/data/smurf/2.dat")
              eq_refl eq_refl eq_refl eq_refl) as (_ & _ & _ & Hplot).
  destruct (Hplot (PInt 1600000000) (PDatetime (inject_Z 1600000000))
              "9e107d9d372bb6826bd81d3542a419d6" eq_refl eq_refl eq_refl)
    as [Hmissing _].
  exact (Hmissing eq_refl).
Defined.

Lemma X16_witness :
  exists d,
    (datagramReceived info0 "datagram0" []).1 = Ok (Some d) /\
    d !! "site" = Some (PStr "observatory") /\
    d !! "path" = payload0 !! "path".
Proof.
  pose proof (datagramReceived_inserts info0 "datagram0" []
                (<["type" := PStr "data_file"]> (<["payload" := PDict payload0]> ∅))
                payload0 (PStr "/data/smurf/1.dat") (PFloat 1600000000)
                (PDatetime 1600000000) "9e107d9d372bb6826bd81d3542a419d6"
                (PBool false) 0%Z
                eq_refl eq_refl eq_refl eq_refl eq_refl eq_refl eq_refl eq_refl eq_refl)
    as Hd.
  eexists. split; [exact Hd |].
  destruct (X16_record_fields "observatory" "pysmurf-monitor" "0.1.0" "datagram0" [] _ Hd)
    as (data & payload & ts & t & plot & n & Hj & Hpl & _ & _ & _ & _ & _ & _ & Hsite & _ & _ & Hk).
  split; [exact Hsite |].
  injection Hj as <-. injection Hpl as <-.
  apply Hk. simpl. intuition discriminate.
Defined.

Lemma X17_witness :
  exists d tr,
    ingest info0 "datagram0" (Raise OperationalError) [] = (Raise OperationalError, tr) /\
    In (RunInteraction d) tr /\
    exists path, d !! "path" = Some path /\ In (LogError (NotAdded path)) tr.
Proof.
  pose proof (datagramReceived_inserts info0 "datagram0" []
                (<["type" := PStr "data_file"]> (<["payload" := PDict payload0]> ∅))
                payload0 (PStr "/data/smurf/1.dat") (PFloat 1600000000)
                (PDatetime 1600000000) "9e107d9d372bb6826bd81d3542a419d6"
                (PBool false) 0%Z
                eq_refl eq_refl eq_refl eq_refl eq_refl eq_refl eq_refl eq_refl eq_refl)
    as Hd.
  destruct (X17_callbacks_after_the_insertion "observatory" "pysmurf-monitor" "0.1.0"
              "datagram0" (Raise OperationalError) [] _ Hd)
    as (path & m & Hp & Hrun).
  eexists _, _. split; [exact Hrun |]. split.
  - simpl. auto.
  - exists path. split; [exact Hp | simpl; auto].
Defined.

End PysmurfMore.

(** ** HWP PCU agent: the queue, the deferreds, the end of [main] *)

Module HWPPCUMore.
Import HWPPCU HWPPCUFacts HWPPCUExtra.

Lemma puts_app (e1 e2 : list event) : puts (e1 ++ e2) = puts e1 ++ puts e2.
Proof. apply omap_app. Qed.

Lemma resolved_app (e1 e2 : list event) : resolved (e1 ++ e2) = resolved e1 ++ resolved e2.
Proof. apply omap_app. Qed.

Lemma taken_app (e1 e2 : list event) : taken (e1 ++ e2) = taken e1 ++ taken e2.
Proof. apply omap_app. Qed.

Lemma puts_Put (acts : list action) : puts (List.map Put acts) = acts.
Proof. induction acts as [|a acts IH]; [reflexivity | simpl; f_equal; exact IH]. Qed.

Lemma resolved_Put (acts : list action) : resolved (List.map Put acts) = [].
Proof. induction acts as [|a acts IH]; [reflexivity | exact IH]. Qed.

Section Flow.

Context `{Hardware W}.
Variable r : reactor.

(** The tasks the reactor thread starts number their deferreds on from the
    count. *)
Lemma send_commands_numbered (cs : list string) (st : state W) :
  exists acts,
    for_each cs send_command st =
      (Ok tt, mkState (action_queue st ++ acts) (status st) (data st)
                (next_deferred st + length acts) (trace st ++ List.map Put acts)
                (world st)) /\
    List.map deferred_of acts = seq (next_deferred st) (length acts).
Proof.
  revert st. induction cs as [|c cs IH]; intros st.
  - exists []. simpl. rewrite !app_nil_r, Nat.add_0_r. destruct st. split; reflexivity.
  - simpl. unfold mbind, M_bind, bind. simpl.
    set (st1 := mkState _ _ _ _ _ _).
    destruct (IH st1) as (acts & Hrun & Hnum).
    exists (SendCommand c (next_deferred st) :: acts).
    rewrite Hrun. simpl. rewrite <- !app_assoc. simpl.
    rewrite Nat.add_succ_r. split; [reflexivity |].
    f_equal. exact Hnum.
Qed.

Lemma yield_numbered (st : state W) :
  exists acts stop,
    (yield r st).1 = Ok tt /\
    action_queue (yield r st).2 = action_queue st ++ acts /\
    next_deferred (yield r st).2 = next_deferred st + length acts /\
    trace (yield r st).2 = trace st ++ List.map Put acts ++ stop /\
    (stop = [] \/ stop = [SetStatus "stopping"]) /\
    List.map deferred_of acts = seq (next_deferred st) (length acts).
Proof.
  unfold yield, mbind, M_bind, bind.
  destruct (send_commands_numbered (commands r (trace st)) st) as (acts & -> & Hnum).
  exists acts. destruct (stop_requested r (trace st)); simpl.
  - exists [SetStatus "stopping"]. rewrite <- app_assoc. auto 10.
  - exists []. rewrite app_nil_r. auto 10.
Qed.

Lemma flows_ret {A} (x : A) h hok hr : hok x = h -> flows (W:=W) h (mret x) hok hr.
Proof.
  intros Hx st. exists []. simpl. rewrite Hx, !app_nil_r, Nat.add_0_r. auto.
Qed.

Lemma flows_bind {A B} (m : M (state W) A) (k : A -> M (state W) B) h hok1 hok2 hr :
  flows (W:=W) h m hok1 hr -> (forall x, flows (W:=W) (hok1 x) (k x) hok2 hr) ->
  flows (W:=W) h (m ≫= k) hok2 hr.
Proof.
  intros Hm Hk st. destruct (Hm st) as (e1 & Ht1 & Hn1 & Hs1 & Hq1).
  unfold mbind, M_bind, bind. destruct (m st) as [[x|e] st1]; simpl in *.
  - destruct (Hk x st1) as (e2 & Ht2 & Hn2 & Hs2 & Hq2).
    exists (e1 ++ e2). rewrite puts_app, resolved_app, length_app.
    split; [rewrite Ht2, Ht1, app_assoc; reflexivity |].
    split; [lia |].
    split; [rewrite map_app, seq_app, Hs1, Hs2, Hn1; reflexivity |].
    transitivity ((h ++ action_queue st ++ puts e1) ++ puts e2);
      [rewrite <- !app_assoc; reflexivity |].
    rewrite Hq1, <- !app_assoc, Hq2. reflexivity.
  - exists e1. auto.
Qed.

Lemma flows_then {A B} (m : M (state W) A) (k : M (state W) B) h h' hok hr :
  flows (W:=W) h m (fun _ => h') hr -> flows (W:=W) h' k hok hr -> flows (W:=W) h (m ≫= fun _ => k) hok hr.
Proof. intros Hm Hk. eapply flows_bind; [exact Hm | intros ?; exact Hk]. Qed.

Lemma flows_try {A} (m : M (state W) A) (hd : exn -> option (M (state W) A))
    h hok hr1 hr2 :
  flows (W:=W) h m hok hr1 ->
  (forall e, exists c, hd e = Some c /\ flows (W:=W) hr1 c hok hr2) ->
  flows (W:=W) h (try_except m hd) hok hr2.
Proof.
  intros Hm Hh st. destruct (Hm st) as (e1 & Ht1 & Hn1 & Hs1 & Hq1).
  unfold try_except. destruct (m st) as [[x|e] st1]; simpl in *.
  - exists e1. auto.
  - destruct (Hh e) as (c & -> & Hc).
    destruct (Hc st1) as (e2 & Ht2 & Hn2 & Hs2 & Hq2).
    exists (e1 ++ e2). rewrite puts_app, resolved_app, length_app.
    split; [rewrite Ht2, Ht1, app_assoc; reflexivity |].
    split; [lia |].
    split; [rewrite map_app, seq_app, Hs1, Hs2, Hn1; reflexivity |].
    transitivity ((h ++ action_queue st ++ puts e1) ++ puts e2);
      [rewrite <- !app_assoc; reflexivity |].
    rewrite Hq1, <- !app_assoc, Hq2. reflexivity.
Qed.

(** The hand of a computation that never raises does not matter for the
    case that it does. *)
Lemma flows_total {A} (m : M (state W) A) h hok hr hr' :
  returns m -> flows (W:=W) h m hok hr' -> flows (W:=W) h m hok hr.
Proof.
  intros Hret Hm st. destruct (Hm st) as (evs & Ht & Hn & Hs & Hq).
  specialize (Hret st). exists evs.
  destruct ((m st).1); [auto | discriminate Hret].
Qed.

Lemma flows_yield h hr : flows (W:=W) h (yield r) (fun _ => h) hr.
Proof.
  intros st. destruct (yield_numbered st) as (acts & stop & -> & Hq & Hn & Ht & Hs & Hnum).
  exists (List.map Put acts ++ stop).
  rewrite puts_app, resolved_app, puts_Put, resolved_Put, Hq.
  assert (Hstop : puts stop = [] /\ resolved stop = [])
    by (destruct Hs as [-> | ->]; split; reflexivity).
  destruct Hstop as [-> ->]. rewrite !app_nil_r. simpl. auto.
Qed.

(** A step that leaves the queue and the count alone and adds events that
    are neither puts nor resolutions. *)
Lemma flows_step {A} (m : M (state W) A) (evs : state W -> list event) h :
  (forall st, action_queue (m st).2 = action_queue st) ->
  (forall st, next_deferred (m st).2 = next_deferred st) ->
  (forall st, trace (m st).2 = trace st ++ evs st) ->
  (forall st, puts (evs st) = []) ->
  (forall st, resolved (evs st) = []) ->
  flows (W:=W) h m (fun _ => h) h.
Proof.
  intros Hq Hn Ht Hp Hr st. exists (evs st).
  rewrite Hq, Hn, Hp, Hr. simpl. rewrite app_nil_r, Nat.add_0_r.
  repeat split; auto. destruct ((m st).1); reflexivity.
Qed.

Lemma flows_emit (e : event) h hr :
  put_of e = None -> resolution_of e = None -> flows (W:=W) h (emit e) (fun _ => h) hr.
Proof.
  intros Hp Hr. apply (flows_total _ _ _ _ h); [intros st; reflexivity |].
  apply (flows_step _ (fun _ => [e])); intros; try reflexivity.
  - unfold puts. simpl. rewrite Hp. reflexivity.
  - unfold resolved. simpl. rewrite Hr. reflexivity.
Qed.

Lemma flows_extern {A} (f : W -> outcome A * W) (ev : outcome A -> event) h :
  (forall res, put_of (ev res) = None) ->
  (forall res, resolution_of (ev res) = None) ->
  flows (W:=W) h (extern f ev) (fun _ => h) h.
Proof.
  intros Hp Hr. apply (flows_step _ (fun st => [ev (f (world st)).1]));
    intros st; unfold extern; try (destruct (f (world st)); reflexivity).
  - unfold puts. simpl. rewrite Hp. reflexivity.
  - unfold resolved. simpl. rewrite Hr. reflexivity.
Qed.

Lemma flows_call {A} (f : W -> outcome A * W) (ev : outcome A -> event) h :
  (forall res, put_of (ev res) = None) ->
  (forall res, resolution_of (ev res) = None) ->
  flows (W:=W) h (call r f ev) (fun _ => h) h.
Proof.
  intros Hp Hr. eapply flows_then; [apply flows_yield | apply flows_extern; assumption].
Qed.

Lemma flows_log_info (m : message) h hr : flows (W:=W) h (log_info r m) (fun _ => h) hr.
Proof. eapply flows_then; [apply flows_yield | apply flows_emit; reflexivity]. Qed.

Lemma flows_log_error (m : message) h hr : flows (W:=W) h (log_error r m) (fun _ => h) hr.
Proof. eapply flows_then; [apply flows_yield | apply flows_emit; reflexivity]. Qed.

Lemma flows_resolve (e : event) a hr :
  put_of e = None -> resolution_of e = Some a -> flows (W:=W) [a] (emit e) (fun _ => []) hr.
Proof.
  intros Hp Hr st. exists [e]. unfold puts, resolved. simpl. rewrite Hp, Hr. simpl.
  rewrite app_nil_r, Nat.add_0_r. auto.
Qed.

Lemma flows_callback a res hr : flows (W:=W) [a] (callback r a res) (fun _ => []) hr.
Proof. eapply flows_then; [apply flows_yield | apply flows_resolve; reflexivity]. Qed.

Lemma flows_errback a e hr : flows (W:=W) [a] (errback r a e) (fun _ => []) hr.
Proof. eapply flows_then; [apply flows_yield | apply flows_resolve; reflexivity]. Qed.

Lemma flows_for_each {A} (l : list A) (f : A -> M (state W) unit) h :
  (forall x, flows (W:=W) h (f x) (fun _ => h) h) -> flows (W:=W) h (for_each l f) (fun _ => h) h.
Proof.
  intros Hf. induction l as [|x l IH]; simpl.
  - apply flows_ret. reflexivity.
  - eapply flows_then; [apply Hf | exact IH].
Qed.

Lemma flows_process_action a h : flows (W:=W) h (process_action r a) (fun _ => h) h.
Proof.
  destruct a as [command d|d]; simpl; [| apply flows_ret; reflexivity].
  destruct (channels command) as [off on].
  repeat (eapply flows_then; [apply flows_log_info |]).
  eapply flows_then; [apply flows_for_each; intros i; apply flows_call; reflexivity |].
  eapply flows_then; [apply flows_for_each; intros i; apply flows_call; reflexivity |].
  apply flows_ret. reflexivity.
Qed.

Lemma flows_pop hr : flows (W:=W) [] (pop r) in_hand hr.
Proof.
  eapply flows_then; [apply flows_yield |].
  intros st. exists []. unfold take_head.
  destruct (action_queue st) as [|a q] eqn:Hq; simpl;
    rewrite ?Hq, ?app_nil_r, Nat.add_0_r; auto.
Qed.

Lemma flows_process_actions fuel : flows (W:=W) [] (_process_actions r fuel) (fun _ => []) [].
Proof.
  induction fuel as [|n IH]; simpl.
  - apply flows_ret. reflexivity.
  - eapply flows_bind; [apply flows_pop |].
    intros [a|]; simpl; [| apply flows_ret; reflexivity].
    eapply flows_then; [| exact IH].
    apply (flows_try _ _ _ _ [a]).
    + eapply flows_then; [apply flows_log_info |].
      eapply flows_bind; [apply flows_process_action |].
      intros res. apply flows_callback.
    + intros e. eexists. split; [reflexivity |].
      eapply flows_then; [apply flows_log_error | apply flows_errback].
Qed.

Lemma flows_cancel_queued fuel : flows (W:=W) [] (cancel_queued r fuel) (fun _ => []) [].
Proof.
  induction fuel as [|n IH]; simpl.
  - apply flows_ret. reflexivity.
  - eapply flows_bind; [apply flows_pop |].
    intros [a|]; simpl; [| apply flows_ret; reflexivity].
    eapply flows_then; [apply flows_errback | exact IH].
Qed.

Lemma flows_read_time h : flows (W:=W) h read_time (fun _ => h) h.
Proof.
  apply (flows_step _ (fun st => [Clock (time (world st)).1]));
    intros st; unfold read_time; try (destruct (time (world st)); reflexivity).
Qed.

Lemma flows_read_status h : flows (W:=W) h read_status (fun _ => h) h.
Proof.
  apply (flows_step _ (fun st =>
    [TestStatus (String.eqb (status st) "starting" || String.eqb (status st) "running")]));
    intros; reflexivity.
Qed.

Lemma flows_get_and_publish : flows (W:=W) [] (_get_and_publish_data r) (fun _ => []) [].
Proof.
  unfold _get_and_publish_data.
  eapply flows_bind; [eapply flows_then; [apply flows_yield | apply flows_read_time] |].
  intros now. eapply flows_bind; [apply flows_call; reflexivity |].
  intros s. eapply flows_then; [apply flows_yield |].
  eapply flows_then; [apply flows_emit; reflexivity |].
  apply (flows_step _ (fun _ => [])); intros; try reflexivity.
  simpl. rewrite app_nil_r. reflexivity.
Qed.

Lemma flows_poll inner fuel last_daq :
  flows (W:=W) [] (poll r inner fuel last_daq) (fun _ => []) [].
Proof.
  revert last_daq. induction fuel as [|n IH]; intros last_daq; simpl.
  - apply flows_ret. reflexivity.
  - eapply flows_bind; [eapply flows_then; [apply flows_yield | apply flows_read_status] |].
    intros b. simpl. destruct b; [| apply flows_ret; reflexivity].
    eapply flows_bind; [eapply flows_then; [apply flows_yield | apply flows_read_time] |].
    intros now. simpl. eapply flows_bind.
    { instantiate (1 := fun _ => []). destruct (Qle_bool (now - last_daq) 5).
      - apply flows_ret. reflexivity.
      - eapply flows_then; [apply flows_get_and_publish | apply flows_ret; reflexivity]. }
    intros last. simpl. eapply flows_bind; [apply flows_process_actions |].
    intros done. simpl. destruct done; [| apply flows_ret; reflexivity].
    eapply flows_then; [apply flows_yield |].
    eapply flows_then; [apply flows_emit; reflexivity | apply IH].
Qed.

Lemma flows_main port inner fuel : flows (W:=W) [] (main r port inner fuel) (fun _ => []) [].
Proof.
  unfold main, connect_and_start.
  eapply flows_then.
  { eapply flows_then; [apply flows_call; reflexivity |].
    eapply flows_then; [apply flows_log_info |].
    eapply flows_then; [apply flows_yield |].
    apply (flows_step _ (fun _ => [SetStatus "running"])); intros; reflexivity. }
  eapply flows_bind; [apply flows_cancel_queued |].
  intros cancelled. simpl. destruct cancelled; [| apply flows_ret; reflexivity].
  eapply flows_bind; [apply flows_poll |].
  intros polled. simpl. destruct polled; [| apply flows_ret; reflexivity].
  eapply flows_then; [apply flows_call; reflexivity | apply flows_ret; reflexivity].
Qed.

(** X18. Through the whole of [main], both loops and whatever the reactor
    thread puts on the queue meanwhile, the actions leave the queue in the
    order they were put: what was queued when [main] started, followed by
    what was put since, is what has had its deferred fired, followed by
    what is still queued.  So no action is lost and none is resolved out of
    turn; and as each [send_command] makes a deferred of its own, no
    deferred is fired twice. *)
Theorem X18_actions_are_resolved_in_order
    (port : string) (inner fuel : nat) (st : state W) :
  exists new,
    trace (main r port inner fuel st).2 = trace st ++ new /\
    action_queue st ++ puts new =
      resolved new ++ action_queue (main r port inner fuel st).2 /\
    (NoDup (List.map deferred_of (action_queue st)) ->
     Forall (fun a => deferred_of a < next_deferred st) (action_queue st) ->
     NoDup (List.map deferred_of (resolved new))).
Proof.
  destruct (flows_main port inner fuel st) as (new & Ht & Hn & Hs & Hq).
  exists new. split; [exact Ht |].
  assert (Hq' : action_queue st ++ puts new =
                resolved new ++ action_queue (main r port inner fuel st).2).
  { destruct ((main r port inner fuel st).1); exact Hq. }
  split; [exact Hq' |].
  intros Hnd Hold.
  assert (Hall : NoDup (List.map deferred_of (action_queue st ++ puts new))).
  { rewrite map_app, Hs. apply NoDup_app. split; [exact Hnd |]. split; [| apply NoDup_seq].
    intros x Hx Hseq. apply elem_of_seq in Hseq.
    apply list_elem_of_In, in_map_iff in Hx as (a & <- & Ha).
    rewrite List.Forall_forall in Hold. specialize (Hold a Ha). lia. }
  rewrite Hq', map_app in Hall. apply NoDup_app in Hall. apply Hall.
Qed.

End Flow.

Lemma X18_witness :
  exists new,
    trace (main busy_reactor "/dev/ttyUSB0" 5 5 queued).2 = new /\
    resolved new = [SendCommand "stop" 0; SendCommand "on_2" 1; SendCommand "on_1" 2] /\
    NoDup (List.map deferred_of (resolved new)).
Proof.
  destruct (X18_actions_are_resolved_in_order busy_reactor "/dev/ttyUSB0" 5 5 queued)
    as (new & Ht & Hq & Hnd).
  assert (Hfired : NoDup (List.map deferred_of (resolved new))).
  { clear Ht Hq. apply Hnd; simpl.
    - exact (NoDup_seq 0 2).
    - repeat constructor. }
  exists new. split; [exact Ht |]. split; [| exact Hfired].
  clear Hq Hnd Hfired. vm_compute in Ht. subst new. reflexivity.
Defined.

(** *** [_process_actions]: one attempt for each action *)

Lemma failures_app (e1 e2 : list event) : failures (e1 ++ e2) = failures e1 ++ failures e2.
Proof. apply omap_app. Qed.

Lemma reactor_is_passive (e : event) : is_reactor e -> is_passive e.
Proof. destruct e; simpl; try discriminate; reflexivity. Qed.

Lemma reactor_passive (w : list event) : Forall is_reactor w -> Forall is_passive w.
Proof. induction 1; constructor; auto using reactor_is_passive. Qed.

Lemma reactor_failures (w : list event) : Forall is_reactor w -> failures w = [].
Proof.
  induction 1 as [|e w He _ IH]; [reflexivity |].
  unfold failures in *. simpl.
  destruct e; try discriminate He; simpl; exact IH.
Qed.

Lemma reactor_Put (acts : list action) : Forall is_reactor (List.map Put acts).
Proof. induction acts as [|a acts IH]; constructor; [reflexivity | exact IH]. Qed.

Lemma resolved_cons (e : event) (w : list event) :
  resolved (e :: w) = option_list (resolution_of e) ++ resolved w.
Proof. unfold resolved. simpl. destruct (resolution_of e); reflexivity. Qed.

Lemma taken_cons (e : event) (w : list event) :
  taken (e :: w) = option_list (taken_of e) ++ taken w.
Proof. unfold taken. simpl. destruct (taken_of e); reflexivity. Qed.

Lemma passive_resolved (w : list event) : Forall is_passive w -> resolved w = [].
Proof.
  induction 1 as [|e w He _ IH]; [reflexivity |].
  rewrite resolved_cons, IH.
  destruct e; try reflexivity; discriminate He.
Qed.

Lemma passive_taken (w : list event) : Forall is_passive w -> taken w = [].
Proof.
  induction 1 as [|e w He _ IH]; [reflexivity |].
  rewrite taken_cons, IH.
  destruct e as [| m | | | | | | | | | | | | |]; try reflexivity.
  destruct m; try reflexivity; discriminate He.
Qed.

Lemma failure_resolved (fail : event) (e : exn) :
  failure_of fail = Some e -> resolution_of fail = None /\ taken_of fail = None.
Proof. destruct fail; try discriminate; auto. Qed.

Lemma attempt_resolved a seg : attempt_of a seg -> resolved seg = [a].
Proof.
  intros [w0 body w1 H0 Hb H1 _ | w0 pre w1 w2 fail e H0 Hb H1 H2 _ Hfail];
    try (destruct (failure_resolved _ _ Hfail) as [Hr _]);
    apply reactor_passive in H0, H1; try apply reactor_passive in H2;
    repeat first [ rewrite resolved_app | rewrite resolved_cons
                 | rewrite passive_resolved by assumption ];
    rewrite ?Hr; reflexivity.
Qed.

Lemma attempt_taken a seg : attempt_of a seg -> taken seg = [a].
Proof.
  intros [w0 body w1 H0 Hb H1 _ | w0 pre w1 w2 fail e H0 Hb H1 H2 _ Hfail];
    try (destruct (failure_resolved _ _ Hfail) as [_ Hr]);
    apply reactor_passive in H0, H1; try apply reactor_passive in H2;
    repeat first [ rewrite taken_app | rewrite taken_cons
                 | rewrite passive_taken by assumption ];
    rewrite ?Hr; reflexivity.
Qed.

Lemma attempt_after a w seg :
  Forall is_reactor w -> attempt_of a seg -> attempt_of a (w ++ seg).
Proof.
  intros Hw [w0 body w1 H0 Hb H1 Hf | w0 pre w1 w2 fail e H0 Hb H1 H2 Hf Hfail];
    rewrite app_assoc.
  - apply attempt_done; auto. apply Forall_app; auto.
  - apply attempt_failed; auto. apply Forall_app; auto.
Qed.

Lemma attempts_resolved acts evs : attempts acts evs -> resolved evs = acts.
Proof.
  induction 1 as [w Hw | a seg acts rest Ha _ IH].
  - apply passive_resolved, reactor_passive, Hw.
  - rewrite resolved_app, (attempt_resolved _ _ Ha), IH. reflexivity.
Qed.

Lemma attempts_taken acts evs : attempts acts evs -> taken evs = acts.
Proof.
  induction 1 as [w Hw | a seg acts rest Ha _ IH].
  - apply passive_taken, reactor_passive, Hw.
  - rewrite taken_app, (attempt_taken _ _ Ha), IH. reflexivity.
Qed.

Section Attempts.

Context `{Hardware W}.
Variable r : reactor.

Lemma bind_run {A B} (m : M (state W) A) (k : A -> M (state W) B) (st : state W) :
  (m ≫= k) st =
    match m st with
    | (Ok x, st') => k x st'
    | (Raise e, st') => (Raise e, st')
    end.
Proof. reflexivity. Qed.

(** The reactor thread's turn: it returns, and what it leaves in the trace
    are events of its own. *)
Lemma yield_run (st : state W) :
  exists w st',
    yield r st = (Ok tt, st') /\ trace st' = trace st ++ w /\
    Forall is_reactor w.
Proof.
  destruct (yield_spec r st) as (acts & stop & Hy & _ & _ & Ht & Hs & _).
  destruct (yield r st) as [o st']. simpl in *. subst o.
  exists (List.map Put acts ++ stop), st'.
  split; [reflexivity |]. split; [exact Ht |].
  apply Forall_app. split; [apply reactor_Put |].
  destruct Hs as [-> | ->]; repeat constructor.
Qed.

Lemma yield_emit_run (e : event) (st : state W) :
  exists w st',
    (yield r ≫= fun _ => emit e) st = (Ok tt, st') /\
    trace st' = trace st ++ w ++ [e] /\ Forall is_reactor w.
Proof.
  destruct (yield_run st) as (w & st1 & Hy & Ht & Hp).
  exists w. eexists. rewrite bind_run, Hy. unfold emit.
  split; [reflexivity |]. simpl. rewrite Ht, app_assoc. auto.
Qed.

Lemma log_info_run (m : message) (st : state W) :
  exists w st',
    log_info r m st = (Ok tt, st') /\
    trace st' = trace st ++ w ++ [LogInfo m] /\ Forall is_reactor w.
Proof. exact (yield_emit_run (LogInfo m) st). Qed.

Lemma log_error_run (m : message) (st : state W) :
  exists w st',
    log_error r m st = (Ok tt, st') /\
    trace st' = trace st ++ w ++ [LogError m] /\ Forall is_reactor w.
Proof. exact (yield_emit_run (LogError m) st). Qed.

Lemma callback_run a res (st : state W) :
  exists w st',
    callback r a res st = (Ok tt, st') /\
    trace st' = trace st ++ w ++ [Callback a res] /\ Forall is_reactor w.
Proof. exact (yield_emit_run (Callback a res) st). Qed.

Lemma errback_run a e (st : state W) :
  exists w st',
    errback r a e st = (Ok tt, st') /\
    trace st' = trace st ++ w ++ [Errback a e] /\ Forall is_reactor w.
Proof. exact (yield_emit_run (Errback a e) st). Qed.

Lemma relay_ret {A} (x : A) : traces (W:=W) (mret x) relay_step.
Proof.
  intros st. exists []. simpl. rewrite app_nil_r. repeat split. constructor.
Qed.

Lemma relay_bind {A B} (m : M (state W) A) (k : A -> M (state W) B) :
  traces m relay_step -> (forall x, traces (k x) relay_step) ->
  traces (m ≫= k) relay_step.
Proof.
  intros Hm Hk st. destruct (Hm st) as (e1 & Ht1 & Hp1 & Hf1).
  rewrite bind_run. destruct (m st) as [[x|e] st1]; simpl in *.
  - destruct (Hk x st1) as (e2 & Ht2 & Hp2 & Hf2).
    exists (e1 ++ e2). split; [rewrite Ht2, Ht1, app_assoc; reflexivity |].
    split; [apply Forall_app; auto |].
    destruct ((k x st1).1) as [y|e].
    + rewrite failures_app, Hf1, Hf2. reflexivity.
    + destruct Hf2 as (pre & fail & -> & Hpre & Hfail).
      exists (e1 ++ pre), fail. rewrite app_assoc, failures_app, Hf1, Hpre. auto.
  - exists e1. repeat split; assumption.
Qed.

Lemma relay_yield : traces (W:=W) (yield r) relay_step.
Proof.
  intros st. destruct (yield_run st) as (w & st' & -> & Ht & Hp).
  exists w. split; [exact Ht |]. split; [apply reactor_passive, Hp |].
  apply reactor_failures, Hp.
Qed.

Lemma relay_log_info (m : message) :
  is_passive (LogInfo m) -> traces (W:=W) (log_info r m) relay_step.
Proof.
  intros Hm. apply relay_bind; [apply relay_yield | intros ? st].
  exists [LogInfo m]. repeat split. repeat constructor. exact Hm.
Qed.

Lemma relay_call (f : W -> outcome unit * W) (ev : outcome unit -> event) :
  (forall res, is_passive (ev res)) ->
  (forall res, failure_of (ev res) = match res with Ok _ => None | Raise e => Some e end) ->
  traces (W:=W) (call r f ev) relay_step.
Proof.
  intros Hp Hf. apply relay_bind; [apply relay_yield | intros ? st].
  unfold extern. destruct (f (world st)) as [res w].
  exists [ev res]. split; [reflexivity |]. split; [repeat constructor; apply Hp |].
  simpl. destruct res as [y|e].
  - unfold failures. simpl. rewrite Hf. reflexivity.
  - exists [], (ev (Raise e)). rewrite Hf. auto.
Qed.

Lemma relay_for_each {A} (l : list A) (f : A -> M (state W) unit) :
  (forall x, traces (f x) relay_step) -> traces (for_each l f) relay_step.
Proof.
  intros Hf. induction l as [|x l IH]; simpl; [apply relay_ret |].
  apply relay_bind; [apply Hf | intros ?; exact IH].
Qed.

Lemma relay_process_action a : traces (W:=W) (process_action r a) relay_step.
Proof.
  destruct a as [command d|d]; simpl; [| apply relay_ret].
  destruct (channels command) as [off on].
  repeat (apply relay_bind; [apply relay_log_info; reflexivity | intros ?]).
  apply relay_bind;
    [apply relay_for_each; intros i; apply relay_call;
       [reflexivity | intros [|]; reflexivity] | intros ?].
  apply relay_bind;
    [apply relay_for_each; intros i; apply relay_call;
       [reflexivity | intros [|]; reflexivity] | intros ?].
  apply relay_ret.
Qed.

Lemma process_action_result a (st : state W) v :
  (process_action r a st).1 = Ok v -> v = result_of a.
Proof.
  destruct a as [command d|d].
  - apply process_action_returns.
  - simpl. intros [= <-]. reflexivity.
Qed.

(** The body of the loop for one action: the try statement returns, and
    what it adds to the trace is one attempt for the action. *)
Lemma attempt_run a (st : state W) :
  exists seg st',
    try_except
      (log_info r (RunningAction a) ;;
       res ← process_action r a;
       callback r a res)
      (fun e => Some (log_error r (ErrorProcessing a) ;; errback r a e)) st =
      (Ok tt, st') /\
    trace st' = trace st ++ seg /\
    attempt_of a seg.
Proof.
  destruct (log_info_run (RunningAction a) st) as (w0 & st1 & Hrun1 & Ht1 & Hp0).
  destruct (relay_process_action a st1) as (body & Ht2 & Hpb & Hfb).
  pose proof (process_action_result a st1) as Hres.
  unfold try_except. rewrite bind_run, Hrun1, bind_run.
  destruct (process_action r a st1) as [[v|e] st2]; simpl in Ht2, Hfb, Hres.
  - rewrite (Hres v eq_refl).
    destruct (callback_run a (result_of a) st2) as (w1 & st3 & -> & Ht3 & Hp1).
    eexists _, st3. split; [reflexivity |]. split.
    + rewrite Ht3, Ht2, Ht1, <- !app_assoc. reflexivity.
    + apply attempt_done; assumption.
  - rewrite bind_run.
    destruct Hfb as (pre & fail & -> & Hpre & Hfail).
    apply Forall_app in Hpb as [Hpb _].
    destruct (log_error_run (ErrorProcessing a) st2) as (w1 & st3 & -> & Ht3 & Hp1).
    destruct (errback_run a e st3) as (w2 & st4 & -> & Ht4 & Hp2).
    exists (w0 ++ LogInfo (RunningAction a) :: pre ++ fail :: w1 ++
              LogError (ErrorProcessing a) :: w2 ++ [Errback a e]), st4.
    split; [reflexivity |]. split.
    + rewrite Ht4, Ht3, Ht2, Ht1, <- !app_assoc. reflexivity.
    + apply attempt_failed; assumption.
Qed.

Lemma process_actions_S n :
  _process_actions r (S n) =
    (next ← pop r;
     match next with
     | Some a =>
         try_except
           (log_info r (RunningAction a) ;;
            res ← process_action r a;
            callback r a res)
           (fun e => Some (log_error r (ErrorProcessing a) ;; errback r a e)) ;;
         _process_actions (W:=W) r n
     | None => mret (Some tt)
     end).
Proof. reflexivity. Qed.

Lemma process_actions_attempts fuel (st : state W) :
  exists evs,
    is_ok (_process_actions r fuel st).1 = true /\
    trace (_process_actions r fuel st).2 = trace st ++ evs /\
    attempts (resolved evs) evs.
Proof.
  revert st. induction fuel as [|n IH]; intros st.
  - exists []. simpl. rewrite app_nil_r. repeat split. repeat constructor.
  - rewrite process_actions_S, bind_run. unfold pop. rewrite bind_run.
    destruct (yield_run st) as (w & st0 & -> & Ht0 & Hp).
    unfold take_head. destruct (action_queue st0) as [|a q] eqn:Hq.
    + exists w. simpl. repeat split; [exact Ht0 |].
      rewrite passive_resolved by exact (reactor_passive _ Hp). constructor. exact Hp.
    + set (st1 := mkState q _ _ _ _ _). rewrite bind_run.
      destruct (attempt_run a st1) as (seg & st2 & -> & Ht2 & Hatt).
      destruct (IH st2) as (rest & Hok & Ht & Hrest).
      exists ((w ++ seg) ++ rest). split; [exact Hok |]. split.
      * rewrite Ht, Ht2. unfold st1. simpl. rewrite Ht0, <- !app_assoc. reflexivity.
      * pose proof (attempt_after a w seg Hp Hatt) as Hatt'.
        rewrite resolved_app, (attempt_resolved _ _ Hatt'). simpl.
        apply attempts_cons; assumption.
Qed.

(** When [_process_actions] returns, the queue is empty. *)
Lemma process_actions_empties fuel (st : state W) :
  (_process_actions r fuel st).1 = Ok (Some tt) ->
  action_queue (_process_actions r fuel st).2 = [].
Proof.
  revert st. induction fuel as [|n IH]; intros st; [discriminate |].
  rewrite process_actions_S, bind_run. unfold pop. rewrite bind_run.
  destruct (yield_run st) as (w & st0 & -> & _).
  unfold take_head. destruct (action_queue st0) as [|a q] eqn:Hq.
  - intros _. exact Hq.
  - set (st1 := mkState q _ _ _ _ _). rewrite bind_run.
    destruct (attempt_run a st1) as (seg & st2 & -> & _). apply IH.
Qed.

Section Quiet.

(** The reactor thread starts no task. *)
Hypothesis no_commands : forall tr, commands r tr = [].

Lemma keeps_ret {A} (x : A) : keeps_queue (W:=W) (mret x).
Proof. intros st. reflexivity. Qed.

Lemma keeps_bind {A B} (m : M (state W) A) (k : A -> M (state W) B) :
  keeps_queue m -> (forall x, keeps_queue (k x)) -> keeps_queue (m ≫= k).
Proof.
  intros Hm Hk st. rewrite bind_run. specialize (Hm st).
  destruct (m st) as [[x|e] st1]; simpl in *; [rewrite Hk |]; exact Hm.
Qed.

Lemma keeps_try {A} (m : M (state W) A) (hd : exn -> option (M (state W) A)) :
  keeps_queue m -> (forall e c, hd e = Some c -> keeps_queue c) ->
  keeps_queue (try_except m hd).
Proof.
  intros Hm Hh st. unfold try_except. specialize (Hm st).
  destruct (m st) as [[x|e] st1]; simpl in *; [exact Hm |].
  destruct (hd e) as [c|] eqn:He; [rewrite (Hh e c He) |]; exact Hm.
Qed.

Lemma keeps_yield : keeps_queue (W:=W) (yield r).
Proof.
  intros st. unfold yield. rewrite no_commands. simpl. rewrite bind_run. simpl.
  destruct (stop_requested r (trace st)); reflexivity.
Qed.

Lemma keeps_yield_emit (e : event) : keeps_queue (W:=W) (yield r ≫= fun _ => emit e).
Proof. apply keeps_bind; [apply keeps_yield | intros ? st; reflexivity]. Qed.

Lemma keeps_call {A} (f : W -> outcome A * W) (ev : outcome A -> event) :
  keeps_queue (call r f ev).
Proof.
  apply keeps_bind; [apply keeps_yield | intros ? st].
  unfold extern. destruct (f (world st)). reflexivity.
Qed.

Lemma keeps_for_each {A} (l : list A) (f : A -> M (state W) unit) :
  (forall x, keeps_queue (f x)) -> keeps_queue (for_each l f).
Proof.
  intros Hf. induction l as [|x l IH]; simpl; [apply keeps_ret |].
  apply keeps_bind; [apply Hf | intros ?; exact IH].
Qed.

Lemma keeps_process_action a : keeps_queue (W:=W) (process_action r a).
Proof.
  destruct a as [command d|d]; simpl; [| apply keeps_ret].
  destruct (channels command) as [off on].
  repeat (apply keeps_bind; [apply keeps_yield_emit | intros ?]).
  apply keeps_bind; [apply keeps_for_each; intros i; apply keeps_call | intros ?].
  apply keeps_bind; [apply keeps_for_each; intros i; apply keeps_call | intros ?].
  apply keeps_ret.
Qed.

(** While the reactor thread starts no task, [_process_actions] is through
    after one unrolling more than there are actions on the queue. *)
Lemma process_actions_ends fuel (st : state W) :
  length (action_queue st) < fuel ->
  (_process_actions r fuel st).1 = Ok (Some tt).
Proof.
  revert st. induction fuel as [|n IH]; intros st Hlen; [lia |].
  rewrite process_actions_S, bind_run. unfold pop. rewrite bind_run.
  pose proof (keeps_yield st) as Hq.
  destruct (yield_run st) as (w & st0 & Hy & _). rewrite Hy in Hq |- *. simpl in Hq.
  unfold take_head. destruct (action_queue st0) as [|a q] eqn:Hq'; [reflexivity |].
  set (st1 := mkState q _ _ _ _ _). rewrite bind_run.
  assert (Hq2 : keeps_queue (W:=W)
                  (try_except
                     (log_info r (RunningAction a) ;;
                      res ← process_action r a;
                      callback r a res)
                     (fun e => Some (log_error r (ErrorProcessing a) ;; errback r a e)))).
  { apply keeps_try.
    - apply keeps_bind; [apply keeps_yield_emit | intros ?].
      apply keeps_bind; [apply keeps_process_action | intros ?; apply keeps_yield_emit].
    - intros e c [= <-].
      apply keeps_bind; [apply keeps_yield_emit | intros ?; apply keeps_yield_emit]. }
  specialize (Hq2 st1).
  destruct (attempt_run a st1) as (seg & st2 & Hrun & _).
  rewrite Hrun in Hq2 |- *. simpl in Hq2.
  apply IH. rewrite Hq2. rewrite <- Hq in Hlen. simpl in Hlen. lia.
Qed.

End Quiet.

(** X19. An exception of the PCU driver never leaves [_process_actions]:
    it returns with the queue empty, having taken up exactly the actions
    it resolved; these are the actions that were queued when it was called
    followed by those put meanwhile.  It does return when the reactor
    thread starts no further task: one pass of the loop for each queued
    action, and one to find the queue empty. *)
Theorem X19_process_actions_clears_the_queue (fuel : nat) (st : state W) :
  is_ok (_process_actions r fuel st).1 = true /\
  (exists evs,
      trace (_process_actions r fuel st).2 = trace st ++ evs /\
      taken evs = resolved evs /\
      ((_process_actions r fuel st).1 = Ok (Some tt) ->
       action_queue (_process_actions r fuel st).2 = [] /\
       action_queue st ++ puts evs = resolved evs)) /\
  ((forall tr, commands r tr = []) ->
   length (action_queue st) < fuel ->
   (_process_actions r fuel st).1 = Ok (Some tt)).
Proof.
  destruct (process_actions_attempts fuel st) as (evs & Hok & Ht & Hatt).
  split; [exact Hok |]. split.
  - exists evs. split; [exact Ht |]. split.
    + rewrite (attempts_taken _ _ Hatt). reflexivity.
    + intros Hret. pose proof (process_actions_empties fuel st Hret) as Hempty.
      split; [exact Hempty |].
      destruct (flows_process_actions r fuel st) as (evs' & Ht' & _ & _ & Hq).
      assert (evs' = evs) as -> by (rewrite Ht in Ht'; eapply app_inv_head, eq_sym, Ht').
      rewrite Hret, Hempty in Hq. simpl in Hq. rewrite app_nil_r in Hq. exact Hq.
  - intros Hnone Hlen. apply process_actions_ends; assumption.
Qed.

(** X20. What [_process_actions] does is one attempt for each action it
    resolves, in turn: the action is taken up with the line "Running
    action"; then either every relay call returns and the deferred's
    callback gets the dict of the off and on lists of the command, or one
    relay call raises, nothing more is switched (from that call to the
    errback there is only the line of the error and what the reactor thread
    does meanwhile), the error is logged and the deferred's errback gets the
    exception of that call.  Between two attempts and after the last there
    are only events of the reactor thread: nothing else switches a relay,
    logs an error or fires a deferred. *)
Theorem X20_each_action_gets_one_attempt (fuel : nat) (st : state W) :
  exists evs,
    trace (_process_actions r fuel st).2 = trace st ++ evs /\
    attempts (resolved evs) evs.
Proof.
  destruct (process_actions_attempts fuel st) as (evs & _ & Ht & Hatt).
  exists evs. split; assumption.
Qed.

End Attempts.

(** On a rig whose relay 7 raises, 'stop' switches 0 and 6 off and fails
    at 7: its deferred gets the OSError and nothing is switched on; the
    next action is processed all the same. *)
Example process_on_a_broken_rig :
  let st := on_rig (mkRig 100 true [7] true)
              [SendCommand "stop" 0; SendCommand "brake" 1] 2 in
  _process_actions quiet_reactor 3 st =
    (Ok (Some tt),
     mkState [] "starting" None 2
       [LogInfo (RunningAction (SendCommand "stop" 0));
        LogInfo (CommandLine "stop"); LogInfo (OffChannels [0; 6; 7]);
        LogInfo (OnChannels [1; 2; 5]);
        RelayOff 0 (Ok tt); RelayOff 6 (Ok tt); RelayOff 7 (Raise OSError);
        LogError (ErrorProcessing (SendCommand "stop" 0));
        Errback (SendCommand "stop" 0) OSError;
        LogInfo (RunningAction (SendCommand "brake" 1));
        LogInfo (CommandLine "brake"); LogInfo (OffChannels []); LogInfo (OnChannels []);
        Callback (SendCommand "brake" 1) (Some (mkRelays [] []))]
       (mkRig 100 true [7] true)).
Proof. reflexivity. Qed.

Lemma X19_witness :
  let st := on_rig (mkRig 100 true [7] true)
              [SendCommand "stop" 0; SendCommand "brake" 1] 2 in
  (_process_actions quiet_reactor 3 st).1 = Ok (Some tt) /\
  action_queue (_process_actions quiet_reactor 3 st).2 = [].
Proof.
  intros st.
  destruct (X19_process_actions_clears_the_queue quiet_reactor 3 st)
    as (_ & (evs & _ & _ & Hret) & Hends).
  assert (Hr : (_process_actions quiet_reactor 3 st).1 = Ok (Some tt)).
  { apply Hends; [reflexivity | simpl; lia]. }
  split; [exact Hr | exact (proj1 (Hret Hr))].
Defined.

(** *** The events of [main], by kind *)

Section Events.

Context `{Hardware W}.
Variable r : reactor.
Variable P : event -> Prop.

Hypothesis P_put : forall a, P (Put a).
Hypothesis P_stopping : P (SetStatus "stopping").
Hypothesis P_running : P (SetStatus "running").
Hypothesis P_info : forall m, P (LogInfo m).
Hypothesis P_error : forall m, P (LogError m).
Hypothesis P_off : forall i rc, P (RelayOff i rc).
Hypothesis P_on : forall i rc, P (RelayOn i rc).
Hypothesis P_callback : forall a res, P (Callback a res).
Hypothesis P_errback : forall a e, P (Errback a e).
Hypothesis P_clock : forall t, P (Clock t).
Hypothesis P_status : forall rs, P (GetStatus rs).
Hypothesis P_publish : forall s t, P (Publish s t).
Hypothesis P_sleep : forall d, P (Sleep d).
Hypothesis P_test : forall b, P (TestStatus b).
Hypothesis P_connect : forall port rc, P (Connect port rc).

Ltac side := first [ intros; exact I | intros; auto ].

Lemma only_yield : hoare (W:=W) always P (yield r) any.
Proof. apply triple_yield; side. Qed.

Lemma only_process_action a : hoare (W:=W) always P (process_action r a) any.
Proof.
  destruct a as [command d|d]; simpl; [| apply triple_ret; exact I].
  destruct (channels command) as [off on].
  repeat (apply triple_then;
          [ first [ apply triple_log_info | apply triple_for_each; intros;
                    apply triple_call ]; side |]).
  apply triple_ret. exact I.
Qed.

Lemma only_process_actions fuel : hoare (W:=W) always P (_process_actions r fuel) any.
Proof.
  induction fuel as [|n IH]; simpl.
  - apply triple_ret. exact I.
  - eapply triple_bind; [apply triple_pop; side |].
    intros [a|] _; [| apply triple_ret; exact I].
    apply triple_then; [| exact IH].
    apply triple_try.
    + apply triple_then; [apply triple_log_info; side |].
      eapply triple_bind; [apply only_process_action | intros res _].
      apply triple_callback; side.
    + intros e c [= <-].
      apply triple_then; [apply triple_log_error | apply triple_errback]; side.
Qed.

Lemma only_cancel_queued fuel : hoare (W:=W) always P (cancel_queued r fuel) any.
Proof.
  induction fuel as [|n IH]; simpl.
  - apply triple_ret. exact I.
  - eapply triple_bind; [apply triple_pop; side |].
    intros [a|] _; [| apply triple_ret; exact I].
    apply triple_then; [apply triple_errback; side | exact IH].
Qed.

Lemma only_get_and_publish : hoare (W:=W) always P (_get_and_publish_data r) any.
Proof.
  unfold _get_and_publish_data.
  eapply triple_bind.
  { apply triple_then; [apply triple_yield | apply triple_read_time]; side. }
  intros now _. eapply triple_bind; [apply triple_call; side |].
  intros s _.
  apply triple_then; [apply triple_yield; side |].
  apply triple_then; [apply triple_emit; side | apply triple_set_data].
Qed.

Lemma only_test_status : hoare (W:=W) always P (test_status r) any.
Proof. apply triple_then; [apply triple_yield | apply triple_read_status]; side. Qed.

Lemma only_read_now : hoare (W:=W) always P (yield r ;; read_time) any.
Proof. apply triple_then; [apply triple_yield | apply triple_read_time]; side. Qed.

Lemma only_sleep d : hoare (W:=W) always P (yield r ;; emit (Sleep d)) any.
Proof. apply triple_then; [apply triple_yield | apply triple_emit]; side. Qed.

Lemma only_poll inner fuel last_daq :
  hoare (W:=W) always P (poll r inner fuel last_daq) any.
Proof.
  revert last_daq. induction fuel as [|n IH]; intros last_daq; simpl.
  - apply triple_ret. exact I.
  - eapply triple_bind; [apply only_test_status |].
    intros b _. destruct b; [| apply triple_ret; exact I].
    eapply triple_bind; [apply only_read_now |].
    intros now _. eapply triple_bind.
    { instantiate (1 := any). destruct (Qle_bool (now - last_daq) 5).
      - apply triple_ret. exact I.
      - apply triple_then; [apply only_get_and_publish | apply triple_ret; exact I]. }
    intros last _. eapply triple_bind; [apply only_process_actions |].
    intros done _. destruct done; [| apply triple_ret; exact I].
    apply triple_then; [apply triple_yield; side |].
    apply triple_then; [apply triple_emit; side | apply IH].
Qed.

Lemma only_connect_and_start port :
  hoare (W:=W) always P (connect_and_start r port) any.
Proof.
  unfold connect_and_start.
  apply triple_then; [apply triple_call; side |].
  apply triple_then; [apply triple_log_info; side |].
  apply triple_then; [apply triple_yield; side |].
  apply triple_set_status. side.
Qed.

End Events.

(** *** The end of [main] *)

Section MainEnd.

Context `{Hardware W}.
Variable r : reactor.

Lemma traces_bind {A B} (m : M (state W) A) (k : A -> M (state W) B)
    (R1 : outcome A -> list event -> Prop) (R2 : A -> outcome B -> list event -> Prop)
    (R : outcome B -> list event -> Prop) :
  traces m R1 -> (forall x, traces (k x) (R2 x)) ->
  (forall x e1 o e2, R1 (Ok x) e1 -> R2 x o e2 -> R o (e1 ++ e2)) ->
  (forall e e1, R1 (Raise e) e1 -> R (Raise e) e1) ->
  traces (m ≫= k) R.
Proof.
  intros Hm Hk Hok Hraise st. destruct (Hm st) as (e1 & Ht1 & H1).
  rewrite bind_run. destruct (m st) as [[x|e] st1]; simpl in *.
  - destruct (Hk x st1) as (e2 & Ht2 & H2).
    exists (e1 ++ e2). split; [rewrite Ht2, Ht1, app_assoc; reflexivity |].
    eapply Hok; eassumption.
  - exists e1. split; [exact Ht1 | apply Hraise, H1].
Qed.

Lemma harmless_crash_ok {A} (o : outcome A) (evs : list event) :
  Forall harmless evs -> crash_ok o evs.
Proof.
  intros Hall. rewrite List.Forall_forall in Hall. split.
  - intros e Hin. destruct (proj2 (Hall _ Hin) e eq_refl).
  - intros rc Hin. destruct (proj1 (Hall _ Hin) rc eq_refl).
Qed.

Lemma crash_ok_harmless {A Q} (m : M (state W) A) :
  hoare always harmless m Q -> traces m crash_ok.
Proof.
  intros Hm st. destruct (Hm st I) as (_ & (evs & Ht & Hall) & _).
  exists evs. split; [exact Ht | apply harmless_crash_ok, Hall].
Qed.

Ltac harmless_side := intros; split; intros; discriminate.

Lemma crash_ok_app {A B} (x : A) (o : outcome B) (e1 e2 : list event) :
  crash_ok (Ok x) e1 -> crash_ok o e2 -> crash_ok o (e1 ++ e2).
Proof.
  intros [Hg1 Hc1] [Hg2 Hc2]. split.
  - intros e [Hin | Hin]%in_app_or; [discriminate (Hg1 e Hin) | apply Hg2, Hin].
  - intros rc [Hin | Hin]%in_app_or; [eapply Hc1, Hin | eapply Hc2, Hin].
Qed.

Lemma crash_ok_raise {A B} (e : exn) (evs : list event) :
  crash_ok (A:=A) (Raise e) evs -> crash_ok (A:=B) (Raise e) evs.
Proof.
  intros [Hg Hc]. split; [| exact Hc].
  intros e' Hin. specialize (Hg e' Hin). injection Hg as ->. reflexivity.
Qed.

Lemma crash_ok_bind {A B} (m : M (state W) A) (k : A -> M (state W) B) :
  traces m crash_ok -> (forall x, traces (k x) crash_ok) -> traces (m ≫= k) crash_ok.
Proof.
  intros Hm Hk. eapply traces_bind; [exact Hm | exact Hk | |].
  - intros x e1 o e2. apply crash_ok_app.
  - intros e e1 H1. eapply crash_ok_raise, H1.
Qed.

Lemma crash_ok_get_and_publish : traces (W:=W) (_get_and_publish_data r) crash_ok.
Proof.
  unfold _get_and_publish_data.
  apply crash_ok_bind.
  { eapply crash_ok_harmless, only_read_now; harmless_side. }
  intros now. apply crash_ok_bind.
  { unfold call. apply crash_ok_bind.
    - eapply crash_ok_harmless, only_yield; harmless_side.
    - intros ? st. unfold extern. destruct (get_status (world st)) as [rs w].
      exists [GetStatus rs]. split; [reflexivity |]. split.
      + intros e [[= ->] | []]. reflexivity.
      + intros rc [[=] | []]. }
  intros s. apply crash_ok_bind.
  { eapply crash_ok_harmless, only_yield; harmless_side. }
  intros ?. apply crash_ok_bind.
  { eapply crash_ok_harmless, triple_emit; harmless_side. }
  intros ?. eapply crash_ok_harmless, triple_set_data.
Qed.

Lemma poll_end_after {A} (m : M (state W) A) (k : A -> M (state W) (option unit)) :
  traces m crash_ok -> (forall x, traces (k x) poll_end) -> traces (m ≫= k) poll_end.
Proof.
  intros Hm Hk. eapply traces_bind; [exact Hm | exact Hk | |].
  - intros x e1 o e2 H1 [Hret H2]. split; [| eapply crash_ok_app; eassumption].
    intros Ho. apply in_or_app. right. apply Hret, Ho.
  - intros e e1 H1. split; [discriminate | eapply crash_ok_raise, H1].
Qed.

Lemma test_status_run (st : state W) :
  exists w b st',
    test_status r st = (Ok b, st') /\ trace st' = trace st ++ w ++ [TestStatus b] /\
    Forall harmless w.
Proof.
  destruct (only_yield r harmless ltac:(harmless_side) ltac:(harmless_side) st I)
    as (_ & (w & Ht & Hw) & _).
  pose proof (returns_yield r st) as Hok.
  unfold test_status. rewrite bind_run.
  destruct (yield r st) as [[[]|e] st0]; [| discriminate Hok]. simpl in Ht.
  exists w. eexists _, _. unfold read_status. split; [reflexivity |].
  simpl. rewrite Ht, app_assoc. auto.
Qed.

Lemma poll_S inner n last_daq :
  poll r inner (S n) last_daq =
    (b ← test_status r;
     if b : bool then
       now ← (yield r ;; read_time);
       last ← (if Qle_bool (now - last_daq)%Q 5 then mret last_daq
               else _get_and_publish_data r ;; mret now);
       done ← _process_actions r inner;
       match done with
       | Some _ => yield r ;; emit (Sleep (1 # 10)) ;; poll (W:=W) r inner n last
       | None => mret None
       end
     else mret (Some tt)).
Proof. reflexivity. Qed.

Lemma poll_ends_well inner fuel last_daq :
  traces (W:=W) (poll r inner fuel last_daq) poll_end.
Proof.
  revert last_daq. induction fuel as [|n IH]; intros last_daq.
  - intros st. exists []. simpl. rewrite app_nil_r. split; [reflexivity |].
    split; [discriminate |]. split; intros ? [].
  - rewrite poll_S.
    eapply (traces_bind _ _
              (fun o evs => exists w b, Forall harmless w /\ o = Ok b /\
                                        evs = w ++ [TestStatus b])
              (fun (b : bool) o evs =>
                 if b then poll_end o evs else evs = [] /\ o = Ok (Some tt))).
    + intros st. destruct (test_status_run st) as (w & b & st' & -> & Ht & Hw).
      eexists. split; [exact Ht |]. exists w, b. auto.
    + intros [|].
      2:{ intros st. exists []. simpl. rewrite app_nil_r. auto. }
      apply poll_end_after.
      { eapply crash_ok_harmless, only_read_now; harmless_side. }
      intros now. apply poll_end_after.
      { destruct (Qle_bool (now - last_daq) 5).
        - eapply crash_ok_harmless, triple_ret. exact I.
        - apply crash_ok_bind; [apply crash_ok_get_and_publish |].
          intros ?. eapply crash_ok_harmless, triple_ret. exact I. }
      intros last. apply poll_end_after.
      { eapply crash_ok_harmless, only_process_actions; harmless_side. }
      intros [[]|].
      2:{ intros st. exists []. simpl. rewrite app_nil_r. split; [reflexivity |].
          split; [discriminate |]. split; intros ? []. }
      apply poll_end_after.
      { eapply crash_ok_harmless, only_yield; harmless_side. }
      intros ?. apply poll_end_after.
      { eapply crash_ok_harmless, triple_emit; harmless_side. }
      intros ?. apply IH.
    + intros b e1 o e2 (w & b' & Hw & [= <-] & ->) H2.
      assert (Hc1 : crash_ok (Ok b) (w ++ [TestStatus b])).
      { apply harmless_crash_ok, Forall_app. split; [exact Hw |].
        repeat constructor; discriminate. }
      destruct b.
      * destruct H2 as [Hret H2]. split; [| eapply crash_ok_app; eassumption].
        intros Ho. apply in_or_app. right. apply Hret, Ho.
      * destruct H2 as [-> ->]. rewrite app_nil_r. split.
        -- intros _. apply in_or_app. right. left. reflexivity.
        -- apply harmless_crash_ok, Forall_app. split; [exact Hw |].
           repeat constructor; discriminate.
    + intros e e1 (w & b & _ & [=] & _).
Qed.

Lemma harmless_only {A Q} (m : M (state W) A) :
  hoare always harmless m Q -> traces m (fun _ evs => Forall harmless evs).
Proof.
  intros Hm st. destruct (Hm st I) as (_ & (evs & Ht & Hall) & _).
  exists evs. split; assumption.
Qed.

Lemma harmless_no_close (evs : list event) rc : Forall harmless evs -> ~ In (Close rc) evs.
Proof.
  intros Hall Hin. rewrite List.Forall_forall in Hall.
  destruct (proj1 (Hall _ Hin) rc eq_refl).
Qed.

Lemma harmless_no_crash (evs : list event) e :
  Forall harmless evs -> ~ In (GetStatus (Raise e)) evs.
Proof.
  intros Hall Hin. rewrite List.Forall_forall in Hall.
  destruct (proj2 (Hall _ Hin) e eq_refl).
Qed.

Lemma main_end_harmless (o : outcome (option unit)) (evs : list event) :
  Forall harmless evs -> o <> Ok (Some tt) -> main_end o evs.
Proof.
  intros Hall Ho. split; [| split].
  - intros rc Hin. destruct (harmless_no_close _ _ Hall Hin).
  - intros Heq. destruct (Ho Heq).
  - intros e Hin. destruct (harmless_no_crash _ _ Hall Hin).
Qed.

Lemma main_end_after {A} (m : M (state W) A) (k : A -> M (state W) (option unit)) :
  traces m (fun _ evs => Forall harmless evs) ->
  (forall x, traces (k x) main_end) ->
  traces (m ≫= k) main_end.
Proof.
  intros Hm Hk. eapply traces_bind; [exact Hm | exact Hk | |].
  - intros x e1 o e2 H1 (Hclose & Hret & Hcrash). split; [| split].
    + intros rc [Hin | Hin]%in_app_or; [destruct (harmless_no_close _ _ H1 Hin) |].
      destruct (Hclose rc Hin) as (pre & -> & Hpre & Htest & Ho).
      exists (e1 ++ pre). rewrite app_assoc. split; [reflexivity |].
      split; [| split; [apply in_or_app; right; exact Htest | exact Ho]].
      intros rc' Hin'. apply in_app_or in Hin' as [Hin' | Hin'];
        [exact (harmless_no_close _ _ H1 Hin') | exact (Hpre _ Hin')].
    + intros Ho. apply in_or_app. right. apply Hret, Ho.
    + intros e [Hin | Hin]%in_app_or; [destruct (harmless_no_crash _ _ H1 Hin) |].
      destruct (Hcrash e Hin) as [Ho Hnone]. split; [exact Ho |].
      intros rc Hin'. apply in_app_or in Hin' as [Hin' | Hin'];
        [exact (harmless_no_close _ _ H1 Hin') | exact (Hnone _ Hin')].
  - intros e e1 H1. apply main_end_harmless; [exact H1 | discriminate].
Qed.

(** [PCU.close()] and the return of [main]. *)
Lemma close_run (st : state W) :
  exists w rc,
    trace ((call r close Close ;; mret (Some tt)) st).2 = trace st ++ w ++ [Close rc] /\
    Forall harmless w /\
    ((call r close Close ;; mret (Some tt)) st).1 =
      match rc with Ok _ => Ok (Some tt) | Raise e => Raise e end.
Proof.
  destruct (only_yield r harmless ltac:(harmless_side) ltac:(harmless_side) st I)
    as (_ & (w & Ht & Hw) & _).
  pose proof (returns_yield r st) as Hok.
  rewrite bind_run. unfold call. rewrite bind_run.
  destruct (yield r st) as [[[]|e] st0]; [| discriminate Hok]. simpl in Ht.
  unfold extern. destruct (close (world st0)) as [[[]|e] w'];
    eexists w, _; simpl; rewrite Ht, <- app_assoc; repeat split; auto.
Qed.

Lemma main_ends_well port inner fuel : traces (W:=W) (main r port inner fuel) main_end.
Proof.
  unfold main.
  apply main_end_after.
  { eapply harmless_only, only_connect_and_start; harmless_side. }
  intros ?. apply main_end_after.
  { eapply harmless_only, only_cancel_queued; harmless_side. }
  intros [[]|].
  2:{ intros st. exists []. simpl. rewrite app_nil_r. split; [reflexivity |].
      apply main_end_harmless; [constructor | discriminate]. }
  eapply (traces_bind _ _ poll_end
            (fun polled o evs =>
               match polled with
               | Some _ =>
                   exists w rc, evs = w ++ [Close rc] /\ Forall harmless w /\
                     o = match rc with Ok _ => Ok (Some tt) | Raise e => Raise e end
               | None => evs = [] /\ o = Ok None
               end)).
  - apply poll_ends_well.
  - intros [[]|] st.
    + destruct (close_run st) as (w & rc & Ht & Hw & Ho).
      eexists. split; [exact Ht |]. exists w, rc. auto.
    + exists []. simpl. rewrite app_nil_r. auto.
  - intros polled e1 o e2 [Htest [Hcrash Hnone]] H2.
    assert (Hnocrash : forall e, ~ In (GetStatus (Raise e)) e1)
      by (intros e Hin; discriminate (Hcrash e Hin)).
    destruct polled as [[]|].
    + destruct H2 as (w & rc & -> & Hw & ->). split; [| split].
      * intros rc' [Hin | [Hin | [[= <-] | []]]%in_app_or]%in_app_or.
        -- destruct (Hnone _ Hin).
        -- destruct (harmless_no_close _ _ Hw Hin).
        -- exists (e1 ++ w). rewrite app_assoc. split; [reflexivity |].
           split; [| split; [apply in_or_app; left; apply Htest; reflexivity
                            | reflexivity]].
           intros rc' Hin. apply in_app_or in Hin as [Hin | Hin];
             [exact (Hnone _ Hin) | exact (harmless_no_close _ _ Hw Hin)].
      * intros Ho. destruct rc as [[]|e]; [| discriminate Ho].
        apply in_or_app. right. apply in_or_app. right. left. reflexivity.
      * intros e [Hin | [Hin | [[=] | []]]%in_app_or]%in_app_or.
        -- destruct (Hnocrash _ Hin).
        -- destruct (harmless_no_crash _ _ Hw Hin).
    + destruct H2 as [-> ->]. rewrite app_nil_r. split; [| split].
      * intros rc Hin. destruct (Hnone _ Hin).
      * discriminate.
      * intros e Hin. destruct (Hnocrash _ Hin).
  - intros e e1 [_ [Hcrash Hnone]]. split; [| split].
    + intros rc Hin. destruct (Hnone _ Hin).
    + discriminate.
    + intros e' Hin. split; [apply Hcrash, Hin | exact Hnone].
Qed.

(** X21. [PCU.close()] is called at most once, as the last thing [main]
    does, and only after the polling loop has ended by a test of the
    session status that failed; the outcome of [main] is then that of the
    closing.  [main] returns only after the port was closed.  When
    [PCU.get_status()] raises, the exception leaves [main] and the port is
    not closed. *)
Theorem X21_port_is_closed_only_after_the_loop
    (port : string) (inner fuel : nat) (st : state W) :
  exists new,
    trace (main r port inner fuel st).2 = trace st ++ new /\
    (forall rc, In (Close rc) new ->
       exists pre,
         new = pre ++ [Close rc] /\ (forall rc', ~ In (Close rc') pre) /\
         In (TestStatus false) pre /\
         (main r port inner fuel st).1 =
           match rc with Ok _ => Ok (Some tt) | Raise e => Raise e end) /\
    ((main r port inner fuel st).1 = Ok (Some tt) -> In (Close (Ok tt)) new) /\
    (forall e, In (GetStatus (Raise e)) new ->
       (main r port inner fuel st).1 = Raise e /\ forall rc, ~ In (Close rc) new).
Proof.
  destruct (main_ends_well port inner fuel st) as (new & Ht & Hend).
  exists new. split; [exact Ht | exact Hend].
Qed.

End MainEnd.

Lemma X21_witness :
  let st := on_rig (mkRig 100 true [] false) [] 0 in
  (main quiet_reactor "/dev/ttyUSB0" 5 5 st).1 = Raise OSError /\
  forall rc, ~ In (Close rc) (trace (main quiet_reactor "/dev/ttyUSB0" 5 5 st).2).
Proof.
  intros st.
  destruct (X21_port_is_closed_only_after_the_loop quiet_reactor "/dev/ttyUSB0" 5 5 st)
    as (new & Ht & _ & _ & Hcrash).
  change (trace st ++ new) with new in Ht. rewrite Ht. apply Hcrash.
  rewrite <- Ht. vm_compute. auto 10.
Defined.

(** *** The polling loop and [_stop_main] *)

Lemma status_after_app s (e1 e2 : list event) :
  status_after s (e1 ++ e2) = status_after (status_after s e1) e2.
Proof.
  revert s. induction e1 as [|e e1 IH]; intros s; [reflexivity |].
  destruct e; simpl; apply IH.
Qed.

Lemma agrees_app s (e1 e2 : list event) :
  agrees s (e1 ++ e2) <-> agrees s e1 /\ agrees (status_after s e1) e2.
Proof.
  revert s. induction e1 as [|e e1 IH]; intros s; [simpl; tauto |].
  destruct e; simpl; rewrite ?IH; tauto.
Qed.

Lemma data_after_app d (e1 e2 : list event) :
  data_after d (e1 ++ e2) = data_after (data_after d e1) e2.
Proof.
  revert d. induction e1 as [|e e1 IH]; intros d; [reflexivity |].
  destruct e; simpl; apply IH.
Qed.

Lemma plain_data d (evs : list event) :
  Forall (fun e => plain e = true) evs -> data_after d evs = d.
Proof.
  induction 1 as [|e evs He _ IH]; [reflexivity |].
  destruct e; try discriminate He; exact IH.
Qed.

Lemma plain_neutral s (evs : list event) :
  Forall (fun e => plain e = true) evs -> status_after s evs = s /\ agrees s evs.
Proof.
  induction 1 as [|e evs He _ IH]; [split; [reflexivity | exact I] |].
  destruct e; try discriminate He; exact IH.
Qed.

Lemma agrees_stopped (pre post : list event) b :
  agrees "stopping" (pre ++ TestStatus b :: post) ->
  Forall only_stopping (pre ++ TestStatus b :: post) ->
  b = false.
Proof.
  induction pre as [|e pre IH]; simpl; intros Hag Hall.
  - destruct Hag as [-> _]. reflexivity.
  - apply Forall_cons in Hall as [He Hall].
    destruct e; try (apply IH; [exact Hag | exact Hall]).
    + rewrite (He s eq_refl) in Hag. apply IH; assumption.
    + apply IH; [apply Hag | exact Hall].
Qed.

(** From a status that lets the loop go on, a test answers true exactly
    when no stop was requested before it. *)
Lemma agrees_tests s (pre post : list event) b :
  running s = true ->
  agrees s (pre ++ TestStatus b :: post) ->
  Forall only_stopping (pre ++ TestStatus b :: post) ->
  b = negb (existsb is_stop pre).
Proof.
  intros Hrun. induction pre as [|e pre IH]; simpl; intros Hag Hall.
  - destruct Hag as [-> _]. exact Hrun.
  - apply Forall_cons in Hall as [He Hall].
    destruct e; try (apply IH; [exact Hag | exact Hall]).
    + rewrite (He s0 eq_refl) in Hag |- *. simpl.
      eapply agrees_stopped; eassumption.
    + apply IH; [apply Hag | exact Hall].
Qed.

Section Stop.

Context `{Hardware W}.
Variable r : reactor.

Lemma follows_ret {A} (x : A) : follows (W:=W) (mret x).
Proof. intros st. exists []. simpl. rewrite app_nil_r. auto. Qed.

Lemma follows_bind {A B} (m : M (state W) A) (k : A -> M (state W) B) :
  follows m -> (forall x, follows (k x)) -> follows (m ≫= k).
Proof.
  intros Hm Hk st. destruct (Hm st) as (e1 & Ht1 & Hs1 & Ha1 & Hd1).
  rewrite bind_run. destruct (m st) as [[x|e] st1]; simpl in *.
  - destruct (Hk x st1) as (e2 & Ht2 & Hs2 & Ha2 & Hd2).
    exists (e1 ++ e2). rewrite status_after_app, agrees_app, data_after_app, <- Hs1, <- Hd1.
    split; [rewrite Ht2, Ht1, app_assoc; reflexivity | auto].
  - exists e1. auto.
Qed.

Lemma follows_try {A} (m : M (state W) A) (hd : exn -> option (M (state W) A)) :
  follows m -> (forall e c, hd e = Some c -> follows c) -> follows (try_except m hd).
Proof.
  intros Hm Hh st. destruct (Hm st) as (e1 & Ht1 & Hs1 & Ha1 & Hd1).
  unfold try_except. destruct (m st) as [[x|e] st1]; simpl in *.
  - exists e1. auto.
  - destruct (hd e) as [c|] eqn:He; [| exists e1; auto].
    destruct (Hh e c He st1) as (e2 & Ht2 & Hs2 & Ha2 & Hd2).
    exists (e1 ++ e2). rewrite status_after_app, agrees_app, data_after_app, <- Hs1, <- Hd1.
    split; [rewrite Ht2, Ht1, app_assoc; reflexivity | auto].
Qed.

(** A step that leaves the status and the data alone and neither sets nor
    tests the status, nor publishes. *)
Lemma follows_step {A} (m : M (state W) A) (evs : state W -> list event) :
  (forall st, status (m st).2 = status st) ->
  (forall st, data (m st).2 = data st) ->
  (forall st, trace (m st).2 = trace st ++ evs st) ->
  (forall st, Forall (fun e => plain e = true) (evs st)) ->
  follows m.
Proof.
  intros Hs Hd Ht Hp st. exists (evs st).
  destruct (plain_neutral (status st) _ (Hp st)) as [-> Ha].
  rewrite (plain_data _ _ (Hp st)). auto.
Qed.

Lemma follows_emit (e : event) : plain e = true -> follows (W:=W) (emit e).
Proof.
  intros He. apply (follows_step _ (fun _ => [e])); intros; try reflexivity.
  repeat constructor. exact He.
Qed.

Lemma follows_extern {A} (f : W -> outcome A * W) (ev : outcome A -> event) :
  (forall res, plain (ev res) = true) -> follows (extern f ev).
Proof.
  intros He. apply (follows_step _ (fun st => [ev (f (world st)).1]));
    intros st; unfold extern; try (destruct (f (world st)); reflexivity).
  repeat constructor. apply He.
Qed.

Lemma follows_yield : follows (W:=W) (yield r).
Proof.
  intros st. unfold yield. rewrite bind_run.
  destruct (send_commands_numbered (commands r (trace st)) st) as (acts & -> & _).
  assert (Hp : Forall (fun e => plain e = true) (List.map Put acts))
    by (clear; induction acts; constructor; auto).
  destruct (plain_neutral (status st) _ Hp) as [Hs Ha].
  pose proof (plain_data (data st) _ Hp) as Hd.
  destruct (stop_requested r (trace st)); simpl.
  - exists (List.map Put acts ++ [SetStatus "stopping"]).
    rewrite status_after_app, agrees_app, data_after_app, Hs, Hd, app_assoc. simpl. auto.
  - exists (List.map Put acts). auto.
Qed.

Lemma follows_then {A B} (m : M (state W) A) (k : M (state W) B) :
  follows m -> follows k -> follows (m ≫= fun _ => k).
Proof. intros Hm Hk. apply follows_bind; [exact Hm | intros ?; exact Hk]. Qed.

Lemma follows_yield_emit (e : event) :
  plain e = true -> follows (W:=W) (yield r ≫= fun _ => emit e).
Proof. intros He. apply follows_then; [apply follows_yield | apply follows_emit, He]. Qed.

Lemma follows_call {A} (f : W -> outcome A * W) (ev : outcome A -> event) :
  (forall res, plain (ev res) = true) -> follows (call r f ev).
Proof. intros He. apply follows_then; [apply follows_yield | apply follows_extern, He]. Qed.

Lemma follows_for_each {A} (l : list A) (f : A -> M (state W) unit) :
  (forall x, follows (f x)) -> follows (for_each l f).
Proof.
  intros Hf. induction l as [|x l IH]; simpl; [apply follows_ret |].
  apply follows_then; [apply Hf | exact IH].
Qed.

Lemma follows_process_action a : follows (W:=W) (process_action r a).
Proof.
  destruct a as [command d|d]; simpl; [| apply follows_ret].
  destruct (channels command) as [off on].
  repeat (apply follows_then; [apply follows_yield_emit; reflexivity |]).
  apply follows_then; [apply follows_for_each; intros i; apply follows_call; reflexivity |].
  apply follows_then; [apply follows_for_each; intros i; apply follows_call; reflexivity |].
  apply follows_ret.
Qed.

Lemma follows_pop : follows (W:=W) (pop r).
Proof.
  apply follows_then; [apply follows_yield |].
  apply (follows_step _ (fun _ => [])); intros st; unfold take_head;
    destruct (action_queue st); simpl; rewrite ?app_nil_r; auto.
Qed.

Lemma follows_process_actions fuel : follows (W:=W) (_process_actions r fuel).
Proof.
  induction fuel as [|n IH]; [apply follows_ret |].
  rewrite process_actions_S. apply follows_bind; [apply follows_pop |].
  intros [a|]; [| apply follows_ret].
  apply follows_then; [| exact IH].
  apply follows_try.
  - apply follows_then; [apply follows_yield_emit; reflexivity |].
    apply follows_bind; [apply follows_process_action |].
    intros res. apply follows_yield_emit. reflexivity.
  - intros e c [= <-].
    apply follows_then; apply follows_yield_emit; reflexivity.
Qed.

Lemma follows_read_time : follows (W:=W) read_time.
Proof.
  apply (follows_step _ (fun st => [Clock (time (world st)).1]));
    intros st; unfold read_time; try (destruct (time (world st)); reflexivity).
  repeat constructor.
Qed.

Lemma follows_get_and_publish : follows (W:=W) (_get_and_publish_data r).
Proof.
  unfold _get_and_publish_data.
  apply follows_bind; [apply follows_then; [apply follows_yield | apply follows_read_time] |].
  intros now. apply follows_bind; [apply follows_call; reflexivity |].
  intros s. apply follows_then; [apply follows_yield |].
  intros st. exists [Publish s now]. simpl. auto.
Qed.

Lemma follows_test_status : follows (W:=W) (test_status r).
Proof.
  apply follows_then; [apply follows_yield |].
  intros st. eexists [TestStatus _]. simpl. auto.
Qed.

Lemma follows_poll inner fuel last_daq : follows (W:=W) (poll r inner fuel last_daq).
Proof.
  revert last_daq. induction fuel as [|n IH]; intros last_daq; [apply follows_ret |].
  rewrite poll_S. apply follows_bind; [apply follows_test_status |].
  intros [|]; [| apply follows_ret].
  apply follows_bind; [apply follows_then; [apply follows_yield | apply follows_read_time] |].
  intros now. apply follows_bind.
  { destruct (Qle_bool (now - last_daq) 5); [apply follows_ret |].
    apply follows_then; [apply follows_get_and_publish | apply follows_ret]. }
  intros last. apply follows_bind; [apply follows_process_actions |].
  intros [[]|]; [| apply follows_ret].
  apply follows_then; [apply follows_yield |].
  apply follows_then; [apply follows_emit; reflexivity | apply IH].
Qed.

Ltac stopping_side :=
  intros; intros ? Heq; first [discriminate Heq | injection Heq as <-; reflexivity].

(** X22. The polling loop of [main] and [_stop_main]: from a session that
    is starting or running, a test of the status at the head of the loop
    answers true exactly when [_stop_main] has not been called since the
    loop began.  So the loop goes on while no stop is requested, and it
    ends only after one was. *)
Theorem X22_loop_runs_until_stopped
    (inner fuel : nat) (last_daq : Q) (st : state W) :
  running (status st) = true ->
  exists evs,
    trace (poll r inner fuel last_daq st).2 = trace st ++ evs /\
    (forall pre b post,
        evs = pre ++ TestStatus b :: post -> b = negb (existsb is_stop pre)) /\
    ((poll r inner fuel last_daq st).1 = Ok (Some tt) ->
     In (SetStatus "stopping") evs).
Proof.
  intros Hrun.
  destruct (follows_poll inner fuel last_daq st) as (evs & Ht & _ & Hag & _).
  destruct (only_poll r only_stopping ltac:(stopping_side) ltac:(stopping_side)
              ltac:(stopping_side) ltac:(stopping_side) ltac:(stopping_side)
              ltac:(stopping_side) ltac:(stopping_side) ltac:(stopping_side)
              ltac:(stopping_side) ltac:(stopping_side) ltac:(stopping_side)
              ltac:(stopping_side) ltac:(stopping_side) inner fuel last_daq st I)
    as (_ & (evs' & Ht' & Hall) & _).
  assert (evs' = evs) as -> by (rewrite Ht in Ht'; eapply app_inv_head, eq_sym, Ht').
  assert (Htests : forall pre b post,
             evs = pre ++ TestStatus b :: post -> b = negb (existsb is_stop pre)).
  { intros pre b post ->. eapply agrees_tests; eassumption. }
  exists evs. split; [exact Ht |]. split; [exact Htests |].
  intros Hret.
  destruct (poll_ends_well r inner fuel last_daq st) as (evs2 & Ht2 & Hend & _).
  assert (evs2 = evs) as -> by (rewrite Ht in Ht2; eapply app_inv_head, eq_sym, Ht2).
  destruct (in_split _ _ (Hend Hret)) as (pre & post & Hsplit).
  pose proof (Htests pre false post Hsplit) as Hstop.
  destruct (existsb is_stop pre) eqn:Hex; [| discriminate Hstop].
  apply existsb_exists in Hex as (e & Hin & He).
  destruct e; try discriminate He. simpl in He. apply String.eqb_eq in He as ->.
  rewrite Hsplit. apply in_or_app. left. exact Hin.
Qed.

Lemma follows_cancel_queued fuel : follows (W:=W) (cancel_queued r fuel).
Proof.
  induction fuel as [|n IH]; [apply follows_ret |].
  simpl. apply follows_bind; [apply follows_pop |].
  intros [a|]; [| apply follows_ret].
  apply follows_then; [apply follows_yield_emit; reflexivity | exact IH].
Qed.

Lemma follows_main port inner fuel : follows (W:=W) (main r port inner fuel).
Proof.
  unfold main, connect_and_start.
  apply follows_then.
  { apply follows_then; [apply follows_call; reflexivity |].
    apply follows_then; [apply follows_yield_emit; reflexivity |].
    apply follows_then; [apply follows_yield |].
    intros st. exists [SetStatus "running"]. simpl. auto. }
  apply follows_bind; [apply follows_cancel_queued |].
  intros [[]|]; [| apply follows_ret].
  apply follows_bind; [apply follows_poll |].
  intros [[]|]; [| apply follows_ret].
  apply follows_then; [apply follows_call; reflexivity | apply follows_ret].
Qed.

(** X23. Whenever and however [main] is left, [session.data] holds the
    status and the time of the last publication to the feed, and is what
    it was before [main] when nothing was published; in particular a
    reading of the status that raises leaves the data of the reading
    before. *)
Theorem X23_session_data_is_the_last_publication
    (port : string) (inner fuel : nat) (st : state W) :
  exists new,
    trace (main r port inner fuel st).2 = trace st ++ new /\
    data (main r port inner fuel st).2 = data_after (data st) new /\
    forall pre s t post,
      new = pre ++ Publish s t :: post ->
      (forall s' t', ~ In (Publish s' t') post) ->
      data (main r port inner fuel st).2 = Some (s, t).
Proof.
  destruct (follows_main port inner fuel st) as (new & Ht & _ & _ & Hd).
  exists new. split; [exact Ht |]. split; [exact Hd |].
  intros pre s t post -> Hlast. rewrite Hd, data_after_app. simpl.
  generalize (Some (s, t)). clear -Hlast.
  induction post as [|e post IH]; intros d; [reflexivity |].
  assert (Hrest : forall s' t', ~ In (Publish s' t') post)
    by (intros s' t' Hin; apply (Hlast s' t'); right; exact Hin).
  destruct e as [| | | | | | | | s' t' | | | | | |]; simpl; try (apply IH, Hrest).
  destruct (Hlast s' t'). left. reflexivity.
Qed.

(** X24. When the port cannot be opened, the exception of [pcu.PCU]
    leaves [main] at once: nothing is logged, the status of the session is
    not set to 'running', and the actions on the queue are neither
    cancelled nor run, they stay queued with their deferreds not fired. *)
Theorem X24_port_failure_leaves_the_queue
    (port : string) (inner fuel : nat) (st : state W) (e : exn) (w' : W) :
  connect port (world st) = (Raise e, w') ->
  (main r port inner fuel st).1 = Raise e /\
  exists acts stop,
    trace (main r port inner fuel st).2 =
      trace st ++ List.map Put acts ++ stop ++ [Connect port (Raise e)] /\
    (stop = [] \/ stop = [SetStatus "stopping"]) /\
    action_queue (main r port inner fuel st).2 = action_queue st ++ acts /\
    world (main r port inner fuel st).2 = w'.
Proof.
  intros Hc. unfold main, connect_and_start. rewrite !bind_run.
  unfold call. rewrite bind_run.
  destruct (yield_spec r st) as (acts & stop & Hy & Hq & _ & Ht & Hs & _ & Hw & _).
  destruct (yield r st) as [[[]|e0] st0]; [| discriminate Hy]. simpl in *.
  unfold extern. rewrite Hw, Hc. simpl. split; [reflexivity |].
  exists acts, stop. rewrite Ht, <- !app_assoc. auto.
Qed.

End Stop.

Lemma X24_witness :
  let st := on_rig (mkRig 100 false [] true) [SendCommand "stop" 0] 1 in
  (main quiet_reactor "/dev/ttyUSB0" 5 5 st).1 = Raise OSError /\
  action_queue (main quiet_reactor "/dev/ttyUSB0" 5 5 st).2 = [SendCommand "stop" 0].
Proof.
  intros st.
  destruct (X24_port_failure_leaves_the_queue (H:=rig_hardware)
              quiet_reactor "/dev/ttyUSB0" 5 5 st
              OSError (mkRig 100 false [] true) eq_refl)
    as (Hraise & acts & stop & _ & _ & Hq & _).
  split; [exact Hraise |]. reflexivity.
Defined.

Lemma X23_witness :
  data (main busy_reactor "/dev/ttyUSB0" 5 5 queued).2 = Some ("off", 101%Q).
Proof.
  destruct (X23_session_data_is_the_last_publication busy_reactor "/dev/ttyUSB0" 5 5 queued)
    as (new & Ht & _ & Hlast).
  vm_compute in Ht. subst new.
  eapply (Hlast [_; _; _; _; _; _; _; _; _; _] _ _ _ eq_refl).
  clear Hlast. intros s' t' Hin. simpl in Hin.
  repeat (destruct Hin as [Hin | Hin]; [discriminate Hin |]). exact Hin.
Defined.

Lemma X22_witness :
  exists evs,
    trace (poll busy_reactor 5 5 0 queued).2 = evs /\
    In (SetStatus "stopping") evs /\
    (forall pre b post,
        evs = pre ++ TestStatus b :: post -> b = negb (existsb is_stop pre)).
Proof.
  destruct (X22_loop_runs_until_stopped busy_reactor 5 5 0 queued eq_refl)
    as (evs & Ht & Htests & Hret).
  exists evs. split; [exact Ht |]. split; [| exact Htests].
  apply Hret. vm_compute. reflexivity.
Defined.

End HWPPCUMore.
